(** * liaison: field masks and models

    A shallow embedding of [packages/model/src/field-mask.js] and
    [packages/model/src/model.js], the properties of the two that the
    specification states, and further properties that the code has.

    Conventions of the embedding.
    - A JavaScript object used as a dictionary is an association list in
      insertion order with pairwise distinct keys ([obj]).  [o[k]] is
      [obj_get], [o[k] = v] is [obj_set] (overwrite in place, or append),
      [Object.entries(o)] is the list itself.  Property reads are reads of
      own properties.  The program reads [o[k]] through the prototype
      chain, and an assignment to [o['__proto__']] sets the prototype: the
      two agree at the names that are not property names of
      [Object.prototype] ([own_name]), and the theorems about reads and
      writes by name have that of the names as a hypothesis.
    - A plain object is data: the test [v?.isOfType && v.isOfType('Model')]
      is false of it.  In the program the test is a TypeError on a plain
      object with a truthy member [isOfType] that is not a function; the
      theorems about computations that apply the test to an object or to
      stored values have as a hypothesis that there is no such object
      ([testable], [testable_heap]).
    - The two dictionaries of a model instance, which the code reads and
      writes by name only, are finite maps ([gmap]).
    - A thrown exception is the outcome [Throws e]. *)

From Stdlib Require Import String List ZArith Lia Bool.
From stdpp Require Import base tactics option list strings pretty gmap.
Import ListNotations.
Open Scope string_scope.

(** ** Outcomes *)

Inductive error : Type :=
| InvalidArgument      (* 'Expected a FieldMask ...', 'Expected an object ...' *)
| IncompatibleMask     (* 'Cannot merge two incompatible fieldMasks' *)
| TypeMismatch         (* 'Type mismatch (...)' *)
| ModelNotFound        (* 'Model not found (name: ...)' *)
| RegistryNotFound     (* 'Registry not found (model: ...)' *)
| NativeTypeError      (* a TypeError raised by the JavaScript runtime *)
| Unallocated.         (* a reference outside the heap; no program reaches one *)

Inductive outcome (A : Type) : Type :=
| Returns (a : A)
| Throws (e : error).
Arguments Returns {A} a.
Arguments Throws {A} e.

(** ** JavaScript objects as ordered dictionaries *)

Section Obj.
Context {A : Type}.

Fixpoint obj_get (o : list (string * A)) (k : string) : option A :=
  match o with
  | [] => None
  | (k', v) :: o' => if String.eqb k' k then Some v else obj_get o' k
  end.

Fixpoint obj_set (o : list (string * A)) (k : string) (v : A) : list (string * A) :=
  match o with
  | [] => [(k, v)]
  | (k', v') :: o' =>
      if String.eqb k' k then (k, v) :: o' else (k', v') :: obj_set o' k v
  end.

Definition obj_keys (o : list (string * A)) : list string := o.*1.

(** lodash's [isEmpty] on an object *)
Definition isEmpty (o : list (string * A)) : bool :=
  match o with [] => true | _ => false end.

Lemma obj_get_set_eq o k v : obj_get (obj_set o k v) k = Some v.
Proof.
  induction o as [|[k' v'] o IH]; simpl.
  - now rewrite String.eqb_refl.
  - destruct (String.eqb k' k) eqn:E; simpl.
    + now rewrite String.eqb_refl.
    + now rewrite E.
Qed.

Lemma obj_get_set_ne o k k' v : k <> k' -> obj_get (obj_set o k v) k' = obj_get o k'.
Proof.
  intros Hne. induction o as [|[k0 v0] o IH]; simpl.
  - destruct (String.eqb_spec k k'); congruence.
  - destruct (String.eqb_spec k0 k) as [->|Hk]; simpl.
    + destruct (String.eqb_spec k k'); congruence.
    + destruct (String.eqb_spec k0 k'); congruence.
Qed.

Lemma obj_get_set o k k' v :
  obj_get (obj_set o k v) k' = if String.eqb k k' then Some v else obj_get o k'.
Proof.
  destruct (String.eqb_spec k k') as [->|Hne].
  - apply obj_get_set_eq.
  - now apply obj_get_set_ne.
Qed.

Lemma obj_get_None o k : obj_get o k = None <-> k ∉ obj_keys o.
Proof.
  unfold obj_keys. induction o as [|[k' v'] o IH]; simpl.
  - split; [intros _; apply not_elem_of_nil | done].
  - rewrite not_elem_of_cons.
    destruct (String.eqb_spec k' k) as [->|Hne].
    + split; [discriminate | tauto].
    + rewrite IH. intuition congruence.
Qed.

Lemma obj_get_elem_of o k v : obj_get o k = Some v -> (k, v) ∈ o.
Proof.
  induction o as [|[k' v'] o IH]; simpl; [discriminate|].
  destruct (String.eqb_spec k' k) as [->|Hne].
  - intros [= ->]. apply elem_of_cons. now left.
  - intros H. apply elem_of_cons. right. now apply IH.
Qed.

Lemma obj_get_NoDup o k v :
  NoDup (obj_keys o) -> (k, v) ∈ o -> obj_get o k = Some v.
Proof.
  unfold obj_keys. induction o as [|[k' v'] o IH]; simpl.
  - intros _ H. now apply elem_of_nil in H.
  - intros Hnd Hin. apply NoDup_cons in Hnd as [Hk Hnd].
    apply elem_of_cons in Hin as [Heq|Hin].
    + injection Heq as -> ->. now rewrite String.eqb_refl.
    + destruct (String.eqb_spec k' k) as [->|Hne].
      * exfalso. apply Hk. apply list_elem_of_fmap. now exists (k, v).
      * now apply IH.
Qed.

Lemma obj_keys_set_elem_of o k v k' :
  k' ∈ obj_keys (obj_set o k v) <-> k' = k \/ k' ∈ obj_keys o.
Proof.
  unfold obj_keys. induction o as [|[k0 v0] o IH]; simpl.
  - rewrite elem_of_cons. rewrite !elem_of_nil. tauto.
  - destruct (String.eqb_spec k0 k) as [->|Hne]; simpl.
    + rewrite !elem_of_cons. tauto.
    + rewrite !elem_of_cons, IH. tauto.
Qed.

Lemma obj_set_NoDup o k v : NoDup (obj_keys o) -> NoDup (obj_keys (obj_set o k v)).
Proof.
  unfold obj_keys. induction o as [|[k0 v0] o IH]; simpl; intros Hnd.
  - apply NoDup_cons. split; [apply not_elem_of_nil | constructor].
  - apply NoDup_cons in Hnd as [Hk Hnd].
    destruct (String.eqb_spec k0 k) as [->|Hne]; simpl.
    + apply NoDup_cons. now split.
    + apply NoDup_cons. split; [|now apply IH].
      intros Hin. apply (obj_keys_set_elem_of o k v k0) in Hin. intuition congruence.
Qed.
End Obj.

(** ** Names that every object inherits

    The property names of [Object.prototype].  [o[name]] finds them in
    every plain object ([constructor] and the like are functions, and
    [__proto__] is the prototype itself), whether the object has the name
    or not. *)
Definition inherited_names : list string :=
  ["constructor"; "hasOwnProperty"; "isPrototypeOf"; "propertyIsEnumerable";
   "toLocaleString"; "toString"; "valueOf"; "__proto__";
   "__defineGetter__"; "__defineSetter__"; "__lookupGetter__"; "__lookupSetter__"].

(** a name under which an object has what it has of its own, or nothing *)
Definition own_name (n : string) : bool :=
  negb (existsb (String.eqb n) inherited_names).

(** ** field-mask.js *)

Module FieldMask.

(** The value stored under a name of a mask: the literal [true] or a
    nested object of the same shape. *)
#[warnings="-register-all"] Inductive fields : Type :=
| FTrue
| FObj (entries : list (string * fields)).

(** A [FieldMask] instance is the object held in its [_fields]. *)
Definition FieldMask : Type := list (string * fields).

(** [Object.entries(v)]: a boolean has no own enumerable property *)
Definition entries (v : fields) : list (string * fields) :=
  match v with FTrue => [] | FObj es => es end.

(** *** [$includes] *)

Definition includes_loop (rec : list (string * fields) -> fields -> bool)
    (rootFields : list (string * fields)) :=
  fix loop (es : list (string * fields)) : bool :=
    match es with
    | [] => true
    | (name, otherFields) :: rest =>
        match obj_get rootFields name with
        | None => false
        | Some FTrue => loop rest
        | Some (FObj fs) =>
            if negb (rec fs otherFields) then false else loop rest
        end
    end.

Fixpoint _includes (rootFields : list (string * fields)) (rootOtherFields : fields)
    {struct rootOtherFields} : bool :=
  match rootOtherFields with
  | FTrue => true
  | FObj es => includes_loop _includes rootFields es
  end.

Definition includes (this fields : FieldMask) : bool :=
  _includes this (FObj fields).

(** *** [$add] *)

Definition merge_loop
    (rec : list (string * fields) -> fields -> outcome (list (string * fields)))
    (rootFields : list (string * fields)) :=
  fix loop (es : list (string * fields)) (mergedFields : list (string * fields))
      : outcome (list (string * fields)) :=
    match es with
    | [] => Returns mergedFields
    | (name, otherFields) :: rest =>
        let fields := obj_get rootFields name in
        match otherFields with
        | FTrue =>
            match fields with
            | Some (FObj _) => Throws IncompatibleMask
            | None => loop rest (obj_set mergedFields name FTrue)
            | Some FTrue => loop rest mergedFields
            end
        | FObj _ =>
            match fields with
            | Some FTrue => Throws IncompatibleMask
            | None =>
                match rec [] otherFields with
                | Returns m => loop rest (obj_set mergedFields name (FObj m))
                | Throws e => Throws e
                end
            | Some (FObj fs) =>
                match rec fs otherFields with
                | Returns m => loop rest (obj_set mergedFields name (FObj m))
                | Throws e => Throws e
                end
            end
        end
    end.

Fixpoint _merge (rootFields : list (string * fields)) (rootOtherFields : fields)
    {struct rootOtherFields} : outcome (list (string * fields)) :=
  match rootOtherFields with
  | FTrue => Returns rootFields
  | FObj es => merge_loop _merge rootFields es rootFields
  end.

Definition add (fields otherFields : FieldMask) : outcome FieldMask :=
  _merge fields (FObj otherFields).

(** *** [$remove] *)

Definition remove_loop
    (rec : fields -> list (string * fields) -> list (string * fields))
    (rootOtherFields : list (string * fields)) :=
  fix loop (es : list (string * fields)) (rootRemainingFields : list (string * fields))
      : list (string * fields) :=
    match es with
    | [] => rootRemainingFields
    | (name, fields) :: rest =>
        match obj_get rootOtherFields name with
        | None => loop rest (obj_set rootRemainingFields name fields)
        | Some (FObj o) =>
            let remainingFields := rec fields o in
            if negb (isEmpty remainingFields)
            then loop rest (obj_set rootRemainingFields name (FObj remainingFields))
            else loop rest rootRemainingFields
        | Some FTrue => loop rest rootRemainingFields
        end
    end.

Fixpoint _remove (rootFields : fields) (rootOtherFields : list (string * fields))
    {struct rootFields} : list (string * fields) :=
  match rootFields with
  | FTrue => []
  | FObj es => remove_loop _remove rootOtherFields es []
  end.

Definition remove (fields otherFields : FieldMask) : FieldMask :=
  _remove (FObj fields) otherFields.

Example add_example :
  add [("a", FTrue); ("b", FObj [("c", FTrue)])]
      [("b", FObj [("d", FTrue)]); ("e", FTrue)]
  = Returns [("a", FTrue); ("b", FObj [("c", FTrue); ("d", FTrue)]); ("e", FTrue)].
Proof. reflexivity. Qed.

Example add_conflict_example :
  add [("a", FTrue)] [("a", FObj [("b", FTrue)])] = Throws IncompatibleMask.
Proof. reflexivity. Qed.

Example remove_example_1 :
  remove [("a", FObj [("b", FTrue); ("c", FTrue)])] [("a", FObj [("b", FTrue)])]
  = [("a", FObj [("c", FTrue)])].
Proof. reflexivity. Qed.

(** *** Well-formed masks: the keys of every object are pairwise distinct *)

Fixpoint distinct (ks : list string) : bool :=
  match ks with
  | [] => true
  | k :: ks' => negb (existsb (String.eqb k) ks') && distinct ks'
  end.

Fixpoint wf (v : fields) : bool :=
  match v with
  | FTrue => true
  | FObj es => distinct (obj_keys es) && forallb (fun e => wf e.2) es
  end.

(** No name of the mask, at any depth, is a name that every object
    inherits: the reads [rootFields[name]] and [rootOtherFields[name]] are
    then reads of own properties, and the writes [mergedFields[name] = ...]
    and [rootRemainingFields[name] = ...] add or replace own properties. *)
Fixpoint own_names (v : fields) : bool :=
  match v with
  | FTrue => true
  | FObj es => forallb (fun e => own_name e.1 && own_names e.2) es
  end.

(** *** Paths, as the specification speaks of them *)

Fixpoint get_path (v : fields) (path : list string) : option fields :=
  match path with
  | [] => Some v
  | name :: path' =>
      match v with
      | FTrue => None
      | FObj es =>
          match obj_get es name with
          | Some v' => get_path v' path'
          | None => None
          end
      end
  end.

Definition is_nested (v : fields) : Prop := exists es, v = FObj es.

(** Both values have an entry at [path], one of them the leaf [true] and
    the other a nested object. *)
Definition conflict_between (va vb : fields) (path : list string) : Prop :=
  exists xa xb,
    get_path va path = Some xa /\ get_path vb path = Some xb /\
    ((xa = FTrue /\ is_nested xb) \/ (is_nested xa /\ xb = FTrue)).

Definition conflict_at (a b : FieldMask) (path : list string) : Prop :=
  conflict_between (FObj a) (FObj b) path.

(** *** Induction over masks *)

Section fields_induction.
Variable P : fields -> Prop.
Hypothesis HTrue : P FTrue.
Hypothesis HObj : forall es, Forall (fun e => P e.2) es -> P (FObj es).

Fixpoint fields_ind' (v : fields) : P v :=
  match v with
  | FTrue => HTrue
  | FObj es =>
      HObj es
        ((fix go (es : list (string * fields)) : Forall (fun e => P e.2) es :=
            match es with
            | [] => @List.Forall_nil _ _
            | (n, v') :: es' => @List.Forall_cons _ (fun e => P e.2) (n, v') es' (fields_ind' v') (go es')
            end) es)
  end.
End fields_induction.

Lemma distinct_NoDup ks : distinct ks = true <-> NoDup ks.
Proof.
  induction ks as [|k ks IH]; simpl.
  - split; [constructor | done].
  - rewrite andb_true_iff, negb_true_iff, NoDup_cons, IH.
    enough (existsb (String.eqb k) ks = false <-> k ∉ ks) by tauto.
    split.
    + intros Hex Hin. apply list_elem_of_In in Hin.
      assert (existsb (String.eqb k) ks = true); [|congruence].
      apply existsb_exists. exists k. split; [done | apply String.eqb_refl].
    + intros Hnin. destruct (existsb (String.eqb k) ks) eqn:E; [|done].
      apply existsb_exists in E as (k' & Hin & Heq).
      apply String.eqb_eq in Heq as <-. exfalso. apply Hnin. now apply list_elem_of_In.
Qed.

Lemma wf_FObj es :
  wf (FObj es) = true <-> NoDup (obj_keys es) /\ Forall (fun e => wf e.2 = true) es.
Proof.
  simpl. rewrite andb_true_iff, distinct_NoDup.
  enough (forallb (fun e => wf e.2) es = true <-> Forall (fun e => wf e.2 = true) es) by tauto.
  rewrite forallb_forall, Forall_forall. split; intros H x Hx; apply H.
  - now apply list_elem_of_In.
  - now apply list_elem_of_In.
Qed.

Lemma wf_lookup es n v : wf (FObj es) = true -> obj_get es n = Some v -> wf v = true.
Proof.
  intros [_ Hall]%wf_FObj Hget. apply obj_get_elem_of in Hget.
  rewrite Forall_forall in Hall. exact (Hall _ Hget).
Qed.

(** *** [$remove]: what is left under each name *)

(** What [_remove] leaves under a name whose entry in the first mask is
    [fields] and whose entry in the second is [other]. *)
Definition remaining_entry (fields : fields) (other : option FieldMask.fields)
    : option FieldMask.fields :=
  match other with
  | None => Some fields
  | Some FTrue => None
  | Some (FObj o) =>
      let remainingFields := _remove fields o in
      if isEmpty remainingFields then None else Some (FObj remainingFields)
  end.

Lemma remove_loop_get rootOtherFields es acc name :
  NoDup (obj_keys es) ->
  obj_get (remove_loop _remove rootOtherFields es acc) name =
    match obj_get es name with
    | None => obj_get acc name
    | Some fields =>
        match remaining_entry fields (obj_get rootOtherFields name) with
        | Some r => Some r
        | None => obj_get acc name
        end
    end.
Proof.
  revert acc. induction es as [|[k f] rest IH]; intros acc Hnd; [reflexivity|].
  unfold obj_keys in Hnd. simpl in Hnd. apply NoDup_cons in Hnd as [Hk Hnd].
  assert (Hrest : forall acc', k = name ->
            obj_get (remove_loop _remove rootOtherFields rest acc') name = obj_get acc' name).
  { intros acc' <-. rewrite IH by exact Hnd.
    replace (obj_get rest k) with (@None fields); [reflexivity|].
    symmetry. now apply obj_get_None. }
  cbn [remove_loop obj_get].
  destruct (String.eqb_spec k name) as [Heq|Hne].
  - subst name. unfold remaining_entry.
    destruct (obj_get rootOtherFields k) as [[|o]|] eqn:E.
    + now apply Hrest.
    + cbv zeta. destruct (isEmpty (_remove f o)); cbn [negb].
      * now apply Hrest.
      * rewrite Hrest by reflexivity. apply obj_get_set_eq.
    + rewrite Hrest by reflexivity. apply obj_get_set_eq.
  - assert (Hacc : forall v, obj_get (obj_set acc k v) name = obj_get acc name)
      by (intros v; now apply obj_get_set_ne).
    destruct (obj_get rootOtherFields k) as [[|o]|] eqn:E.
    + now apply IH.
    + destruct (negb (isEmpty (_remove f o))).
      * rewrite IH by exact Hnd. now rewrite Hacc.
      * now apply IH.
    + rewrite IH by exact Hnd. now rewrite Hacc.
Qed.

Lemma remove_get (a b : FieldMask) name :
  wf (FObj a) = true ->
  obj_get (remove a b) name =
    match obj_get a name with
    | None => None
    | Some fields => remaining_entry fields (obj_get b name)
    end.
Proof.
  intros [Hnd _]%wf_FObj. unfold remove. cbn [_remove].
  rewrite remove_loop_get by exact Hnd.
  destruct (obj_get a name) as [f|]; [|reflexivity].
  now destruct (remaining_entry f (obj_get b name)).
Qed.

(** C7.  For masks none of whose names is a name every object inherits,
    and read at such names,
    [remove(a, b)] is a new mask in which a name of [a] keeps its entry
    unchanged when [b] has no entry for it, keeps the recursive remainder
    when [b]'s entry is nested and that remainder is not empty, and is
    absent when the remainder is empty or [b]'s entry is the leaf [true];
    names that [a] does not have are absent.  The two examples of the
    specification evaluate as stated.  (At an inherited name the program
    reads [rootOtherFields[name]] from [Object.prototype]:
    [$remove({constructor: true, a: true}, {})] is [{a: true}].) *)
Theorem remove_keeps_unselected_part :
  (forall (a b : FieldMask) (name : string),
      wf (FObj a) = true ->
      own_names (FObj a) = true -> own_names (FObj b) = true ->
      own_name name = true ->
      obj_get (remove a b) name =
        match obj_get a name, obj_get b name with
        | None, _ => None
        | Some fields, None => Some fields
        | Some fields, Some (FObj o) =>
            if isEmpty (_remove fields o) then None
            else Some (FObj (_remove fields o))
        | Some fields, Some FTrue => None
        end) /\
  remove [("a", FObj [("b", FTrue); ("c", FTrue)])] [("a", FObj [("b", FTrue)])]
    = [("a", FObj [("c", FTrue)])] /\
  remove [("a", FObj [("b", FTrue)])] [("a", FTrue)] = [].
Proof.
  split; [|split; reflexivity].
  intros a b name Hwf _ _ _. rewrite remove_get by exact Hwf.
  destruct (obj_get a name) as [f|]; [|reflexivity].
  unfold remaining_entry. now destruct (obj_get b name) as [[|o]|].
Qed.

Lemma remove_keeps_unselected_part_witness :
  wf (FObj [("a", FObj [("b", FTrue); ("c", FTrue)]); ("d", FTrue)]) = true /\
  obj_get (remove [("a", FObj [("b", FTrue); ("c", FTrue)]); ("d", FTrue)]
                  [("a", FObj [("b", FTrue)])]) "a"
    = Some (FObj [("c", FTrue)]).
Proof.
  split; [reflexivity|].
  exact (proj1 remove_keeps_unselected_part
           [("a", FObj [("b", FTrue); ("c", FTrue)]); ("d", FTrue)]
           [("a", FObj [("b", FTrue)])] "a" eq_refl eq_refl eq_refl eq_refl).
Defined.

(** C10.  For masks none of whose names is a name every object inherits:
    when [a] selects a name wholly (the leaf [true]) and [b] holds a nested
    object under that name, [remove(a, b)] has no entry for the name: the
    whole leaf goes, whatever the nested object selects.  (With an own key
    [__proto__] in [a], as [JSON.parse] makes one, the assignment
    [rootRemainingFields['__proto__'] = ...] sets the prototype of the
    result, through which a dropped name can be read again.) *)
Theorem remove_nested_from_leaf_drops_name (a b : FieldMask) (name : string)
    (o : list (string * fields)) :
  wf (FObj a) = true ->
  own_names (FObj a) = true -> own_names (FObj b) = true ->
  obj_get a name = Some FTrue ->
  obj_get b name = Some (FObj o) ->
  obj_get (remove a b) name = None.
Proof.
  intros Hwf _ _ Ha Hb. rewrite remove_get by exact Hwf. now rewrite Ha, Hb.
Qed.

Lemma remove_nested_from_leaf_drops_name_witness :
  obj_get (remove [("a", FTrue); ("b", FTrue)] [("a", FObj [])]) "a" = None.
Proof.
  apply (remove_nested_from_leaf_drops_name
           [("a", FTrue); ("b", FTrue)] [("a", FObj [])] "a" []); reflexivity.
Defined.

(** *** [$add]: one name at a time *)

(** What one iteration of the loop of [_merge] does for the entry
    [name: otherFields] of the second mask: throw, leave [mergedFields]
    as it is ([Returns None]), or store a value under [name]. *)
Definition merge_entry
    (rec : list (string * fields) -> fields -> outcome (list (string * fields)))
    (rootFields : list (string * fields)) (name : string) (otherFields : fields)
    : outcome (option fields) :=
  match otherFields, obj_get rootFields name with
  | FTrue, Some (FObj _) => Throws IncompatibleMask
  | FTrue, None => Returns (Some FTrue)
  | FTrue, Some FTrue => Returns None
  | FObj _, Some FTrue => Throws IncompatibleMask
  | FObj _, None =>
      match rec [] otherFields with
      | Returns m => Returns (Some (FObj m))
      | Throws e => Throws e
      end
  | FObj _, Some (FObj fs) =>
      match rec fs otherFields with
      | Returns m => Returns (Some (FObj m))
      | Throws e => Throws e
      end
  end.

Lemma merge_loop_cons rec rootFields name otherFields rest acc :
  merge_loop rec rootFields ((name, otherFields) :: rest) acc =
    match merge_entry rec rootFields name otherFields with
    | Throws e => Throws e
    | Returns None => merge_loop rec rootFields rest acc
    | Returns (Some v) => merge_loop rec rootFields rest (obj_set acc name v)
    end.
Proof.
  unfold merge_entry. cbn [merge_loop]. cbv zeta.
  destruct otherFields as [|o], (obj_get rootFields name) as [[|fs]|]; try reflexivity.
  - now destruct (rec fs (FObj o)).
  - now destruct (rec [] (FObj o)).
Qed.

Lemma merge_loop_returns rec rootFields es acc m :
  NoDup (obj_keys es) ->
  merge_loop rec rootFields es acc = Returns m ->
  forall name,
    match obj_get es name with
    | None => obj_get m name = obj_get acc name
    | Some otherFields =>
        exists r, merge_entry rec rootFields name otherFields = Returns r /\
                  obj_get m name = match r with Some v => Some v | None => obj_get acc name end
    end.
Proof.
  revert acc. induction es as [|[k vb] rest IH]; intros acc Hnd Hm name.
  - cbn in Hm. injection Hm as <-. reflexivity.
  - unfold obj_keys in Hnd. simpl in Hnd. apply NoDup_cons in Hnd as [Hk Hnd].
    rewrite merge_loop_cons in Hm.
    destruct (merge_entry rec rootFields k vb) as [r|e] eqn:Er; [|discriminate].
    cbn [obj_get]. destruct (String.eqb_spec k name) as [Heq|Hne].
    + subst name. exists r. split; [exact Er|].
      assert (Hnone : obj_get rest k = None) by now apply obj_get_None.
      destruct r as [v|].
      * specialize (IH _ Hnd Hm k). rewrite Hnone in IH. rewrite IH. apply obj_get_set_eq.
      * specialize (IH _ Hnd Hm k). now rewrite Hnone in IH.
    + destruct r as [v|].
      * specialize (IH _ Hnd Hm name).
        rewrite (obj_get_set_ne acc k name v Hne) in IH. exact IH.
      * exact (IH _ Hnd Hm name).
Qed.

Lemma merge_loop_throws rec rootFields es acc e :
  merge_loop rec rootFields es acc = Throws e ->
  exists name otherFields,
    (name, otherFields) ∈ es /\ merge_entry rec rootFields name otherFields = Throws e.
Proof.
  revert acc. induction es as [|[k vb] rest IH]; intros acc Hm; [discriminate|].
  rewrite merge_loop_cons in Hm.
  destruct (merge_entry rec rootFields k vb) as [r|e'] eqn:Er.
  - assert (exists acc', merge_loop rec rootFields rest acc' = Throws e) as [acc' H']
      by (destruct r; eauto).
    destruct (IH _ H') as (n & v & Hin & Hv).
    exists n, v. split; [|exact Hv]. apply elem_of_cons. now right.
  - injection Hm as ->. exists k, vb. split; [|exact Er]. apply elem_of_cons. now left.
Qed.

Lemma merge_loop_entry_throws rec rootFields es acc name otherFields e :
  (name, otherFields) ∈ es ->
  merge_entry rec rootFields name otherFields = Throws e ->
  exists e', merge_loop rec rootFields es acc = Throws e'.
Proof.
  revert acc. induction es as [|[k vb] rest IH]; intros acc Hin He.
  - now apply elem_of_nil in Hin.
  - rewrite merge_loop_cons. apply elem_of_cons in Hin as [Heq|Hin].
    + injection Heq as <- <-. rewrite He. eauto.
    + destruct (merge_entry rec rootFields k vb) as [[v|]|e0]; eauto.
Qed.

(** *** [$includes]: one name at a time *)

Lemma includes_loop_true rec rootFields es :
  includes_loop rec rootFields es = true <->
  forall name otherFields, (name, otherFields) ∈ es ->
    match obj_get rootFields name with
    | None => False
    | Some FTrue => True
    | Some (FObj fs) => rec fs otherFields = true
    end.
Proof.
  induction es as [|[k vb] rest IH].
  - split; [|reflexivity]. intros _ n v Hin. now apply elem_of_nil in Hin.
  - cbn [includes_loop]. split.
    + intros H n v Hin. apply elem_of_cons in Hin as [Heq|Hin].
      * injection Heq as -> ->.
        destruct (obj_get rootFields k) as [[|fs]|]; [done| |discriminate].
        now destruct (rec fs vb).
      * destruct (obj_get rootFields k) as [[|fs]|]; [| |discriminate].
        -- now apply IH.
        -- destruct (rec fs vb); [|discriminate]. now apply IH.
    + intros H.
      assert (Hrest : includes_loop rec rootFields rest = true).
      { apply IH. intros n v Hin. apply H. apply elem_of_cons. now right. }
      specialize (H k vb (list_elem_of_here _ _)).
      destruct (obj_get rootFields k) as [[|fs]|]; [done| |done].
      now rewrite H.
Qed.

(** *** Conflicts along paths *)

Lemma conflict_between_objects a es q :
  conflict_between (FObj a) (FObj es) q <->
  exists n q' va vb,
    q = n :: q' /\ obj_get a n = Some va /\ obj_get es n = Some vb /\
    conflict_between va vb q'.
Proof.
  unfold conflict_between, is_nested. split.
  - intros (xa & xb & Ha & Hb & Hc). destruct q as [|n q'].
    + cbn in Ha, Hb. injection Ha as <-. injection Hb as <-.
      destruct Hc as [[? _]|[_ ?]]; discriminate.
    + cbn in Ha, Hb.
      destruct (obj_get a n) as [va|] eqn:Ea; [|discriminate].
      destruct (obj_get es n) as [vb|] eqn:Eb; [|discriminate].
      exists n, q', va, vb. repeat split; eauto 6.
  - intros (n & q' & va & vb & -> & Ha & Hb & xa & xb & Hxa & Hxb & Hc).
    exists xa, xb. cbn. rewrite Ha, Hb. tauto.
Qed.

Lemma conflict_between_leaf_l vb q :
  conflict_between FTrue vb q <-> q = [] /\ is_nested vb.
Proof.
  unfold conflict_between, is_nested. split.
  - intros (xa & xb & Ha & Hb & Hc). destruct q; [|discriminate].
    cbn in Ha, Hb. injection Ha as <-. injection Hb as <-.
    destruct Hc as [[_ ?]|[[? ?] _]]; [tauto | discriminate].
  - intros [-> Hn]. exists FTrue, vb. cbn. tauto.
Qed.

Lemma conflict_between_leaf_r va q :
  conflict_between va FTrue q <-> q = [] /\ is_nested va.
Proof.
  unfold conflict_between, is_nested. split.
  - intros (xa & xb & Ha & Hb & Hc). destruct q; [|discriminate].
    cbn in Ha, Hb. injection Ha as <-. injection Hb as <-.
    destruct Hc as [[_ [? ?]]|[? _]]; [discriminate | tauto].
  - intros [-> Hn]. exists va, FTrue. cbn. tauto.
Qed.

(** [_merge] throws, and then 'Cannot merge two incompatible fieldMasks',
    exactly when the two objects conflict along some path. *)
Definition merge_throws_on_conflict (vb : fields) : Prop :=
  match vb with
  | FTrue => True
  | FObj _ =>
      wf vb = true -> forall a,
        (forall e, _merge a vb = Throws e -> e = IncompatibleMask) /\
        ((exists e, _merge a vb = Throws e) <->
         exists q, conflict_between (FObj a) vb q)
  end.

Lemma merge_entry_throws a n vb e :
  merge_throws_on_conflict vb -> wf vb = true ->
  merge_entry _merge a n vb = Throws e ->
  e = IncompatibleMask /\
  exists va q, obj_get a n = Some va /\ conflict_between va vb q.
Proof.
  intros IH Hwf. unfold merge_entry.
  destruct vb as [|o], (obj_get a n) as [[|fs]|] eqn:Ea; try discriminate.
  - intros [= <-]. split; [reflexivity|]. exists (FObj fs), [].
    split; [reflexivity|]. apply conflict_between_leaf_r. unfold is_nested. eauto.
  - intros [= <-]. split; [reflexivity|]. exists FTrue, [].
    split; [reflexivity|]. apply conflict_between_leaf_l. unfold is_nested. eauto.
  - destruct (_merge fs (FObj o)) as [m|e'] eqn:Em; [discriminate|].
    intros [= <-]. destruct (IH Hwf fs) as [Hinc Hiff]. split; [now apply Hinc|].
    destruct (proj1 Hiff (ex_intro _ _ Em)) as [q Hq]. eauto.
  - destruct (_merge [] (FObj o)) as [m|e'] eqn:Em; [discriminate|].
    intros [= <-]. destruct (IH Hwf []) as [_ Hiff]. exfalso.
    destruct (proj1 Hiff (ex_intro _ _ Em)) as [q Hq].
    apply conflict_between_objects in Hq as (? & ? & ? & ? & _ & Hnil & _). discriminate.
Qed.

Lemma merge_entry_conflict a n va vb q :
  merge_throws_on_conflict vb -> wf vb = true ->
  obj_get a n = Some va -> conflict_between va vb q ->
  exists e, merge_entry _merge a n vb = Throws e.
Proof.
  intros IH Hwf Ha Hc. unfold merge_entry. rewrite Ha.
  destruct va as [|fs], vb as [|o].
  - apply conflict_between_leaf_l in Hc as [_ [? ?]]. discriminate.
  - eauto.
  - eauto.
  - destruct (IH Hwf fs) as [_ Hiff].
    destruct (proj2 Hiff (ex_intro _ _ Hc)) as [e He]. rewrite He. eauto.
Qed.

Lemma merge_throws_on_conflict_all vb : merge_throws_on_conflict vb.
Proof.
  induction vb as [|es IH] using fields_ind'; [exact I|].
  intros Hwf a. pose proof Hwf as [Hnd Hall]%wf_FObj.
  rewrite Forall_forall in IH, Hall. cbn [_merge]. split; [|split].
  - intros e He. apply merge_loop_throws in He as (n & vb & Hin & He).
    now apply (merge_entry_throws a n vb e (IH _ Hin) (Hall _ Hin)).
  - intros [e He]. apply merge_loop_throws in He as (n & vb & Hin & He).
    apply (merge_entry_throws a n vb e (IH _ Hin) (Hall _ Hin)) in He
      as (_ & va & q & Ha & Hc).
    exists (n :: q). apply conflict_between_objects.
    exists n, q, va, vb. repeat split; [exact Ha| |exact Hc].
    now apply obj_get_NoDup.
  - intros [q Hq]. apply conflict_between_objects in Hq
      as (n & q' & va & vb & -> & Ha & Hb & Hc).
    apply obj_get_elem_of in Hb.
    destruct (merge_entry_conflict a n va vb q' (IH _ Hb) (Hall _ Hb) Ha Hc) as [e He].
    exact (merge_loop_entry_throws _ _ _ _ _ _ _ Hb He).
Qed.

Lemma add_throws_iff_conflict (a b : FieldMask) :
  wf (FObj b) = true ->
  add a b = Throws IncompatibleMask <-> exists path, conflict_at a b path.
Proof.
  intros Hwf. destruct (merge_throws_on_conflict_all (FObj b) Hwf a) as [Hinc Hiff].
  unfold add, conflict_at. rewrite <- Hiff. split; [eauto|].
  intros [e He]. now rewrite (Hinc e He) in He.
Qed.

Lemma add_returns_without_conflict (a b : FieldMask) :
  wf (FObj b) = true ->
  (forall path, ~ conflict_at a b path) ->
  exists m, add a b = Returns m.
Proof.
  intros Hwf Hno. destruct (add a b) as [m|e] eqn:E; [eauto|]. exfalso.
  destruct (merge_throws_on_conflict_all (FObj b) Hwf a) as [Hinc Hiff].
  destruct (proj1 Hiff (ex_intro _ _ E)) as [q Hq]. exact (Hno q Hq).
Qed.

(** The nested object an entry holds; the empty object the code puts in
    its place when the name has no entry. *)
Definition nested_or_empty (entry : option fields) : list (string * fields) :=
  match entry with Some (FObj fs) => fs | _ => [] end.

Lemma add_returns_get (a b m : FieldMask) name :
  wf (FObj b) = true ->
  add a b = Returns m ->
  match obj_get b name with
  | None => obj_get m name = obj_get a name
  | Some FTrue => obj_get m name = Some FTrue
  | Some (FObj o) =>
      exists r, add (nested_or_empty (obj_get a name)) o = Returns r /\
                obj_get m name = Some (FObj r)
  end.
Proof.
  intros [Hnd _]%wf_FObj Hm. unfold add in Hm. cbn [_merge] in Hm.
  pose proof (merge_loop_returns _ _ _ _ _ Hnd Hm name) as H.
  destruct (obj_get b name) as [vb|]; [|exact H].
  destruct H as (r & Hr & Hget). unfold merge_entry in Hr. unfold add.
  destruct vb as [|o], (obj_get a name) as [[|fs]|] eqn:Ea; try discriminate.
  - injection Hr as <-. now rewrite Hget.
  - injection Hr as <-. exact Hget.
  - cbn [nested_or_empty]. destruct (_merge fs (FObj o)) as [r'|]; [|discriminate].
    injection Hr as <-. eauto.
  - cbn [nested_or_empty]. destruct (_merge [] (FObj o)) as [r'|]; [|discriminate].
    injection Hr as <-. eauto.
Qed.

(** *** [add] and [includes] *)

Definition includes_itself (v : fields) : Prop :=
  match v with
  | FTrue => True
  | FObj fs => wf v = true -> _includes fs v = true
  end.

Lemma includes_itself_all v : includes_itself v.
Proof.
  induction v as [|es IH] using fields_ind'; [exact I|].
  intros Hwf. pose proof Hwf as [Hnd Hall]%wf_FObj.
  rewrite Forall_forall in IH, Hall. cbn [_includes].
  apply includes_loop_true. intros n v Hin.
  rewrite (obj_get_NoDup es n v Hnd Hin).
  destruct v as [|fs]; [exact I|]. exact (IH _ Hin (Hall _ Hin)).
Qed.

Definition merge_includes_both (vb : fields) : Prop :=
  match vb with
  | FTrue => True
  | FObj _ =>
      wf vb = true -> forall a m,
        wf (FObj a) = true -> _merge a vb = Returns m ->
        _includes m (FObj a) = true /\ _includes m vb = true
  end.

Lemma merge_includes_both_all vb : merge_includes_both vb.
Proof.
  induction vb as [|es IH] using fields_ind'; [exact I|].
  intros Hwf a m Hwfa Hm. pose proof Hwf as [Hnd Hall]%wf_FObj.
  pose proof Hwfa as [Hnda Halla]%wf_FObj.
  rewrite Forall_forall in IH, Hall, Halla. cbn [_merge] in Hm.
  pose proof (merge_loop_returns _ _ _ _ _ Hnd Hm) as Hget.
  cbn [_includes]. split; apply includes_loop_true; intros n v Hin.
  - pose proof (obj_get_NoDup a n v Hnda Hin) as Ha. specialize (Hget n).
    destruct (obj_get es n) as [vb|] eqn:Eb.
    + destruct Hget as (r & Hr & Hmn). unfold merge_entry in Hr. rewrite Ha in Hr.
      apply obj_get_elem_of in Eb.
      destruct vb as [|o], v as [|fs]; try discriminate.
      * injection Hr as <-. now rewrite Hmn, Ha.
      * destruct (_merge fs (FObj o)) as [r'|] eqn:Er; [|discriminate].
        injection Hr as <-. rewrite Hmn.
        exact (proj1 (IH _ Eb (Hall _ Eb) fs r' (Halla _ Hin) Er)).
    + rewrite Hget, Ha. destruct v as [|fs]; [exact I|].
      exact (includes_itself_all (FObj fs) (Halla _ Hin)).
  - pose proof (obj_get_NoDup es n v Hnd Hin) as Hb. specialize (Hget n).
    rewrite Hb in Hget. destruct Hget as (r & Hr & Hmn). unfold merge_entry in Hr.
    destruct v as [|o], (obj_get a n) as [[|fs]|] eqn:Ea; try discriminate.
    + injection Hr as <-. now rewrite Hmn.
    + injection Hr as <-. now rewrite Hmn.
    + destruct (_merge fs (FObj o)) as [r'|] eqn:Er; [|discriminate].
      injection Hr as <-. rewrite Hmn.
      apply obj_get_elem_of in Ea.
      exact (proj2 (IH _ Hin (Hall _ Hin) fs r' (Halla _ Ea) Er)).
    + destruct (_merge [] (FObj o)) as [r'|] eqn:Er; [|discriminate].
      injection Hr as <-. rewrite Hmn.
      exact (proj2 (IH _ Hin (Hall _ Hin) [] r' eq_refl Er)).
Qed.

(** C6.  For masks [a] and [b] none of whose names is a name every object
    inherits, and that conflict on no path, [add(a, b)] returns a mask that
    includes [a] and includes [b].  (At an inherited name the program
    merges into what [Object.prototype] holds under the name:
    [$add({}, {toString: {name: true}})] is [{toString: {}}], which does
    not include the second mask.) *)
Theorem add_includes_both (a b : FieldMask) :
  wf (FObj a) = true -> wf (FObj b) = true ->
  own_names (FObj a) = true -> own_names (FObj b) = true ->
  (forall path, ~ conflict_at a b path) ->
  exists m, add a b = Returns m /\ includes m a = true /\ includes m b = true.
Proof.
  intros Hwfa Hwfb _ _ Hno.
  destruct (add_returns_without_conflict a b Hwfb Hno) as [m Hm].
  exists m. split; [exact Hm|].
  exact (merge_includes_both_all (FObj b) Hwfb a m Hwfa Hm).
Qed.

Lemma add_includes_both_witness :
  exists m,
    add [("a", FTrue); ("b", FObj [("c", FTrue)])]
        [("b", FObj [("d", FTrue)]); ("e", FTrue)] = Returns m /\
    includes m [("a", FTrue); ("b", FObj [("c", FTrue)])] = true /\
    includes m [("b", FObj [("d", FTrue)]); ("e", FTrue)] = true.
Proof.
  apply add_includes_both; [reflexivity | reflexivity | reflexivity | reflexivity |].
  intros path Hc.
  assert (H : add [("a", FTrue); ("b", FObj [("c", FTrue)])]
                  [("b", FObj [("d", FTrue)]); ("e", FTrue)]
              = Throws IncompatibleMask)
    by (apply add_throws_iff_conflict; [reflexivity | eauto]).
  discriminate H.
Defined.

(** *** [$includes] as an order *)

(** X1. A mask includes itself. *)
Theorem includes_is_reflexive (a : FieldMask) :
  wf (FObj a) = true -> includes a a = true.
Proof. exact (includes_itself_all (FObj a)). Qed.

Lemma includes_is_reflexive_witness :
  includes [("a", FTrue); ("b", FObj [("c", FTrue)])]
           [("a", FTrue); ("b", FObj [("c", FTrue)])] = true.
Proof.
  exact (includes_is_reflexive [("a", FTrue); ("b", FObj [("c", FTrue)])] eq_refl).
Defined.

Definition includes_transitive_at (vc : fields) : Prop :=
  forall fa fb,
    _includes fa (FObj fb) = true -> _includes fb vc = true ->
    (forall q, ~ conflict_between (FObj fa) (FObj fb) q) ->
    _includes fa vc = true.

Lemma includes_transitive_all vc : includes_transitive_at vc.
Proof.
  induction vc as [|ec IH] using fields_ind'; [intros fa fb _ _ _; reflexivity|].
  intros fa fb Hab Hbc Hno. rewrite Forall_forall in IH.
  cbn [_includes] in Hab, Hbc |- *.
  apply includes_loop_true. intros n vc Hin.
  pose proof (proj1 (includes_loop_true _ _ _) Hbc n vc Hin) as Hb.
  destruct (obj_get fb n) as [vb|] eqn:Eb; [|contradiction].
  pose proof (proj1 (includes_loop_true _ _ _) Hab n vb (obj_get_elem_of _ _ _ Eb)) as Ha.
  destruct (obj_get fa n) as [[|fa']|] eqn:Ea; [exact I| |contradiction].
  destruct vb as [|fb'].
  - exfalso. apply (Hno [n]). apply conflict_between_objects.
    exists n, [], (FObj fa'), FTrue. repeat split; [exact Ea | exact Eb |].
    apply conflict_between_leaf_r. split; [reflexivity|]. now exists fa'.
  - apply (IH (n, vc) Hin fa' fb' Ha Hb). intros q Hq. apply (Hno (n :: q)).
    apply conflict_between_objects. exists n, q, (FObj fa'), (FObj fb'). auto.
Qed.

(** X2. [$includes] composes along masks that do not conflict and none of
    whose names is a name every object inherits: when [a] includes [b], [b]
    includes [c], and no path is nested in [a] and a leaf in [b] (or the
    other way round), [a] includes [c].  Without the condition on the paths
    it does not: [{x: {y: true}}] includes [{x: true}], which includes
    [{x: {z: true}}], which [{x: {y: true}}] does not include. *)
Theorem includes_is_transitive_without_conflict :
  (forall a b c : FieldMask,
      own_names (FObj a) = true -> own_names (FObj b) = true ->
      own_names (FObj c) = true ->
      includes a b = true -> includes b c = true ->
      (forall path, ~ conflict_at a b path) ->
      includes a c = true) /\
  (includes [("x", FObj [("y", FTrue)])] [("x", FTrue)] = true /\
   includes [("x", FTrue)] [("x", FObj [("z", FTrue)])] = true /\
   includes [("x", FObj [("y", FTrue)])] [("x", FObj [("z", FTrue)])] = false).
Proof.
  split; [|repeat split].
  intros a b c _ _ _ Hab Hbc Hno.
  exact (includes_transitive_all (FObj c) a b Hab Hbc Hno).
Qed.

Lemma no_conflict_with_itself v q : ~ conflict_between v v q.
Proof.
  intros (xa & xb & Ha & Hb & Hc). rewrite Ha in Hb. injection Hb as <-.
  destruct Hc as [[-> [? ?]]|[[? ->] ?]]; discriminate.
Qed.

Lemma includes_is_transitive_without_conflict_witness :
  includes [("x", FObj [("y", FTrue); ("z", FTrue)])] [("x", FObj [("y", FTrue)])] = true.
Proof.
  apply (proj1 includes_is_transitive_without_conflict
           [("x", FObj [("y", FTrue); ("z", FTrue)])]
           [("x", FObj [("y", FTrue); ("z", FTrue)])]
           [("x", FObj [("y", FTrue)])]);
    [reflexivity | reflexivity | reflexivity | reflexivity | reflexivity |].
  intros path. apply no_conflict_with_itself.
Defined.

(** *** [$add]: what it leaves as it is *)

Lemma obj_set_same {A} (o : list (string * A)) k v :
  obj_get o k = Some v -> obj_set o k v = o.
Proof.
  induction o as [|[k' v'] o IH]; cbn; [discriminate|].
  destruct (String.eqb_spec k' k) as [->|Hne].
  - now intros [= ->].
  - intros H. now rewrite IH.
Qed.

Lemma obj_set_new {A} (o : list (string * A)) k v :
  k ∉ obj_keys o -> obj_set o k v = (o ++ [(k, v)])%list.
Proof.
  unfold obj_keys. induction o as [|[k' v'] o IH]; cbn; [reflexivity|].
  intros Hk. apply not_elem_of_cons in Hk as [Hne Hk].
  destruct (String.eqb_spec k' k) as [->|_]; [contradiction|]. now rewrite IH.
Qed.

Definition merge_of_included (vb : fields) : Prop :=
  match vb with
  | FTrue => True
  | FObj _ =>
      wf vb = true -> forall a,
        _includes a vb = true ->
        (forall q, ~ conflict_between (FObj a) vb q) ->
        _merge a vb = Returns a
  end.

Lemma merge_of_included_all vb : merge_of_included vb.
Proof.
  induction vb as [|eb IH] using fields_ind'; [exact I|].
  intros Hwf a Hinc Hno. pose proof Hwf as [Hnd Hall]%wf_FObj.
  rewrite Forall_forall in IH, Hall. cbn [_includes] in Hinc. cbn [_merge].
  pose proof (proj1 (includes_loop_true _ _ _) Hinc) as Hget. clear Hinc.
  assert (Hloop : forall es, (forall e, e ∈ es -> e ∈ eb) ->
            merge_loop _merge a es a = Returns a).
  { induction es as [|[n vb] es IHes]; intros Hsub; [reflexivity|].
    assert (Hin : (n, vb) ∈ eb) by (apply Hsub, list_elem_of_here).
    assert (Hrest : merge_loop _merge a es a = Returns a).
    { apply IHes. intros e He. apply Hsub. now apply list_elem_of_further. }
    rewrite merge_loop_cons. unfold merge_entry.
    specialize (Hget n vb Hin).
    destruct (obj_get a n) as [va|] eqn:Ea; [|contradiction].
    assert (Hc : forall q, ~ conflict_between va vb q).
    { intros q Hq. apply (Hno (n :: q)). apply conflict_between_objects.
      exists n, q, va, vb. repeat split; [exact Ea | now apply obj_get_NoDup | exact Hq]. }
    destruct vb as [|ob], va as [|fa].
    - exact Hrest.
    - exfalso. apply (Hc []). apply conflict_between_leaf_r. split; [reflexivity|].
      now exists fa.
    - exfalso. apply (Hc []). apply conflict_between_leaf_l. split; [reflexivity|].
      now exists ob.
    - rewrite (IH _ Hin (Hall _ Hin) fa Hget Hc : _merge fa (FObj ob) = Returns fa).
      now rewrite (obj_set_same a n (FObj fa) Ea). }
  apply Hloop. auto.
Qed.

(** X3. For masks none of whose names is a name every object inherits:
    adding a mask that the first mask includes, and that does not conflict
    with it, returns the first mask as it is. *)
Theorem add_of_included_mask_changes_nothing (a b : FieldMask) :
  wf (FObj b) = true ->
  own_names (FObj a) = true -> own_names (FObj b) = true ->
  includes a b = true ->
  (forall path, ~ conflict_at a b path) ->
  add a b = Returns a.
Proof. intros Hwf _ _. exact (merge_of_included_all (FObj b) Hwf a). Qed.

Lemma add_of_included_mask_changes_nothing_witness :
  add [("a", FTrue); ("b", FObj [("c", FTrue); ("d", FTrue)])] [("b", FObj [("d", FTrue)])]
  = Returns [("a", FTrue); ("b", FObj [("c", FTrue); ("d", FTrue)])].
Proof.
  apply add_of_included_mask_changes_nothing;
    [reflexivity | reflexivity | reflexivity | reflexivity |].
  intros path Hc.
  assert (H : add [("a", FTrue); ("b", FObj [("c", FTrue); ("d", FTrue)])]
                  [("b", FObj [("d", FTrue)])] = Throws IncompatibleMask)
    by (apply add_throws_iff_conflict; [reflexivity | eauto]).
  discriminate H.
Defined.

Definition merge_into_empty (vb : fields) : Prop :=
  match vb with
  | FTrue => True
  | FObj es => wf vb = true -> _merge [] vb = Returns es
  end.

Lemma merge_into_empty_all vb : merge_into_empty vb.
Proof.
  induction vb as [|eb IH] using fields_ind'; [exact I|].
  intros Hwf. pose proof Hwf as [Hnd Hall]%wf_FObj.
  rewrite Forall_forall in IH, Hall. cbn [_merge].
  assert (Hloop : forall es acc,
            (forall e, e ∈ es -> e ∈ eb) -> NoDup (obj_keys (acc ++ es)) ->
            merge_loop _merge [] es acc = Returns (acc ++ es)%list).
  { induction es as [|[n vb] es IHes]; intros acc Hsub Hnd'.
    - now rewrite app_nil_r.
    - assert (Hin : (n, vb) ∈ eb) by (apply Hsub, list_elem_of_here).
      assert (Hn : n ∉ obj_keys acc).
      { unfold obj_keys in *. rewrite fmap_app in Hnd'. cbn in Hnd'.
        apply NoDup_app in Hnd' as (_ & Hd & _). intros Hk.
        apply (Hd n Hk). apply list_elem_of_here. }
      assert (Hrest : forall v, merge_loop _merge [] es (obj_set acc n v)
                                = Returns (acc ++ (n, v) :: es)%list).
      { intros v. rewrite (obj_set_new acc n v Hn). rewrite IHes.
        - now rewrite <- app_assoc.
        - intros e He. apply Hsub. now apply list_elem_of_further.
        - unfold obj_keys in *. rewrite <- app_assoc. cbn.
          rewrite !fmap_app in *. exact Hnd'. }
      rewrite merge_loop_cons. unfold merge_entry. cbn [obj_get].
      destruct vb as [|ob]; [apply Hrest|].
      rewrite (IH _ Hin (Hall _ Hin) : _merge [] (FObj ob) = Returns ob). apply Hrest. }
  apply (Hloop eb []); auto.
Qed.

(** X4. For a mask none of whose names is a name every object inherits: the
    empty mask is neutral for [$add] on both sides, and adding the mask to
    itself returns it. *)
Theorem add_neutral_and_idempotent (a : FieldMask) :
  wf (FObj a) = true ->
  own_names (FObj a) = true ->
  add a [] = Returns a /\ add [] a = Returns a /\ add a a = Returns a.
Proof.
  intros Hwf _. split; [reflexivity|]. split.
  - exact (merge_into_empty_all (FObj a) Hwf).
  - apply (merge_of_included_all (FObj a) Hwf a).
    + exact (includes_itself_all (FObj a) Hwf).
    + intros q. apply no_conflict_with_itself.
Qed.

Lemma add_neutral_and_idempotent_witness :
  add [] [("a", FTrue); ("b", FObj [("c", FTrue)])]
  = Returns [("a", FTrue); ("b", FObj [("c", FTrue)])].
Proof.
  exact (proj1 (proj2 (add_neutral_and_idempotent
                         [("a", FTrue); ("b", FObj [("c", FTrue)])] eq_refl eq_refl))).
Defined.

(** *** [$remove]: what it leaves *)

Lemma obj_set_nonempty {A} (o : list (string * A)) k v : obj_set o k v <> [].
Proof. destruct o as [|[k' v'] o]; cbn; [discriminate|]. now destruct (String.eqb k' k). Qed.

Lemma remove_loop_nonempty rec b es acc :
  acc <> [] -> remove_loop rec b es acc <> [].
Proof.
  revert acc. induction es as [|[n f] es IH]; intros acc Hacc; [exact Hacc|].
  cbn [remove_loop]. destruct (obj_get b n) as [[|o]|].
  - now apply IH.
  - destruct (negb (isEmpty (rec f o))); [apply IH, obj_set_nonempty | now apply IH].
  - apply IH, obj_set_nonempty.
Qed.

Definition remove_empty_iff (v : fields) : Prop :=
  forall b, _remove v b = [] <-> _includes b v = true.

Lemma remove_empty_iff_all v : remove_empty_iff v.
Proof.
  induction v as [|es IH] using fields_ind'; [intros b; now split|].
  intros b. rewrite Forall_forall in IH. cbn [_remove _includes].
  assert (Hloop : forall es', (forall e, e ∈ es' -> e ∈ es) ->
            remove_loop _remove b es' [] = [] <-> includes_loop _includes b es' = true).
  { induction es' as [|[n f] es' IHes]; intros Hsub; [now split|].
    assert (Hin : (n, f) ∈ es) by (apply Hsub, list_elem_of_here).
    assert (Hrest : remove_loop _remove b es' [] = [] <->
                    includes_loop _includes b es' = true).
    { apply IHes. intros e He. apply Hsub. now apply list_elem_of_further. }
    assert (Hkept : forall v,
              remove_loop _remove b es' (obj_set [] n v) = [] <-> false = true).
    { intros v. split; [|discriminate]. intros H. exfalso.
      exact (remove_loop_nonempty _ _ _ _ (obj_set_nonempty [] n v) H). }
    cbn [remove_loop includes_loop]. destruct (obj_get b n) as [[|o]|].
    - exact Hrest.
    - pose proof (IH _ Hin o : _remove f o = [] <-> _includes o f = true) as Hf.
      cbv zeta. destruct (_remove f o) as [|e r] eqn:Er; cbn [isEmpty negb].
      + rewrite (proj1 Hf eq_refl). exact Hrest.
      + destruct (_includes o f); [|apply Hkept].
        discriminate (proj2 Hf eq_refl).
    - apply Hkept. }
  apply Hloop. auto.
Qed.

(** X6. For masks none of whose names is a name every object inherits:
    [$remove] leaves the empty mask exactly when the mask removed includes
    the mask it is removed from. *)
Theorem remove_leaves_nothing_iff_included (a b : FieldMask) :
  own_names (FObj a) = true -> own_names (FObj b) = true ->
  remove a b = [] <-> includes b a = true.
Proof. intros _ _. exact (remove_empty_iff_all (FObj a) b). Qed.

Lemma remove_leaves_nothing_iff_included_witness :
  remove [("a", FObj [("b", FTrue)])] [("a", FTrue); ("c", FTrue)] = [] <->
  includes [("a", FTrue); ("c", FTrue)] [("a", FObj [("b", FTrue)])] = true.
Proof.
  exact (remove_leaves_nothing_iff_included
           [("a", FObj [("b", FTrue)])] [("a", FTrue); ("c", FTrue)] eq_refl eq_refl).
Defined.

Lemma remove_loop_disjoint rec b es : forall acc,
  (forall n, n ∈ obj_keys es -> obj_get b n = None) ->
  NoDup (obj_keys (acc ++ es)) ->
  remove_loop rec b es acc = (acc ++ es)%list.
Proof.
  induction es as [|[n f] es IH]; intros acc Hb Hnd.
  - now rewrite app_nil_r.
  - cbn [remove_loop]. rewrite (Hb n) by apply list_elem_of_here.
    assert (Hn : n ∉ obj_keys acc).
    { unfold obj_keys in *. rewrite fmap_app in Hnd. cbn in Hnd.
      apply NoDup_app in Hnd as (_ & Hd & _). intros Hk.
      apply (Hd n Hk). apply list_elem_of_here. }
    rewrite (obj_set_new acc n f Hn). rewrite IH.
    + now rewrite <- app_assoc.
    + intros k Hk. apply Hb. now apply list_elem_of_further.
    + unfold obj_keys in *. rewrite <- app_assoc. exact Hnd.
Qed.

(** X7. For masks none of whose names is a name every object inherits:
    removing a mask that has none of the names of the first mask (the empty
    mask, for one) returns the first mask as it is. *)
Theorem remove_of_disjoint_mask (a b : FieldMask) :
  wf (FObj a) = true ->
  own_names (FObj a) = true -> own_names (FObj b) = true ->
  (forall name, name ∈ obj_keys a -> obj_get b name = None) ->
  remove a b = a.
Proof.
  intros [Hnd _]%wf_FObj _ _ Hb. unfold remove. cbn [_remove].
  now rewrite (remove_loop_disjoint _remove b a [] Hb Hnd).
Qed.

Lemma remove_of_disjoint_mask_witness :
  remove [("a", FTrue); ("b", FObj [("c", FTrue)])] [("c", FTrue)]
  = [("a", FTrue); ("b", FObj [("c", FTrue)])].
Proof.
  apply remove_of_disjoint_mask; [reflexivity | reflexivity | reflexivity |].
  intros name Hn. cbn in Hn. apply elem_of_cons in Hn as [->|Hn]; [reflexivity|].
  apply list_elem_of_singleton in Hn as ->. reflexivity.
Defined.

Lemma remove_loop_NoDup rec b es : forall acc,
  NoDup (obj_keys acc) -> NoDup (obj_keys (remove_loop rec b es acc)).
Proof.
  induction es as [|[n f] es IH]; intros acc Hnd; [exact Hnd|].
  cbn [remove_loop]. destruct (obj_get b n) as [[|o]|].
  - now apply IH.
  - destruct (negb (isEmpty (rec f o))); [apply IH, obj_set_NoDup, Hnd | now apply IH].
  - apply IH, obj_set_NoDup, Hnd.
Qed.

Definition remove_included (v : fields) : Prop :=
  match v with
  | FTrue => True
  | FObj es => wf v = true -> forall b, _includes es (FObj (_remove v b)) = true
  end.

Lemma remove_included_all v : remove_included v.
Proof.
  induction v as [|es IH] using fields_ind'; [exact I|].
  intros Hwf b. pose proof Hwf as [Hnd Hall]%wf_FObj.
  rewrite Forall_forall in IH, Hall. cbn [_includes].
  apply includes_loop_true. intros n r Hin.
  assert (Hr : obj_get (remove es b) n = Some r).
  { apply obj_get_NoDup; [|exact Hin]. apply remove_loop_NoDup. constructor. }
  rewrite (remove_get es b n Hwf) in Hr.
  destruct (obj_get es n) as [f|] eqn:Ea; [|discriminate].
  apply obj_get_elem_of in Ea. unfold remaining_entry in Hr.
  destruct (obj_get b n) as [[|o]|].
  - discriminate.
  - cbv zeta in Hr. destruct (isEmpty (_remove f o)) eqn:Ee; [discriminate|].
    injection Hr as <-. destruct f as [|fs]; [discriminate|].
    exact (IH _ Ea (Hall _ Ea) o).
  - injection Hr as <-. destruct f as [|fs]; [exact I|].
    exact (includes_itself_all (FObj fs) (Hall _ Ea)).
Qed.

(** X8. For masks none of whose names is a name every object inherits: what
    [$remove] leaves of a mask is included in the mask. *)
Theorem remove_result_is_included (a b : FieldMask) :
  wf (FObj a) = true ->
  own_names (FObj a) = true -> own_names (FObj b) = true ->
  includes a (remove a b) = true.
Proof. intros Hwf _ _. exact (remove_included_all (FObj a) Hwf b). Qed.

Lemma remove_result_is_included_witness :
  includes [("a", FObj [("b", FTrue); ("c", FTrue)]); ("d", FTrue)]
           (remove [("a", FObj [("b", FTrue); ("c", FTrue)]); ("d", FTrue)]
                   [("a", FObj [("b", FTrue)])]) = true.
Proof.
  exact (remove_result_is_included
           [("a", FObj [("b", FTrue); ("c", FTrue)]); ("d", FTrue)]
           [("a", FObj [("b", FTrue)])] eq_refl eq_refl eq_refl).
Defined.

(** *** [$get], [$has] and [$set]

    [$set] writes to [this._fields]: here it returns the [_fields] the mask
    has after the call.  The [name] argument is a string. *)

(** what [$get] returns: [false], [true], or a mask of the nested object *)
Inductive selection : Type :=
| NotSelected
| WhollySelected
| PartlySelected (subfields : FieldMask).

Definition get (this : FieldMask) (name : string) : outcome selection :=
  if String.eqb name "" then Throws InvalidArgument
  else
    match obj_get this name with
    | None => Returns NotSelected
    | Some FTrue => Returns WhollySelected
    | Some (FObj subfields) => Returns (PartlySelected subfields)
    end.

Definition has (this : FieldMask) (name : string) : outcome bool :=
  if String.eqb name "" then Throws InvalidArgument
  else Returns (match obj_get this name with Some _ => true | None => false end).

(** the second argument of [$set]: [true], a mask, or anything else *)
Inductive subfields_argument : Type :=
| ArgTrue
| ArgMask (subfields : FieldMask)
| ArgOther.

Definition set (this : FieldMask) (name : string) (subfields : subfields_argument)
    : outcome FieldMask :=
  if String.eqb name "" then Throws InvalidArgument
  else
    match subfields with
    | ArgTrue => Returns (obj_set this name FTrue)
    | ArgMask m => Returns (obj_set this name (FObj m))
    | ArgOther => Throws InvalidArgument
    end.

(** X9. For a [name] that is not a name every object inherits: after
    [$set(name, subfields)] has returned, [$get(name)] returns what was set
    ([true], or a mask equal to the one given), [$has(name)] is true, the
    mask is not empty, and [$get] and [$has] of every other such name are
    what they were.  ([$set('__proto__', true)] stores nothing.) *)
Theorem set_then_get (this : FieldMask) (name : string) (subfields : subfields_argument)
    (after : FieldMask) :
  own_name name = true ->
  set this name subfields = Returns after ->
  get after name =
    Returns (match subfields with ArgMask m => PartlySelected m | _ => WhollySelected end) /\
  has after name = Returns true /\
  isEmpty after = false /\
  forall other, other <> name -> own_name other = true ->
    get after other = get this other /\ has after other = has this other.
Proof.
  intros _. unfold set, get, has. destruct (String.eqb name "") eqn:En; [discriminate|].
  intros H.
  assert (Hafter : exists v, after = obj_set this name v /\
            match subfields with ArgMask m => v = FObj m | _ => v = FTrue end).
  { destruct subfields; [injection H as <-; eauto..|discriminate]. }
  destruct Hafter as (v & -> & Hv). rewrite obj_get_set_eq.
  split; [|split; [reflexivity|split]].
  - destruct subfields; now subst v.
  - destruct (obj_set this name v) eqn:E; [|reflexivity].
    now apply obj_set_nonempty in E.
  - intros other Hne _.
    rewrite (obj_get_set_ne this name other v) by congruence. now split.
Qed.

Lemma set_then_get_witness :
  get (obj_set [("a", FTrue)] "b" (FObj [("c", FTrue)])) "b"
  = Returns (PartlySelected [("c", FTrue)]).
Proof.
  exact (proj1 (set_then_get [("a", FTrue)] "b" (ArgMask [("c", FTrue)])
                  (obj_set [("a", FTrue)] "b" (FObj [("c", FTrue)])) eq_refl eq_refl)).
Defined.

(** *** [$add] in the two orders *)

Lemma conflict_between_sym va vb q : conflict_between va vb q -> conflict_between vb va q.
Proof.
  intros (xa & xb & Ha & Hb & Hc). exists xb, xa. repeat split; [exact Hb | exact Ha |].
  destruct Hc as [[? ?]|[? ?]]; [right | left]; now split.
Qed.

(** X5. For masks none of whose names is a name every object inherits:
    whether two masks can be added does not depend on the order: [add(a, b)]
    throws 'Cannot merge two incompatible fieldMasks' exactly when
    [add(b, a)] does. *)
Theorem add_throws_in_both_orders (a b : FieldMask) :
  wf (FObj a) = true -> wf (FObj b) = true ->
  own_names (FObj a) = true -> own_names (FObj b) = true ->
  add a b = Throws IncompatibleMask <-> add b a = Throws IncompatibleMask.
Proof.
  intros Hwfa Hwfb _ _.
  rewrite (add_throws_iff_conflict a b Hwfb), (add_throws_iff_conflict b a Hwfa).
  split; intros [path Hc]; exists path; now apply conflict_between_sym.
Qed.

Lemma add_throws_in_both_orders_witness :
  add [("a", FTrue)] [("a", FObj [("b", FTrue)])] = Throws IncompatibleMask <->
  add [("a", FObj [("b", FTrue)])] [("a", FTrue)] = Throws IncompatibleMask.
Proof.
  exact (add_throws_in_both_orders [("a", FTrue)] [("a", FObj [("b", FTrue)])]
           eq_refl eq_refl eq_refl eq_refl).
Defined.

End FieldMask.

(** ** model.js *)

Module Model.

(** *** Values

    Instances of [Model] live in a heap and are referred to by location;
    plain objects and arrays are never written to by the modelled code and
    are values.  Numbers are integers.  A plain object is data, with the
    prototype [Object.prototype], and [v?.isOfType && v.isOfType('Model')]
    holds of references to instances and of nothing else; where the
    program would apply the test to a plain object with a truthy member
    [isOfType] (a TypeError: the member is not a function), the theorems
    exclude the object by the hypothesis [testable]. *)

Abbreviation loc := nat.

#[warnings="-register-all"] Inductive value : Type :=
| VUndefined
| VNull
| VBool (b : bool)
| VNumber (n : Z)
| VString (s : string)
| VObject (entries : list (string * value))
| VArray (elements : list value)
| VModel (l : loc).

Definition typeof (v : value) : string :=
  match v with
  | VUndefined => "undefined"
  | VBool _ => "boolean"
  | VNumber _ => "number"
  | VString _ => "string"
  | VNull | VObject _ | VArray _ | VModel _ => "object"
  end.

Definition is_undefined (v : value) : bool :=
  match v with VUndefined => true | _ => false end.

Definition truthy (v : value) : bool :=
  match v with
  | VUndefined | VNull => false
  | VBool b => b
  | VNumber n => negb (Z.eqb n 0)
  | VString s => negb (String.eqb s "")
  | VObject _ | VArray _ | VModel _ => true
  end.

(** [value?.isOfType && value.isOfType('Model')] *)
Definition isModel (v : value) : bool :=
  match v with VModel _ => true | _ => false end.

(** [Object.entries(v)] of an object or an array *)
Definition own_entries (v : value) : list (string * value) :=
  match v with
  | VObject es => es
  | VArray vs => imap (fun i v => (pretty i, v)) vs
  | _ => []
  end.

(** *** Fields and classes *)

(** The [default] of a field: a value, or a function whose result is a
    value or again a function.  [DefaultValue VUndefined] is no default. *)
Inductive default_producer : Type :=
| DefaultValue (v : value)
| DefaultFunction (result : default_producer).

(** Modelled from the spec: the declared value type of a [Field]
    ('./field' is not among the sources).  A field holds plain data or
    instances of a named model, one of them or an array of them. *)
Inductive scalar_type : Type :=
| TValue
| TModel (modelName : string).

Record Field : Type := {
  name : string;
  type : scalar_type;
  isArray : bool;
  serializedName : option string;
  default : default_producer;
  isOwned : bool
}.

(** A subclass of [Model]: its name, the names of its ancestors below
    [Model] (nearest first), and [Object.values(this._fields)], which holds
    the inherited fields too. *)
Record Class : Type := {
  cname : string;
  csupers : list string;
  cfields : list Field
}.

Definition getName (C : Class) : string := cname C.

Definition getField (C : Class) (n : string) : option Field :=
  List.find (fun field => String.eqb (name field) n) (cfields C).

(** [field.serializedName || field.name] *)
Definition serializedKey (field : Field) : string :=
  match serializedName field with
  | Some s => if String.eqb s "" then name field else s
  | None => name field
  end.

Definition getFieldBySerializedName (C : Class) (n : string) : option Field :=
  List.find (fun field => String.eqb (serializedKey field) n) (cfields C).

(** The walk of [isOfType] along the constructor chain ends at
    [Function.prototype], whose [name] is the empty string. *)
Definition isOfType (C : Class) (n : string) : bool :=
  String.eqb n "Model"
  || String.eqb (cname C) n
  || existsb (fun super => String.eqb super n) (csupers C)
  || String.eqb "" n.

(** *** The heap *)

Record Instance : Type := {
  constructor : Class;
  _fieldValues : option (gmap string value);
  _savedFieldValues : option (gmap string value)
}.

Abbreviation heap := (list Instance).

Definition _getFieldValue (this : Instance) (field : Field) : value :=
  match _fieldValues this with
  | None => VUndefined
  | Some fieldValues =>
      match fieldValues !! name field with
      | Some v => v
      | None => VUndefined
      end
  end.

(** *** Objects the type test can be applied to

    [v?.isOfType && v.isOfType('Model')] is false of [undefined], [null],
    booleans, numbers, strings and arrays, which have no member
    [isOfType], and of a plain object whose member [isOfType] is absent or
    falsy.  Of a plain object in which the member is truthy the test is a
    TypeError, and an object with a key [__proto__] may have the member
    from there. *)
Definition testable (v : value) : bool :=
  match v with
  | VObject es =>
      match obj_get es "isOfType" with
      | Some member => negb (truthy member)
      | None => true
      end
      && match obj_get es "__proto__" with Some _ => false | None => true end
  | _ => true
  end.

(** the candidates of [findFromOneOrMany]: the value, or the elements of
    the array *)
Definition testable_value (v : value) : bool :=
  match v with
  | VArray values => forallb testable values
  | _ => testable v
  end.

Definition testable_values (values : option (gmap string value)) : bool :=
  match values with
  | Some m => forallb (fun e => testable_value e.2) (map_to_list m)
  | None => true
  end.

(** every value and every saved value of every instance *)
Definition testable_heap (h : heap) : bool :=
  forallb (fun i => testable_values (_fieldValues i) && testable_values (_savedFieldValues i)) h.

(** The names of the fields of the classes of a registry, and the keys
    under which they are serialized, are names under which an object has
    what it has of its own, and no key is [isOfType]: an instance has the
    values of its fields, and what [serialize] returns its entries, as own
    properties, and what [serialize] returns is an object the constructor
    can apply the type test to. *)
Definition wire_keys_ok (r : list (string * Class)) : bool :=
  forallb (fun e =>
    forallb (fun field =>
      own_name (name field) && own_name (serializedKey field)
      && negb (String.eqb (serializedKey field) "isOfType"))
      (cfields e.2)) r.

(** *** Computations: a heap is threaded through, an exception ends the
    computation, and [Diverges] is a recursion that does not end (the fuel
    of the recursive functions below ran out). *)

Inductive result (A : Type) : Type :=
| Ok (a : A) (h : heap)
| Err (e : error)
| Diverges.
Arguments Ok {A} a h.
Arguments Err {A} e.
Arguments Diverges {A}.

Definition M (A : Type) : Type := heap -> result A.

Definition ret {A} (a : A) : M A := fun h => Ok a h.

Definition bind {A B} (m : M A) (k : A -> M B) : M B :=
  fun h =>
    match m h with
    | Ok a h' => k a h'
    | Err e => Err e
    | Diverges => Diverges
    end.

Definition throw {A} (e : error) : M A := fun _ => Err e.

Definition diverge {A} : M A := fun _ => Diverges.

Definition lift {A} (o : outcome A) : M A :=
  match o with
  | Returns a => ret a
  | Throws e => throw e
  end.

Declare Scope js_scope.
Delimit Scope js_scope with js.
Notation "x <- c1 ;; c2" := (bind c1 (fun x => c2))
  (at level 100, c1 at next level, right associativity) : js_scope.
Notation "c1 ;;; c2" := (bind c1 (fun _ => c2))
  (at level 100, right associativity) : js_scope.
Open Scope js_scope.

Definition get_instance (l : loc) : M Instance :=
  fun h =>
    match h !! l with
    | Some i => Ok i h
    | None => Err Unallocated
    end.

Definition set_instance (l : loc) (i : Instance) : M unit :=
  fun h => Ok tt (<[l:=i]> h).

Definition alloc (i : Instance) : M loc :=
  fun h => Ok (List.length h) (h ++ [i])%list.

Fixpoint mapM {A B} (f : A -> M B) (l : list A) : M (list B) :=
  match l with
  | [] => ret []
  | a :: l' => b <- f a ;; bs <- mapM f l' ;; ret (b :: bs)
  end.

Section WithRegistry.

(** [$registry], a static property the classes share *)
Variable registry : option (list (string * Class)).

Definition _getRegistry : outcome (list (string * Class)) :=
  match registry with
  | Some r => Returns r
  | None => Throws RegistryNotFound
  end.

(** [registry[name]]; a tag that is not a string names no model *)
Definition _getModel (n : value) : outcome Class :=
  match _getRegistry with
  | Throws e => Throws e
  | Returns r =>
      match n with
      | VString s =>
          match obj_get r s with
          | Some C => Returns C
          | None => Throws ModelNotFound
          end
      | _ => Throws ModelNotFound
      end
  end.

Fixpoint forEachField_loop (func : Field -> M value) (fields : list Field) : M value :=
  match fields with
  | [] => ret VUndefined
  | field :: rest =>
      result <- func field ;;
      if is_undefined result then forEachField_loop func rest else ret result
  end.

Definition forEachField (C : Class) (func : Field -> M value) : M value :=
  forEachField_loop func (cfields C).

Fixpoint find_loop (predicate : value -> M value) (values : list value) : M value :=
  match values with
  | [] => ret VUndefined
  | v :: rest =>
      accepted <- predicate v ;;
      if truthy accepted then ret v else find_loop predicate rest
  end.

(** Modelled from the spec: [findFromOneOrMany] of '@superstore/util', which
    is not among the sources.  A find over one value or over the elements of
    an array: the predicate is applied to one candidate after the other, the
    search stops at the first candidate the predicate accepts, and that
    candidate is the result; the result is [undefined] when the predicate
    accepts none. *)
Definition findFromOneOrMany (v : value) (predicate : value -> M value) : M value :=
  match v with
  | VArray values => find_loop predicate values
  | _ =>
      accepted <- predicate v ;;
      if truthy accepted then ret v else ret VUndefined
  end.

Definition forEachSubmodel (this : loc) (func : loc -> M value) : M value :=
  i0 <- get_instance this ;;
  forEachField (constructor i0) (fun field =>
    i <- get_instance this ;;
    findFromOneOrMany (_getFieldValue i field) (fun v =>
      match v with
      | VModel submodel =>
          r <- func submodel ;;
          ret (VBool (negb (is_undefined r)))
      | _ => ret VUndefined
      end)).

(** Modelled from the spec: [Field.createValue] ('./field' is not among the
    sources) turns a raw value into the typed representation of the field,
    constructing the nested model instances: plain data is kept as it is, a
    value of a model-typed field goes through the constructor of the model
    the registry has under the declared name, an array-valued field does so
    element by element, and [undefined] stays [undefined]. *)
Definition createScalar (new_ : Class -> value -> bool -> M value)
    (t : scalar_type) (v : value) (isDeserializing : bool) : M value :=
  match t with
  | TValue => ret v
  | TModel n =>
      C <- lift (_getModel (VString n)) ;;
      new_ C v isDeserializing
  end.

Definition createValue (new_ : Class -> value -> bool -> M value)
    (field : Field) (v : value) (owner : loc) (isDeserializing : bool) : M value :=
  match v with
  | VUndefined => ret VUndefined
  | VArray values =>
      if isArray field then
        values' <- mapM (fun v => createScalar new_ (type field) v isDeserializing) values ;;
        ret (VArray values')
      else createScalar new_ (type field) v isDeserializing
  | _ =>
      if isArray field then throw TypeMismatch
      else createScalar new_ (type field) v isDeserializing
  end.

Definition _saveFieldValue (this : loc) (field : Field) : M unit :=
  i <- get_instance this ;;
  let saved := match _savedFieldValues i with Some s => s | None => ∅ end in
  set_instance this
    {| constructor := constructor i;
       _fieldValues := _fieldValues i;
       _savedFieldValues := Some (<[name field := _getFieldValue i field]> saved) |}.

Definition _setFieldValue (new_ : Class -> value -> bool -> M value)
    (this : loc) (field : Field) (v : value) (isDeserializing : bool) : M value :=
  (if isDeserializing then ret tt else _saveFieldValue this field) ;;;
  v' <- createValue new_ field v this isDeserializing ;;
  i <- get_instance this ;;
  let fieldValues := match _fieldValues i with Some fv => fv | None => ∅ end in
  set_instance this
    {| constructor := constructor i;
       _fieldValues := Some (<[name field := v']> fieldValues);
       _savedFieldValues := _savedFieldValues i |} ;;;
  ret v'.

(** [while (typeof value === 'function') value = value.call(this)] *)
Fixpoint resolve (d : default_producer) : value :=
  match d with
  | DefaultValue v => v
  | DefaultFunction d' => resolve d'
  end.

Definition _applyDefaults (new_ : Class -> value -> bool -> M value) (this : loc)
    : M value :=
  i0 <- get_instance this ;;
  forEachField (constructor i0) (fun field =>
    match default field with
    | DefaultValue VUndefined => ret VUndefined
    | d =>
        i <- get_instance this ;;
        if negb (is_undefined (_getFieldValue i field)) then ret VUndefined
        else
          let v := resolve d in
          if is_undefined v then ret VUndefined
          else _setFieldValue new_ this field v false ;;; ret VUndefined
    end).

(** [object._type]; reading a property of [null] is a TypeError *)
Definition get_type (object : value) : outcome value :=
  match object with
  | VNull => Throws NativeTypeError
  | VObject es =>
      match obj_get es "_type" with
      | Some t => Returns t
      | None => Returns VUndefined
      end
  | _ => Returns VUndefined
  end.

(** the [value] of [const {_type: type, ...value} = object] *)
Definition without_type (object : value) : value :=
  match object with
  | VObject es => VObject (List.filter (fun e => negb (String.eqb e.1 "_type")) es)
  | _ => VObject []
  end.

Fixpoint populate (new_ : Class -> value -> bool -> M value) (this : loc) (C : Class)
    (isDeserializing : bool) (es : list (string * value)) : M unit :=
  match es with
  | [] => ret tt
  | (n, v) :: rest =>
      let field :=
        if isDeserializing then getFieldBySerializedName C n else getField C n in
      match field with
      | Some field => _setFieldValue new_ this field v isDeserializing ;;; ret tt
      | None => ret tt
      end ;;;
      populate new_ this C isDeserializing rest
  end.

(** [new C(object, {isDeserializing})]; the result is the reference the
    [new] expression evaluates to. *)
Fixpoint construct (fuel : nat) (C : Class) (object : value) (isDeserializing : bool)
    : M value :=
  match fuel with
  | 0 => diverge
  | S fuel' =>
      this <- alloc {| constructor := C; _fieldValues := None; _savedFieldValues := None |} ;;
      let finish : M value :=
        (if isDeserializing then ret VUndefined
         else _applyDefaults (construct fuel') this) ;;;
        ret (VModel this) in
      match object with
      | VUndefined => finish
      | _ =>
          if negb (String.eqb (typeof object) "object") then throw TypeMismatch
          else
            _type <- lift (get_type object) ;;
            object <-
              (if is_undefined _type then ret object
               else
                 ObjectModel <- lift (_getModel _type) ;;
                 construct fuel' ObjectModel (without_type object) isDeserializing) ;;
            match object with
            | VModel l =>
                i <- get_instance l ;;
                if negb (isOfType (constructor i) (getName C)) then throw TypeMismatch
                else ret object
            | _ =>
                populate (construct fuel') this C isDeserializing (own_entries object) ;;;
                finish
            end
      end
  end.

Definition deserialize (fuel : nat) (C : Class) (object : value) : M value :=
  construct fuel C object true.

(** the setter [defineField] installs for a field *)
Definition descriptor_set (fuel : nat) (this : loc) (field : Field) (val : value)
    : M value :=
  _setFieldValue (construct fuel) this field val false.

(** *** Change tracking *)

Definition clear_saved (i : Instance) : Instance :=
  {| constructor := constructor i;
     _fieldValues := _fieldValues i;
     _savedFieldValues := None |}.

Fixpoint commit (fuel : nat) (this : loc) : M unit :=
  match fuel with
  | 0 => diverge
  | S fuel' =>
      i <- get_instance this ;;
      set_instance this (clear_saved i) ;;;
      forEachSubmodel this (fun submodel => commit fuel' submodel ;;; ret VUndefined) ;;;
      ret tt
  end.

(** The first half of [rollback]: every saved entry is written into
    [_fieldValues] (a TypeError when there is an entry and no [_fieldValues]
    to write to), and the saved values are dropped. *)
Definition restore (i : Instance) : outcome Instance :=
  match _savedFieldValues i with
  | None => Returns i
  | Some saved =>
      match _fieldValues i with
      | None =>
          if decide (saved = ∅) then Returns (clear_saved i)
          else Throws NativeTypeError
      | Some fieldValues =>
          Returns
            {| constructor := constructor i;
               _fieldValues := Some (saved ∪ fieldValues);
               _savedFieldValues := None |}
      end
  end.

Fixpoint rollback (fuel : nat) (this : loc) : M unit :=
  match fuel with
  | 0 => diverge
  | S fuel' =>
      i <- get_instance this ;;
      i' <- lift (restore i) ;;
      set_instance this i' ;;;
      forEachSubmodel this (fun submodel => rollback fuel' submodel ;;; ret VUndefined) ;;;
      ret tt
  end.

Fixpoint _isChanged (fuel : nat) (this : loc) : M value :=
  match fuel with
  | 0 => diverge
  | S fuel' =>
      i <- get_instance this ;;
      match _savedFieldValues i with
      | Some _ => ret (VBool true)
      | None => forEachSubmodel this (fun submodel => _isChanged fuel' submodel)
      end
  end.

(** [this._isChanged() === true] *)
Definition isChanged (fuel : nat) (this : loc) : M bool :=
  r <- _isChanged fuel this ;;
  ret (match r with VBool true => true | _ => false end).

Definition fieldIsChanged (fuel : nat) (this : loc) (field : Field) : M bool :=
  i <- get_instance this ;;
  let saved :=
    match _savedFieldValues i with
    | Some saved => bool_decide (is_Some (saved !! name field))
    | None => false
    end in
  if saved then ret true
  else
    let v := _getFieldValue i field in
    if is_undefined v then ret false
    else
      changedValue <-
        findFromOneOrMany v (fun v =>
          match v with
          | VModel l => b <- isChanged fuel l ;; ret (VBool b)
          | _ => ret VUndefined
          end) ;;
      ret (negb (is_undefined changedValue)).

(** *** Serialization *)

Inductive field_selection : Type :=
| AllFields                          (* [includeFields === true] *)
| TheseFields (names : list string)  (* an array of names *)
| NoFields.                          (* anything else *)

Record options : Type := {
  includeFields : field_selection;
  includeChangedFields : bool;
  includeUndefinedFields : bool;
  includeOwnedFields : bool
}.

(** [serialize()] without argument *)
Definition no_options : options :=
  {| includeFields := AllFields;
     includeChangedFields := false;
     includeUndefinedFields := false;
     includeOwnedFields := false |}.

(** Modelled from the spec: [Field.serializeValue] ('./field' is not among
    the sources) turns a typed value into plain data, passing the options
    on: an instance is serialized with the same options, an array element by
    element, plain data is itself; an absent value is emitted, as [null],
    only under [includeUndefinedFields]. *)
Definition serializeScalar (serialize_ : loc -> options -> M value)
    (v : value) (opts : options) : M value :=
  match v with
  | VModel l => serialize_ l opts
  | _ => ret v
  end.

Definition serializeValue (serialize_ : loc -> options -> M value)
    (field : Field) (v : value) (opts : options) : M value :=
  match v with
  | VUndefined => ret (if includeUndefinedFields opts then VNull else VUndefined)
  | VArray values =>
      values' <- mapM (fun v => serializeScalar serialize_ v opts) values ;;
      ret (VArray values')
  | _ => serializeScalar serialize_ v opts
  end.

(** the condition under which [serialize] includes a field *)
Definition selected (fuel : nat) (this : loc) (field : Field) (opts : options) : M bool :=
  let others : M bool :=
    changed <- (if includeChangedFields opts then fieldIsChanged fuel this field
                else ret false) ;;
    ret (changed || (includeOwnedFields opts && isOwned field)) in
  match includeFields opts with
  | AllFields => ret true
  | TheseFields names =>
      if existsb (String.eqb (name field)) names then ret true else others
  | NoFields => others
  end.

Fixpoint serialize_fields (serialize_ : loc -> options -> M value) (fuel : nat)
    (this : loc) (opts : options) (fields : list Field) (result : list (string * value))
    : M (list (string * value)) :=
  match fields with
  | [] => ret result
  | field :: rest =>
      included <- selected fuel this field opts ;;
      if included then
        i <- get_instance this ;;
        v <- serializeValue serialize_ field (_getFieldValue i field) opts ;;
        if is_undefined v then serialize_fields serialize_ fuel this opts rest result
        else serialize_fields serialize_ fuel this opts rest
               (obj_set result (serializedKey field) v)
      else serialize_fields serialize_ fuel this opts rest result
  end.

Fixpoint serialize (fuel : nat) (this : loc) (opts : options) : M value :=
  match fuel with
  | 0 => diverge
  | S fuel' =>
      i <- get_instance this ;;
      let C := constructor i in
      result <- serialize_fields (serialize fuel') fuel' this opts (cfields C)
                  [("_type", VString (getName C))] ;;
      ret (VObject result)
  end.

Definition clone (fuel : nat) (this : loc) : M value :=
  i <- get_instance this ;;
  object <- serialize fuel this no_options ;;
  deserialize fuel (constructor i) object.

End WithRegistry.

(** *** A small program: movies and their technical specifications *)

Definition field_of (n : string) (t : scalar_type) (array : bool)
    (d : default_producer) : Field :=
  {| name := n; type := t; isArray := array; serializedName := None;
     default := d; isOwned := false |}.

Definition aspectRatio : Field :=
  field_of "aspectRatio" TValue false (DefaultValue VUndefined).

Definition TechnicalSpecs : Class :=
  {| cname := "TechnicalSpecs"; csupers := []; cfields := [aspectRatio] |}.

Definition title : Field := field_of "title" TValue false (DefaultValue VUndefined).

Definition year : Field :=
  field_of "year" TValue false (DefaultFunction (DefaultValue (VNumber 2000))).

Definition technicalSpecs : Field :=
  field_of "technicalSpecs" (TModel "TechnicalSpecs") false (DefaultValue VUndefined).

Definition sequels : Field :=
  field_of "sequels" (TModel "Movie") true (DefaultValue VUndefined).

Definition Movie : Class :=
  {| cname := "Movie"; csupers := [];
     cfields := [title; year; technicalSpecs; sequels] |}.

Definition movies_registry : list (string * Class) :=
  [("Movie", Movie); ("TechnicalSpecs", TechnicalSpecs)].

Definition movies : option (list (string * Class)) := Some movies_registry.

Definition inception : value :=
  VObject [("title", VString "Inception");
           ("technicalSpecs", VObject [("aspectRatio", VString "2.39:1")]);
           ("sequels", VArray [VObject [("title", VString "Inception 2")]])].

Definition heap_of {A} (r : result A) : heap :=
  match r with Ok _ h => h | _ => [] end.

(** *** Reasoning about computations *)

Lemma bind_Ok {A B} (m : M A) (k : A -> M B) h b h' :
  bind m k h = Ok b h' <-> exists a h1, m h = Ok a h1 /\ k a h1 = Ok b h'.
Proof.
  unfold bind. destruct (m h) as [a h1| |]; split.
  - eauto.
  - now intros (a' & h1' & [= -> ->] & Hk).
  - discriminate.
  - now intros (? & ? & ? & _).
  - discriminate.
  - now intros (? & ? & ? & _).
Qed.

Lemma ret_Ok {A} (a b : A) h h' : ret a h = Ok b h' <-> a = b /\ h = h'.
Proof. unfold ret. split; [now intros [= -> ->] | now intros [-> ->]]. Qed.

Lemma lift_Ok {A} (o : outcome A) a h h' :
  lift o h = Ok a h' <-> o = Returns a /\ h = h'.
Proof.
  destruct o; cbn; split; try discriminate; try (now intros [? _]).
  - now intros [= -> ->].
  - now intros [[= ->] ->].
Qed.

Lemma get_instance_Ok l h i h' :
  get_instance l h = Ok i h' <-> h !! l = Some i /\ h = h'.
Proof.
  unfold get_instance. destruct (h !! l); split; try discriminate; try (now intros [? _]).
  - now intros [= -> ->].
  - now intros [[= ->] ->].
Qed.

Ltac inv_M :=
  repeat match goal with
    | H : bind _ _ _ = Ok _ _ |- _ => apply bind_Ok in H as (? & ? & ? & H)
    | H : ret _ _ = Ok _ _ |- _ => apply ret_Ok in H as [? ?]; subst
    | H : lift _ _ = Ok _ _ |- _ => apply lift_Ok in H as [? ?]; subst
    | H : get_instance _ _ = Ok _ _ |- _ => apply get_instance_Ok in H as [? ?]; subst
    | H : throw _ _ = Ok _ _ |- _ => discriminate H
    | H : diverge _ = Ok _ _ |- _ => discriminate H
    | H : set_instance _ _ _ = Ok _ _ |- _ => unfold set_instance in H; injection H as ? ?; subst
    | H : alloc _ _ = Ok _ _ |- _ => unfold alloc in H; injection H as ? ?; subst
    end.

(** [modifies_only P h h']: from [h] to [h'] the heap has not lost an
    instance, and the instances at locations outside [P] are unchanged. *)
Definition modifies_only (P : loc -> Prop) (h h' : heap) : Prop :=
  List.length h <= List.length h' /\
  forall l i, h !! l = Some i -> ~ P l -> h' !! l = Some i.

Definition extends (h h' : heap) : Prop := modifies_only (fun _ => False) h h'.

Lemma modifies_only_refl P h : modifies_only P h h.
Proof. split; [lia | auto]. Qed.

Lemma modifies_only_trans P h1 h2 h3 :
  modifies_only P h1 h2 -> modifies_only P h2 h3 -> modifies_only P h1 h3.
Proof. intros [L1 H1] [L2 H2]. split; [lia | eauto]. Qed.

Lemma modifies_only_weaken (P Q : loc -> Prop) h h' :
  (forall l, P l -> Q l) -> modifies_only P h h' -> modifies_only Q h h'.
Proof. intros HPQ [L H]. split; [lia | eauto]. Qed.

Lemma extends_lookup h h' l i : extends h h' -> h !! l = Some i -> h' !! l = Some i.
Proof. intros [_ H] Hl. apply (H l i Hl). tauto. Qed.

Lemma modifies_only_insert (P : loc -> Prop) h l i :
  P l -> modifies_only P h (<[l:=i]> h).
Proof.
  intros HP. split; [now rewrite length_insert|].
  intros l' i' Hl' HnP. rewrite list_lookup_insert_ne; [exact Hl'|]. now intros ->.
Qed.

Lemma extends_alloc h i : extends h (h ++ [i])%list.
Proof.
  split; [rewrite length_app; lia|].
  intros l i' Hl _. now apply lookup_app_l_Some.
Qed.

Lemma extends_modifies_only P h h' : extends h h' -> modifies_only P h h'.
Proof. apply modifies_only_weaken. tauto. Qed.

(** A computation that leaves every instance of the heap it starts from
    as it is. *)
Definition extending {A} (m : M A) : Prop :=
  forall h a h', m h = Ok a h' -> extends h h'.

Definition modifying {A} (P : loc -> Prop) (m : M A) : Prop :=
  forall h a h', m h = Ok a h' -> modifies_only P h h'.

Lemma modifying_bind {A B} P (m : M A) (k : A -> M B) :
  modifying P m -> (forall a, modifying P (k a)) -> modifying P (bind m k).
Proof.
  intros Hm Hk h b h' H. inv_M.
  eapply modifies_only_trans; [eapply Hm | eapply Hk]; eauto.
Qed.

Lemma modifying_ret {A} P (a : A) : modifying P (ret a).
Proof. intros h b h' H. inv_M. apply modifies_only_refl. Qed.

Lemma modifying_throw {A} P e : modifying P (@throw A e).
Proof. intros h b h' H. discriminate. Qed.

Lemma modifying_lift {A} P (o : outcome A) : modifying P (lift o).
Proof. intros h b h' H. inv_M. apply modifies_only_refl. Qed.

Lemma modifying_get_instance P l : modifying P (get_instance l).
Proof. intros h b h' H. inv_M. apply modifies_only_refl. Qed.

Lemma modifying_set_instance (P : loc -> Prop) l i : P l -> modifying P (set_instance l i).
Proof. intros HP h b h' H. inv_M. now apply modifies_only_insert. Qed.

Lemma modifying_weaken {A} (P Q : loc -> Prop) (m : M A) :
  (forall l, P l -> Q l) -> modifying P m -> modifying Q m.
Proof. intros HPQ Hm h a h' H. eapply modifies_only_weaken; eauto. Qed.

Lemma modifying_mapM {A B} P (f : A -> M B) l :
  (forall a, modifying P (f a)) -> modifying P (mapM f l).
Proof.
  intros Hf. induction l as [|a l IH]; cbn [mapM].
  - apply modifying_ret.
  - apply modifying_bind; [apply Hf|]. intros b.
    apply modifying_bind; [apply IH|]. intros bs. apply modifying_ret.
Qed.

Lemma modifying_forEachField_loop P func fields :
  (forall field, modifying P (func field)) -> modifying P (forEachField_loop func fields).
Proof.
  intros Hf. induction fields as [|f fields IH]; cbn [forEachField_loop].
  - apply modifying_ret.
  - apply modifying_bind; [apply Hf|]. intros r.
    destruct (is_undefined r); [apply IH | apply modifying_ret].
Qed.

Section Frames.

Variable registry : option (list (string * Class)).
Variable new_ : Class -> value -> bool -> M value.
Hypothesis new_extends : forall C object d, extending (new_ C object d).

Lemma new_modifying P C object d : modifying P (new_ C object d).
Proof. intros h a h' H. apply extends_modifies_only. eapply new_extends, H. Qed.

Lemma modifying_createScalar P t v d : modifying P (createScalar registry new_ t v d).
Proof.
  destruct t as [|n]; cbn [createScalar].
  - apply modifying_ret.
  - apply modifying_bind; [apply modifying_lift|]. intros C. apply new_modifying.
Qed.

Lemma modifying_createValue P field v owner d :
  modifying P (createValue registry new_ field v owner d).
Proof.
  unfold createValue.
  destruct v; try apply modifying_ret;
    destruct (isArray field);
    try apply modifying_throw; try apply modifying_createScalar.
  apply modifying_bind; [|intros; apply modifying_ret].
  apply modifying_mapM. intros v. apply modifying_createScalar.
Qed.

Lemma modifying_saveFieldValue this field : modifying (eq this) (_saveFieldValue this field).
Proof.
  unfold _saveFieldValue. apply modifying_bind; [apply modifying_get_instance|].
  intros i. now apply modifying_set_instance.
Qed.

Lemma modifying_setFieldValue this field v d :
  modifying (eq this) (_setFieldValue registry new_ this field v d).
Proof.
  unfold _setFieldValue. apply modifying_bind.
  { destruct d; [apply modifying_ret | apply modifying_saveFieldValue]. }
  intros _. apply modifying_bind; [apply modifying_createValue|]. intros v'.
  apply modifying_bind; [apply modifying_get_instance|]. intros i.
  apply modifying_bind; [now apply modifying_set_instance|]. intros _.
  apply modifying_ret.
Qed.

Lemma modifying_applyDefaults this : modifying (eq this) (_applyDefaults registry new_ this).
Proof.
  unfold _applyDefaults. apply modifying_bind; [apply modifying_get_instance|].
  intros i0. apply modifying_forEachField_loop. intros field.
  assert (Hset : forall d,
    modifying (eq this)
      (i <- get_instance this ;;
       if negb (is_undefined (_getFieldValue i field)) then ret VUndefined
       else
         let v := resolve d in
         if is_undefined v then ret VUndefined
         else _setFieldValue registry new_ this field v false ;;; ret VUndefined)).
  { intros d. apply modifying_bind; [apply modifying_get_instance|]. intros i.
    destruct (negb (is_undefined (_getFieldValue i field))); [apply modifying_ret|].
    cbv zeta. destruct (is_undefined (resolve d)); [apply modifying_ret|].
    apply modifying_bind; [apply modifying_setFieldValue|]. intros _. apply modifying_ret. }
  destruct (default field) as [[]|]; try apply Hset. apply modifying_ret.
Qed.

Lemma modifying_populate this C d es :
  modifying (eq this) (populate registry new_ this C d es).
Proof.
  induction es as [|[n v] es IH]; cbn [populate].
  - apply modifying_ret.
  - apply modifying_bind; [|intros _; apply IH].
    destruct (if d then getFieldBySerializedName C n else getField C n).
    + apply modifying_bind; [apply modifying_setFieldValue|]. intros _. apply modifying_ret.
    + apply modifying_ret.
Qed.

Lemma modifying_construct_body (C : Class) (object : value) (d : bool) (this : loc) :
  let construct' := new_ in
  let finish : M value :=
    (if d then ret VUndefined else _applyDefaults registry construct' this) ;;;
    ret (VModel this) in
  modifying (eq this)
    (match object with
     | VUndefined => finish
     | _ =>
         if negb (String.eqb (typeof object) "object") then throw TypeMismatch
         else
           _type <- lift (get_type object) ;;
           object <-
             (if is_undefined _type then ret object
              else
                ObjectModel <- lift (_getModel registry _type) ;;
                construct' ObjectModel (without_type object) d) ;;
           match object with
           | VModel l =>
               i <- get_instance l ;;
               if negb (isOfType (constructor i) (getName C)) then throw TypeMismatch
               else ret object
           | _ =>
               populate registry construct' this C d (own_entries object) ;;;
               finish
           end
     end).
Proof.
  intros construct' finish.
  assert (Hfinish : modifying (eq this) finish).
  { apply modifying_bind; [|intros; apply modifying_ret].
    destruct d; [apply modifying_ret | apply modifying_applyDefaults]. }
  assert (Hrest : modifying (eq this)
    (if negb (String.eqb (typeof object) "object") then throw TypeMismatch
     else
       _type <- lift (get_type object) ;;
       object <-
         (if is_undefined _type then ret object
          else
            ObjectModel <- lift (_getModel registry _type) ;;
            construct' ObjectModel (without_type object) d) ;;
       match object with
       | VModel l =>
           i <- get_instance l ;;
           if negb (isOfType (constructor i) (getName C)) then throw TypeMismatch
           else ret object
       | _ =>
           populate registry construct' this C d (own_entries object) ;;;
           finish
       end)).
  { destruct (negb (String.eqb (typeof object) "object")); [apply modifying_throw|].
    apply modifying_bind; [apply modifying_lift|]. intros _type.
    apply modifying_bind.
    { destruct (is_undefined _type); [apply modifying_ret|].
      apply modifying_bind; [apply modifying_lift|]. intros. apply new_modifying. }
    intros object'.
    assert (Hpop : modifying (eq this)
              (populate registry construct' this C d (own_entries object') ;;; finish)).
    { apply modifying_bind; [apply modifying_populate | intros; exact Hfinish]. }
    destruct object'; try exact Hpop.
    apply modifying_bind; [apply modifying_get_instance|]. intros i.
    destruct (negb (isOfType (constructor i) (getName C)));
      [apply modifying_throw | apply modifying_ret]. }
  destruct object; first [exact Hfinish | exact Hrest].
Qed.

End Frames.

Lemma construct_extends registry fuel C object d :
  extending (construct registry fuel C object d).
Proof.
  revert C object d. induction fuel as [|fuel IH]; intros C object d h v h' H.
  - discriminate.
  - cbn [construct] in H. apply bind_Ok in H as (this & h1 & Halloc & H).
    unfold alloc in Halloc. injection Halloc as <- <-.
    pose proof (modifying_construct_body registry (construct registry fuel) IH
                  C object d (List.length h)) as Hbody.
    cbv zeta in Hbody. apply Hbody in H. destruct H as [Hlen H].
    rewrite length_app in Hlen. cbn in Hlen. split; [lia|].
    intros l i Hl _. apply H.
    + now apply lookup_app_l_Some.
    + apply lookup_lt_Some in Hl. lia.
Qed.

Lemma setFieldValue_instance registry new_ this field v d h r h' i :
  (forall C object d, extending (new_ C object d)) ->
  h !! this = Some i ->
  _setFieldValue registry new_ this field v d h = Ok r h' ->
  h' !! this =
    Some {| constructor := constructor i;
            _fieldValues :=
              Some (<[name field := r]>
                      (match _fieldValues i with Some fv => fv | None => ∅ end));
            _savedFieldValues :=
              if d then _savedFieldValues i
              else Some (<[name field := _getFieldValue i field]>
                           (match _savedFieldValues i with Some s => s | None => ∅ end)) |}.
Proof.
  intros Hnew Hi H. unfold _setFieldValue in H.
  apply bind_Ok in H as (u & h1 & Hsave & H).
  apply bind_Ok in H as (v' & h2 & Hcreate & H).
  apply bind_Ok in H as (i2 & h3 & Hget & H).
  apply get_instance_Ok in Hget as [Hi2 <-].
  apply bind_Ok in H as ([] & h4 & Hset & H).
  apply ret_Ok in H as [<- <-].
  unfold set_instance in Hset. injection Hset as <-.
  apply (modifying_createValue registry new_ Hnew (fun _ => False)) in Hcreate.
  rewrite list_lookup_insert_eq by (now apply lookup_lt_Some in Hi2). f_equal.
  assert (Hh1 : h1 !! this =
            Some {| constructor := constructor i;
                    _fieldValues := _fieldValues i;
                    _savedFieldValues :=
                      if d then _savedFieldValues i
                      else Some (<[name field := _getFieldValue i field]>
                                   (match _savedFieldValues i with
                                    | Some s => s | None => ∅ end)) |}).
  { destruct d.
    - apply ret_Ok in Hsave as [_ <-]. rewrite Hi. now destruct i.
    - unfold _saveFieldValue in Hsave.
      apply bind_Ok in Hsave as (i0 & h0 & Hg & Hs).
      apply get_instance_Ok in Hg as [Hg <-].
      rewrite Hi in Hg. injection Hg as <-.
      unfold set_instance in Hs. injection Hs as _ <-.
      apply list_lookup_insert_eq. now apply lookup_lt_Some in Hi. }
  rewrite (extends_lookup _ _ _ _ Hcreate Hh1) in Hi2. now injection Hi2 as <-.
Qed.

Lemma descriptor_set_allocated registry fuel this field v h r h' :
  descriptor_set registry fuel this field v h = Ok r h' -> is_Some (h !! this).
Proof.
  unfold descriptor_set, _setFieldValue, _saveFieldValue. intros H. inv_M. eauto.
Qed.

(** *** The submodels of an instance *)

(** the candidates of [findFromOneOrMany] that are instances *)
Definition submodels_of (v : value) : list loc :=
  match v with
  | VModel s => [s]
  | VArray values =>
      omap (fun v => match v with VModel s => Some s | _ => None end) values
  | _ => []
  end.

Definition field_submodels (i : Instance) : list loc :=
  cfields (constructor i) ≫= (fun field => submodels_of (_getFieldValue i field)).

(** [forEachSubmodel] with a function that returns [undefined] visits every
    submodel.  [R] relates the heaps before and after a visit, [Q] is what a
    visit establishes of the submodel. *)
Section Visits.

Variable R : heap -> heap -> Prop.
Variable Q : loc -> heap -> Prop.
Variable func : loc -> M value.
Hypothesis R_refl : forall h, R h h.
Hypothesis R_trans : forall a b c, R a b -> R b c -> R a c.
Hypothesis Q_stable : forall s h h', Q s h -> R h h' -> Q s h'.

Definition visit : value -> M value :=
  fun v =>
    match v with
    | VModel submodel => r <- func submodel ;; ret (VBool (negb (is_undefined r)))
    | _ => ret VUndefined
    end.

Definition visits (s : loc) (h0 : heap) : Prop :=
  forall h, R h0 h -> exists h', func s h = Ok VUndefined h' /\ R h h' /\ Q s h'.

Lemma find_loop_visits values h0 h :
  (forall s, VModel s ∈ values -> visits s h0) -> R h0 h ->
  exists h', find_loop visit values h = Ok VUndefined h' /\ R h h' /\
             forall s, VModel s ∈ values -> Q s h'.
Proof.
  revert h. induction values as [|v values IH]; intros h Hvis HR.
  - exists h. split; [reflexivity|]. split; [apply R_refl|].
    intros s Hs. now apply elem_of_nil in Hs.
  - assert (Hrest : forall s, VModel s ∈ values -> visits s h0)
      by (intros s Hs; apply Hvis; apply elem_of_cons; now right).
    assert (Hv : exists h1, visit v h = Ok (if isModel v then VBool false else VUndefined) h1 /\
                            R h h1 /\ forall s, v = VModel s -> Q s h1).
    { destruct v as [| |b|n|str|es|elements|l];
        try (exists h; repeat split; [apply R_refl | discriminate]).
      destruct (Hvis l (list_elem_of_here _ _) h HR) as (h1 & Hf & HR1 & HQ).
      exists h1. split; [|split; [exact HR1 | now intros s [= <-]]].
      cbn [visit]. unfold bind. now rewrite Hf. }
    destruct Hv as (h1 & Hv & HR1 & HQ1).
    destruct (IH h1 Hrest (R_trans _ _ _ HR HR1)) as (h2 & Hloop & HR2 & HQ2).
    exists h2. split; [|split; [eauto|]].
    + cbn [find_loop]. unfold bind at 1. rewrite Hv.
      now destruct (isModel v).
    + intros s Hs. apply elem_of_cons in Hs as [<-|Hs]; [|now apply HQ2].
      eapply Q_stable; [now apply HQ1 | exact HR2].
Qed.

Lemma findFromOneOrMany_visits v h0 h :
  (forall s, s ∈ submodels_of v -> visits s h0) -> R h0 h ->
  exists h', findFromOneOrMany v visit h = Ok VUndefined h' /\ R h h' /\
             forall s, s ∈ submodels_of v -> Q s h'.
Proof.
  intros Hvis HR.
  destruct v as [| |b|n|str|es|elements|l];
    try (exists h; split; [reflexivity|]; split; [apply R_refl|];
         intros s' Hs'; now apply elem_of_nil in Hs').
  - (* an array *)
    destruct (find_loop_visits elements h0 h) as (h' & Hloop & HR' & HQ); [|exact HR|].
    + intros s Hs. apply Hvis. cbn [submodels_of]. apply list_elem_of_omap.
      now exists (VModel s).
    + exists h'. split; [exact Hloop|]. split; [exact HR'|].
      intros s Hs. cbn [submodels_of] in Hs.
      apply list_elem_of_omap in Hs as (v & Hv & Hs). destruct v; try discriminate.
      injection Hs as ->. now apply HQ.
  - (* one instance *)
    destruct (Hvis l (list_elem_of_here _ _) h HR) as (h1 & Hf & HR1 & HQ).
    exists h1. split; [|split; [exact HR1|]].
    + cbn [findFromOneOrMany visit]. unfold bind. now rewrite Hf.
    + intros s Hs. apply list_elem_of_singleton in Hs as ->. exact HQ.
Qed.

Lemma forEachSubmodel_visits this i h :
  h !! this = Some i ->
  (forall h', R h h' -> h' !! this = Some i) ->
  (forall s, s ∈ field_submodels i -> visits s h) ->
  exists h', forEachSubmodel this func h = Ok VUndefined h' /\ R h h' /\
             forall s, s ∈ field_submodels i -> Q s h'.
Proof.
  intros Hi Hstable Hvis. unfold forEachSubmodel, forEachField.
  unfold bind at 1. unfold get_instance at 1. rewrite Hi.
  fold visit. unfold field_submodels in *.
  assert (Hloop : forall fields h1,
    (forall field s, field ∈ fields -> s ∈ submodels_of (_getFieldValue i field) ->
                     visits s h) ->
    R h h1 ->
    exists h', forEachField_loop
                 (fun field => i <- get_instance this ;;
                               findFromOneOrMany (_getFieldValue i field) visit)
                 fields h1 = Ok VUndefined h' /\ R h1 h' /\
               forall field s, field ∈ fields ->
                               s ∈ submodels_of (_getFieldValue i field) -> Q s h').
  { induction fields as [|f fields IH]; intros h1 Hv HR.
    - exists h1. split; [reflexivity|]. split; [apply R_refl|].
      intros f s Hf. now apply elem_of_nil in Hf.
    - destruct (findFromOneOrMany_visits (_getFieldValue i f) h h1) as (h2 & Hfind & HR2 & HQ2);
        [|exact HR|].
      { intros s Hs. apply (Hv f s); [apply list_elem_of_here | exact Hs]. }
      destruct (IH h2) as (h3 & Hrest & HR3 & HQ3); [|eauto|].
      { intros f' s Hf'. apply Hv. apply elem_of_cons. now right. }
      exists h3. split; [|split; [eauto|]].
      + cbn [forEachField_loop]. unfold bind at 1. unfold bind at 1.
        unfold get_instance at 1. rewrite (Hstable h1 HR). rewrite Hfind. exact Hrest.
      + intros f' s Hf' Hs. apply elem_of_cons in Hf' as [->|Hf'].
        * eapply Q_stable; [now apply HQ2 | exact HR3].
        * now apply (HQ3 f' s). }
  destruct (Hloop (cfields (constructor i)) h) as (h' & Hrun & HR' & HQ'); [|apply R_refl|].
  - intros f s Hf Hs. apply Hvis. apply list_elem_of_bind. eauto.
  - exists h'. split; [exact Hrun|]. split; [exact HR'|].
    intros s Hs. apply list_elem_of_bind in Hs as (f & Hs & Hf). eauto.
Qed.

End Visits.

Lemma bind_ext {A B} (m : M A) (k1 k2 : A -> M B) h :
  (forall a h', k1 a h' = k2 a h') -> bind m k1 h = bind m k2 h.
Proof. intros Hk. unfold bind. destruct (m h); auto. Qed.

Lemma bind_ext_l {A B} (m1 m2 : M A) (k : A -> M B) h :
  m1 h = m2 h -> bind m1 k h = bind m2 k h.
Proof. intros Hm. unfold bind. now rewrite Hm. Qed.

Lemma find_loop_ext (p q : value -> M value) values h :
  (forall v h, p v h = q v h) -> find_loop p values h = find_loop q values h.
Proof.
  intros Hpq. revert h. induction values as [|v vs IH]; intros h; [reflexivity|].
  cbn [find_loop]. unfold bind. rewrite Hpq. destruct (q v h) as [a h'| |]; [|reflexivity..].
  destruct (truthy a); [reflexivity | apply IH].
Qed.

Lemma findFromOneOrMany_ext (p q : value -> M value) v h :
  (forall v h, p v h = q v h) -> findFromOneOrMany v p h = findFromOneOrMany v q h.
Proof.
  intros Hpq. destruct v; cbn [findFromOneOrMany];
    try (unfold bind; rewrite Hpq; reflexivity).
  now apply find_loop_ext.
Qed.

Lemma forEachField_loop_ext (f g : Field -> M value) fields h :
  (forall field h, f field h = g field h) ->
  forEachField_loop f fields h = forEachField_loop g fields h.
Proof.
  intros Hfg. revert h. induction fields as [|fd fields IH]; intros h; [reflexivity|].
  cbn [forEachField_loop]. unfold bind. rewrite Hfg.
  destruct (g fd h) as [a h'| |]; [|reflexivity..].
  destruct (is_undefined a); [apply IH | reflexivity].
Qed.

Lemma forEachSubmodel_ext this (f g : loc -> M value) h :
  (forall s h, f s h = g s h) -> forEachSubmodel this f h = forEachSubmodel this g h.
Proof.
  intros Hfg. unfold forEachSubmodel, forEachField.
  apply bind_ext. intros i0 h0. apply forEachField_loop_ext. intros fd h1.
  apply bind_ext. intros i h2. apply findFromOneOrMany_ext.
  intros [] h3; try reflexivity. apply bind_ext_l, Hfg.
Qed.

(** *** Walks: what [commit] and [rollback] share

    Both replace the instance by a clean one ([step]) and then visit the
    submodels of the instance they have written. *)
Section Walk.

Variable step : Instance -> outcome Instance.
Hypothesis step_clean : forall i i',
  step i = Returns i' -> constructor i' = constructor i /\ _savedFieldValues i' = None.
Hypothesis step_id : forall i, _savedFieldValues i = None -> step i = Returns i.

Fixpoint walk (fuel : nat) (this : loc) : M unit :=
  match fuel with
  | 0 => diverge
  | S fuel' =>
      i <- get_instance this ;;
      i' <- lift (step i) ;;
      set_instance this i' ;;;
      forEachSubmodel this (fun submodel => walk fuel' submodel ;;; ret VUndefined) ;;;
      ret tt
  end.

(** Every chain of submodels that starts at [l], each read after [step],
    has fewer than [n] links: the graph the walk goes through has no
    cycle and no dangling reference. *)
Fixpoint ranked_by (h : heap) (n : nat) (l : loc) : bool :=
  match n with
  | 0 => false
  | S n' =>
      match h !! l with
      | None => false
      | Some i =>
          match step i with
          | Returns i' => forallb (ranked_by h n') (field_submodels i')
          | Throws _ => false
          end
      end
  end.

(** The same of the graph as it is, all of whose instances moreover have no
    saved value. *)
Fixpoint clean_ranked (h : heap) (n : nat) (l : loc) : bool :=
  match n with
  | 0 => false
  | S n' =>
      match h !! l with
      | None => false
      | Some i =>
          match _savedFieldValues i with
          | Some _ => false
          | None => forallb (clean_ranked h n') (field_submodels i)
          end
      end
  end.

(** [h'] is [h] with [step] applied to some of its instances. *)
Definition stepped_from (h h' : heap) : Prop :=
  List.length h' = List.length h /\
  forall l i, h !! l = Some i ->
    h' !! l = Some i \/ exists i', step i = Returns i' /\ h' !! l = Some i'.

Lemma stepped_from_refl h : stepped_from h h.
Proof. split; [reflexivity | auto]. Qed.

Lemma stepped_from_trans h1 h2 h3 :
  stepped_from h1 h2 -> stepped_from h2 h3 -> stepped_from h1 h3.
Proof.
  intros [L1 H1] [L2 H2]. split; [congruence|].
  intros l i Hi. destruct (H1 l i Hi) as [Hl|(i' & Hs & Hl)].
  - exact (H2 l i Hl).
  - right. exists i'. split; [exact Hs|].
    destruct (H2 l i' Hl) as [Hl'|(i'' & Hs' & Hl')]; [exact Hl'|].
    destruct (step_clean _ _ Hs) as [_ Hclean].
    rewrite (step_id _ Hclean) in Hs'. now injection Hs' as <-.
Qed.

Lemma stepped_from_insert h l i i' :
  h !! l = Some i -> step i = Returns i' -> stepped_from h (<[l:=i']> h).
Proof.
  intros Hi Hs. split; [apply length_insert|].
  intros l' j Hj. destruct (decide (l = l')) as [<-|Hne].
  - right. exists i'. rewrite Hi in Hj. injection Hj as <-. split; [exact Hs|].
    apply list_lookup_insert_eq. now apply lookup_lt_Some in Hi.
  - left. now rewrite list_lookup_insert_ne.
Qed.

Lemma stepped_from_clean h h' l i :
  stepped_from h h' -> h !! l = Some i -> _savedFieldValues i = None -> h' !! l = Some i.
Proof.
  intros [_ H] Hi Hclean. destruct (H l i Hi) as [Hl|(i' & Hs & Hl)]; [exact Hl|].
  rewrite (step_id _ Hclean) in Hs. now injection Hs as <-.
Qed.

Lemma stepped_from_None h h' l : stepped_from h h' -> h !! l = None -> h' !! l = None.
Proof.
  intros [L _] Hl. apply lookup_ge_None. apply lookup_ge_None in Hl. lia.
Qed.

Lemma forallb_ext_in {A} (f g : A -> bool) l :
  (forall x, f x = g x) -> forallb f l = forallb g l.
Proof. intros H. induction l as [|a l IH]; cbn; [reflexivity|]. now rewrite H, IH. Qed.

Lemma ranked_by_stepped h h' n l :
  stepped_from h h' -> ranked_by h' n l = ranked_by h n l.
Proof.
  intros Hst. revert l. induction n as [|n IH]; intros l; [reflexivity|].
  cbn [ranked_by]. destruct (h !! l) as [i|] eqn:Hi.
  - destruct (proj2 Hst l i Hi) as [->|(i' & Hs & ->)].
    + destruct (step i); [|reflexivity]. now apply forallb_ext_in.
    + rewrite Hs. destruct (step_clean _ _ Hs) as [_ Hclean].
      rewrite (step_id _ Hclean). now apply forallb_ext_in.
  - now rewrite (stepped_from_None _ _ _ Hst Hi).
Qed.

Lemma clean_ranked_stepped h h' n l :
  stepped_from h h' -> clean_ranked h n l = true -> clean_ranked h' n l = true.
Proof.
  intros Hst. revert l. induction n as [|n IH]; intros l; [discriminate|].
  cbn [clean_ranked]. destruct (h !! l) as [i|] eqn:Hi; [|discriminate].
  destruct (_savedFieldValues i) eqn:Hs; [discriminate|].
  rewrite (stepped_from_clean _ _ _ _ Hst Hi Hs), Hs.
  rewrite !forallb_forall. intros H s Hin. apply IH. now apply H.
Qed.

Lemma walk_returns n : forall l h,
  ranked_by h n l = true ->
  exists h' i i',
    h !! l = Some i /\ step i = Returns i' /\
    walk n l h = Ok tt h' /\ stepped_from h h' /\
    h' !! l = Some i' /\ clean_ranked h' n l = true.
Proof.
  induction n as [|n IH]; intros l h Hr; [discriminate|].
  cbn [ranked_by] in Hr. destruct (h !! l) as [i|] eqn:Hi; [|discriminate].
  destruct (step i) as [i'|] eqn:Hs; [|discriminate].
  rewrite forallb_forall in Hr.
  destruct (step_clean _ _ Hs) as [_ Hclean].
  pose proof (stepped_from_insert _ _ _ _ Hi Hs) as Hst1.
  assert (Hi1 : <[l:=i']> h !! l = Some i')
    by (apply list_lookup_insert_eq; now apply lookup_lt_Some in Hi).
  destruct (forEachSubmodel_visits stepped_from
              (fun s h => clean_ranked h n s = true)
              (fun submodel => walk n submodel ;;; ret VUndefined)
              stepped_from_refl stepped_from_trans
              (fun s h h' HQ HR => clean_ranked_stepped h h' n s HR HQ)
              l i' (<[l:=i']> h) Hi1)
    as (h' & Hrun & Hst' & Hsubs).
  - intros h1 Hst. exact (stepped_from_clean _ _ _ _ Hst Hi1 Hclean).
  - intros s Hin h1 Hst.
    assert (Hrs : ranked_by h1 n s = true).
    { rewrite (ranked_by_stepped h h1 n s (stepped_from_trans _ _ _ Hst1 Hst)).
      apply Hr. now apply list_elem_of_In. }
    destruct (IH s h1 Hrs) as (h2 & j & j' & _ & _ & Hw & Hst2 & _ & Hc).
    exists h2. split; [|split; [exact Hst2 | exact Hc]].
    unfold bind. now rewrite Hw.
  - exists h', i, i'. split; [reflexivity|]. split; [exact Hs|].
    assert (Hl' : h' !! l = Some i') by exact (stepped_from_clean _ _ _ _ Hst' Hi1 Hclean).
    split; [|split; [exact (stepped_from_trans _ _ _ Hst1 Hst') | split; [exact Hl'|]]].
    + cbn [walk]. unfold bind at 1. unfold get_instance at 1. rewrite Hi.
      unfold bind at 1. cbn [lift]. rewrite Hs. cbn [lift ret].
      unfold bind at 1. cbn [set_instance]. unfold bind at 1. now rewrite Hrun.
    + cbn [clean_ranked]. rewrite Hl', Hclean. apply forallb_forall.
      intros s Hin. apply Hsubs. now apply list_elem_of_In.
Qed.

End Walk.

(** the getter [defineField] installs for a field *)
Definition descriptor_get (this : loc) (field : Field) : M value :=
  i <- get_instance this ;;
  ret (_getFieldValue i field).

Definition clear (i : Instance) : outcome Instance := Returns (clear_saved i).

(** The graph [commit] goes through from [l] has no cycle: every chain of
    submodels from [l] has fewer than [n] links. *)
Definition committable (h : heap) (n : nat) (l : loc) : bool := ranked_by clear h n l.

(** The same of the graph [rollback] goes through, which is the graph of
    the restored field values; none of its instances has saved values
    without having field values. *)
Definition restorable (h : heap) (n : nat) (l : loc) : bool := ranked_by restore h n l.

Lemma clear_saved_clean i : _savedFieldValues i = None -> clear_saved i = i.
Proof. destruct i as [C fv sv]. cbn. now intros ->. Qed.

Lemma clear_clean i i' :
  clear i = Returns i' -> constructor i' = constructor i /\ _savedFieldValues i' = None.
Proof. intros [= <-]. now split. Qed.

Lemma clear_id i : _savedFieldValues i = None -> clear i = Returns i.
Proof. intros H. unfold clear. now rewrite clear_saved_clean. Qed.

Lemma restore_clean i i' :
  restore i = Returns i' -> constructor i' = constructor i /\ _savedFieldValues i' = None.
Proof.
  unfold restore. destruct (_savedFieldValues i) as [saved|] eqn:Hs.
  - destruct (_fieldValues i); [now intros [= <-]|].
    destruct (decide (saved = ∅)); [now intros [= <-] | discriminate].
  - now intros [= <-].
Qed.

Lemma restore_id i : _savedFieldValues i = None -> restore i = Returns i.
Proof. intros H. unfold restore. now rewrite H. Qed.

Lemma bind_lift_Returns {A B} (a : A) (k : A -> M B) h :
  bind (lift (Returns a)) k h = k a h.
Proof. reflexivity. Qed.

Lemma commit_walk fuel : forall this h, commit fuel this h = walk clear fuel this h.
Proof.
  induction fuel as [|fuel IH]; intros this h; [reflexivity|].
  cbn [commit walk]. apply bind_ext. intros i h1.
  unfold clear. rewrite bind_lift_Returns.
  apply bind_ext. intros _ h2. apply bind_ext_l. apply forEachSubmodel_ext.
  intros s h3. apply bind_ext_l. apply IH.
Qed.

Lemma rollback_walk fuel : forall this h, rollback fuel this h = walk restore fuel this h.
Proof.
  induction fuel as [|fuel IH]; intros this h; [reflexivity|].
  cbn [rollback walk]. apply bind_ext. intros i h1.
  apply bind_ext. intros i' h2.
  apply bind_ext. intros _ h3. apply bind_ext_l. apply forEachSubmodel_ext.
  intros s h4. apply bind_ext_l. apply IH.
Qed.

(** On a graph without cycle and without saved values [_isChanged] returns
    [undefined]. *)
Lemma isChanged_clean n : forall l h,
  clean_ranked h n l = true -> _isChanged n l h = Ok VUndefined h.
Proof.
  induction n as [|n IH]; intros l h Hc; [discriminate|].
  cbn [clean_ranked] in Hc. destruct (h !! l) as [i|] eqn:Hi; [|discriminate].
  destruct (_savedFieldValues i) eqn:Hs; [discriminate|].
  rewrite forallb_forall in Hc.
  cbn [_isChanged]. unfold bind at 1. unfold get_instance at 1. rewrite Hi, Hs.
  destruct (forEachSubmodel_visits eq (fun _ _ => True) (fun submodel => _isChanged n submodel)
              (fun h => eq_refl) (fun a b c Hab Hbc => eq_trans Hab Hbc)
              (fun _ _ _ _ _ => I) l i h Hi)
    as (h' & Hrun & <- & _).
  - now intros h' <-.
  - intros s Hin h' <-. exists h. split; [|now split].
    apply IH, Hc. now apply list_elem_of_In.
  - exact Hrun.
Qed.

Lemma isChanged_clean_false n l h :
  clean_ranked h n l = true -> isChanged n l h = Ok false h.
Proof. intros Hc. unfold isChanged, bind. now rewrite (isChanged_clean n l h Hc). Qed.

Lemma rollback_returns n l h :
  restorable h n l = true ->
  exists h' i i',
    h !! l = Some i /\ restore i = Returns i' /\
    rollback n l h = Ok tt h' /\ h' !! l = Some i' /\ clean_ranked h' n l = true.
Proof.
  intros Hr.
  destruct (walk_returns restore restore_clean restore_id n l h Hr)
    as (h' & i & i' & Hi & Hs & Hw & _ & Hl & Hc).
  exists h', i, i'. rewrite rollback_walk. auto.
Qed.

Lemma commit_returns n l h :
  committable h n l = true ->
  exists h' i,
    h !! l = Some i /\
    commit n l h = Ok tt h' /\ h' !! l = Some (clear_saved i) /\ clean_ranked h' n l = true.
Proof.
  intros Hr.
  destruct (walk_returns clear clear_clean clear_id n l h Hr)
    as (h' & i & i' & Hi & [= <-] & Hw & _ & Hl & Hc).
  exists h', i. rewrite commit_walk. auto.
Qed.

Lemma descriptor_get_Ok l x h i : h !! l = Some i -> descriptor_get l x h = Ok (_getFieldValue i x) h.
Proof. intros Hi. unfold descriptor_get, bind, get_instance. now rewrite Hi. Qed.

(** What the setter leaves in the instance. *)
Lemma descriptor_set_instance registry fuel this field v h r h' :
  descriptor_set registry fuel this field v h = Ok r h' ->
  exists i,
    h !! this = Some i /\
    h' !! this =
      Some {| constructor := constructor i;
              _fieldValues :=
                Some (<[name field := r]>
                        (match _fieldValues i with Some fv => fv | None => ∅ end));
              _savedFieldValues :=
                Some (<[name field := _getFieldValue i field]>
                        (match _savedFieldValues i with Some s => s | None => ∅ end)) |}.
Proof.
  intros H. destruct (descriptor_set_allocated _ _ _ _ _ _ _ _ H) as [i Hi].
  exists i. split; [exact Hi|].
  exact (setFieldValue_instance registry (construct registry fuel) this field v false
           h r h' i (construct_extends registry fuel) Hi H).
Qed.

Lemma restore_after_set (i : Instance) (x : Field) (r : value) i' :
  restore {| constructor := constructor i;
             _fieldValues :=
               Some (<[name x := r]>
                       (match _fieldValues i with Some fv => fv | None => ∅ end));
             _savedFieldValues :=
               Some (<[name x := _getFieldValue i x]>
                       (match _savedFieldValues i with Some s => s | None => ∅ end)) |}
    = Returns i' ->
  _getFieldValue i' x = _getFieldValue i x.
Proof.
  cbn. intros [= <-]. unfold _getFieldValue at 1. cbn.
  erewrite lookup_union_Some_l; [reflexivity|]. apply lookup_insert_eq.
Qed.

Lemma getFieldValue_after_set (i : Instance) (x : Field) (r : value) saved :
  _getFieldValue {| constructor := constructor i;
                    _fieldValues :=
                      Some (<[name x := r]>
                              (match _fieldValues i with Some fv => fv | None => ∅ end));
                    _savedFieldValues := saved |} x = r.
Proof. unfold _getFieldValue. cbn. now rewrite lookup_insert_eq. Qed.

(** C4. Take a freshly deserialized instance, a field [x] whose name is not
    a name every object inherits, a graph of submodels without cycle, and
    values the type test can be applied to.  After an
    assignment to the field [x] and [rollback()], [x] has the value it had
    before the assignment and [isChanged()] is false; after one more
    assignment and [commit()], [isChanged()] is false and [x] has the
    value the assignment stored.  (With a plain object that has a truthy
    member [isOfType] as the value of a field, [rollback()] and [commit()]
    end in a TypeError, in [forEachSubmodel].) *)
Theorem rollback_restores_and_commit_keeps registry fuel C raw (x : Field) v
    h0 l h1 r h2 n :
  own_name (name x) = true ->
  deserialize registry fuel C raw h0 = Ok (VModel l) h1 ->
  descriptor_set registry fuel l x v h1 = Ok r h2 ->
  restorable h2 n l = true ->
  testable_heap h2 = true ->
  exists old h3,
    descriptor_get l x h1 = Ok old h1 /\
    rollback n l h2 = Ok tt h3 /\
    descriptor_get l x h3 = Ok old h3 /\
    isChanged n l h3 = Ok false h3 /\
    forall v' r' h4 m,
      descriptor_set registry fuel l x v' h3 = Ok r' h4 ->
      committable h4 m l = true ->
      testable_heap h4 = true ->
      exists h5,
        commit m l h4 = Ok tt h5 /\
        isChanged m l h5 = Ok false h5 /\
        descriptor_get l x h5 = Ok r' h5.
Proof.
  intros _ _ Hset Hr _.
  destruct (descriptor_set_instance _ _ _ _ _ _ _ _ Hset) as (i1 & Hi1 & Hi2).
  destruct (rollback_returns n l h2 Hr) as (h3 & i2 & i3 & Hi2' & Hres & Hrb & Hi3 & Hc3).
  rewrite Hi2 in Hi2'. injection Hi2' as <-.
  exists (_getFieldValue i1 x), h3.
  split; [now apply descriptor_get_Ok|]. split; [exact Hrb|].
  split; [rewrite <- (restore_after_set i1 x r i3 Hres); now apply descriptor_get_Ok|].
  split; [now apply isChanged_clean_false|].
  intros v' r' h4 m Hset' Hm _.
  destruct (descriptor_set_instance _ _ _ _ _ _ _ _ Hset') as (i3' & Hi3' & Hi4).
  destruct (commit_returns m l h4 Hm) as (h5 & i4 & Hi4' & Hcm & Hi5 & Hc5).
  rewrite Hi4 in Hi4'. injection Hi4' as <-.
  exists h5. split; [exact Hcm|]. split; [now apply isChanged_clean_false|].
  rewrite (descriptor_get_Ok l x h5 _ Hi5). f_equal.
  unfold clear_saved. cbn [constructor _fieldValues].
  apply (getFieldValue_after_set i3').
Qed.


(** *** Defaults *)

Definition has_saved_values (h : heap) (l : loc) : Prop :=
  exists i, h !! l = Some i /\ _savedFieldValues i <> None.

Definition default_callback registry new_ (this : loc) (field : Field) : M value :=
  match default field with
  | DefaultValue VUndefined => ret VUndefined
  | d =>
      i <- get_instance this ;;
      if negb (is_undefined (_getFieldValue i field)) then ret VUndefined
      else
        let v := resolve d in
        if is_undefined v then ret VUndefined
        else _setFieldValue registry new_ this field v false ;;; ret VUndefined
  end.

Lemma is_undefined_true v : is_undefined v = true <-> v = VUndefined.
Proof. destruct v; cbn; split; congruence. Qed.

Lemma default_callback_inv registry new_ this field h r h' :
  default_callback registry new_ this field h = Ok r h' ->
  r = VUndefined /\
  ((h' = h /\
    (resolve (default field) = VUndefined \/
     exists i, h !! this = Some i /\ _getFieldValue i field <> VUndefined)) \/
   exists i u,
     h !! this = Some i /\ _getFieldValue i field = VUndefined /\
     resolve (default field) <> VUndefined /\
     _setFieldValue registry new_ this field (resolve (default field)) false h = Ok u h').
Proof.
  unfold default_callback. intros H.
  assert (Hbody :
    (i <- get_instance this ;;
     if negb (is_undefined (_getFieldValue i field)) then ret VUndefined
     else
       let v := resolve (default field) in
       if is_undefined v then ret VUndefined
       else _setFieldValue registry new_ this field v false ;;; ret VUndefined) h = Ok r h' ->
    r = VUndefined /\
    ((h' = h /\
      (resolve (default field) = VUndefined \/
       exists i, h !! this = Some i /\ _getFieldValue i field <> VUndefined)) \/
     exists i u,
       h !! this = Some i /\ _getFieldValue i field = VUndefined /\
       resolve (default field) <> VUndefined /\
       _setFieldValue registry new_ this field (resolve (default field)) false h = Ok u h')).
  { clear H. intros H. apply bind_Ok in H as (i & h1 & Hget & H).
    apply get_instance_Ok in Hget as [Hi <-].
    destruct (is_undefined (_getFieldValue i field)) eqn:Hv; cbn [negb] in H.
    - cbv zeta in H. destruct (is_undefined (resolve (default field))) eqn:Hd.
      + apply ret_Ok in H as [<- <-]. apply is_undefined_true in Hd. auto.
      + apply bind_Ok in H as (u & h2 & Hset & H). apply ret_Ok in H as [<- <-].
        split; [reflexivity|]. right. exists i, u. split; [exact Hi|].
        split; [now apply is_undefined_true|]. split; [|exact Hset].
        intros Heq. rewrite Heq in Hd. discriminate.
    - apply ret_Ok in H as [<- <-]. split; [reflexivity|]. left. split; [reflexivity|].
      right. exists i. split; [exact Hi|]. intros Heq. rewrite Heq in Hv. discriminate. }
  destruct (default field) as [[]|]; try exact (Hbody H).
  apply ret_Ok in H as [<- <-]. auto.
Qed.

Lemma getFieldValue_after_set_ne (i : Instance) (x g : Field) (r : value) saved :
  name g <> name x ->
  _getFieldValue {| constructor := constructor i;
                    _fieldValues :=
                      Some (<[name x := r]>
                              (match _fieldValues i with Some fv => fv | None => ∅ end));
                    _savedFieldValues := saved |} g = _getFieldValue i g.
Proof.
  intros Hne. unfold _getFieldValue. cbn. rewrite lookup_insert_ne by congruence.
  destruct (_fieldValues i); [reflexivity | now rewrite lookup_empty].
Qed.

Lemma createValue_plain registry new_ (field : Field) v owner d h u h' :
  type field = TValue -> isArray field = false ->
  createValue registry new_ field v owner d h = Ok u h' -> u = v.
Proof.
  intros Ht Ha. unfold createValue. rewrite Ht, Ha.
  destruct v; cbn; now intros [= <- _].
Qed.

Lemma setFieldValue_created registry new_ this (field : Field) v d h u h' :
  _setFieldValue registry new_ this field v d h = Ok u h' ->
  exists h0 h1, createValue registry new_ field v this d h0 = Ok u h1.
Proof.
  unfold _setFieldValue. intros H.
  apply bind_Ok in H as (? & h0 & _ & H). apply bind_Ok in H as (v' & h1 & Hc & H).
  apply bind_Ok in H as (? & ? & _ & H). apply bind_Ok in H as (? & ? & _ & H).
  apply ret_Ok in H as [<- _]. eauto.
Qed.

Section Defaults.

Variable registry : option (list (string * Class)).
Variable new_ : Class -> value -> bool -> M value.
Hypothesis new_extends : forall C object d, extending (new_ C object d).
Variable this : loc.

Lemma set_gives_saved_values field v h u h' i :
  h !! this = Some i ->
  _setFieldValue registry new_ this field v false h = Ok u h' ->
  has_saved_values h' this.
Proof.
  intros Hi Hset. eexists.
  split; [apply (setFieldValue_instance _ _ _ _ _ _ _ _ _ _ new_extends Hi Hset)|].
  discriminate.
Qed.

Lemma default_callback_keeps_saved field h r h' :
  has_saved_values h this ->
  default_callback registry new_ this field h = Ok r h' ->
  has_saved_values h' this.
Proof.
  intros Hsaved H.
  apply default_callback_inv in H as [_ [[-> _]|(i & u & Hi & _ & _ & Hset)]];
    [exact Hsaved|].
  exact (set_gives_saved_values _ _ _ _ _ _ Hi Hset).
Qed.

Lemma defaults_keep_saved fields : forall h r h',
  has_saved_values h this ->
  forEachField_loop (default_callback registry new_ this) fields h = Ok r h' ->
  has_saved_values h' this.
Proof.
  induction fields as [|f fields IH]; intros h r h' Hsaved H.
  - apply ret_Ok in H as [_ <-]. exact Hsaved.
  - cbn [forEachField_loop] in H. apply bind_Ok in H as (r1 & h1 & Hf & H).
    pose proof (default_callback_keeps_saved _ _ _ _ Hsaved Hf) as Hsaved1.
    apply default_callback_inv in Hf as [-> _]. exact (IH _ _ _ Hsaved1 H).
Qed.

Lemma defaults_save fields : forall h r h' i,
  h !! this = Some i -> _fieldValues i = None ->
  (exists field, field ∈ fields /\ resolve (default field) <> VUndefined) ->
  forEachField_loop (default_callback registry new_ this) fields h = Ok r h' ->
  has_saved_values h' this.
Proof.
  induction fields as [|f fields IH]; intros h r h' i Hi Hfv (fd & Hin & Hd) H.
  - now apply elem_of_nil in Hin.
  - cbn [forEachField_loop] in H. apply bind_Ok in H as (r1 & h1 & Hf & H).
    apply default_callback_inv in Hf
      as [-> [[-> [Hf|(i' & Hi' & Hv)]]|(i' & u & Hi' & _ & _ & Hset)]];
      cbn [is_undefined] in H.
    + apply (IH h r h' i Hi Hfv); [|exact H]. exists fd. split; [|exact Hd].
      apply elem_of_cons in Hin as [->|Hin]; [contradiction | exact Hin].
    + exfalso. apply Hv. rewrite Hi in Hi'. injection Hi' as <-.
      unfold _getFieldValue. now rewrite Hfv.
    + apply (defaults_keep_saved fields h1 r h'); [|exact H].
      exact (set_gives_saved_values _ _ _ _ _ _ Hi' Hset).
Qed.

Lemma defaults_leave_untouched fields : forall h r h',
  (forall field, field ∈ fields -> resolve (default field) = VUndefined) ->
  forEachField_loop (default_callback registry new_ this) fields h = Ok r h' ->
  h' = h.
Proof.
  induction fields as [|f fields IH]; intros h r h' Hnone H.
  - now apply ret_Ok in H as [_ <-].
  - cbn [forEachField_loop] in H. apply bind_Ok in H as (r1 & h1 & Hf & H).
    apply default_callback_inv in Hf as [-> [[-> _]|(i' & u & _ & _ & Hd & _)]];
      cbn [is_undefined] in H.
    + apply (IH _ _ _ (fun fd Hin => Hnone fd (list_elem_of_further _ _ _ Hin)) H).
    + exfalso. apply Hd, Hnone, list_elem_of_here.
Qed.

Lemma defaults_values fields : forall h r h' i,
  h !! this = Some i ->
  NoDup (name <$> fields) ->
  (forall field, field ∈ fields -> _getFieldValue i field = VUndefined) ->
  forEachField_loop (default_callback registry new_ this) fields h = Ok r h' ->
  exists i',
    h' !! this = Some i' /\
    (forall g : Field, name g ∉ name <$> fields -> _getFieldValue i' g = _getFieldValue i g) /\
    forall field, field ∈ fields -> type field = TValue -> isArray field = false ->
                  _getFieldValue i' field = resolve (default field).
Proof.
  induction fields as [|f fields IH]; intros h r h' i Hi Hnd Hundef H.
  - apply ret_Ok in H as [_ <-]. exists i. split; [exact Hi|]. split; [auto|].
    intros f Hf. now apply elem_of_nil in Hf.
  - cbn [fmap list_fmap] in Hnd. apply NoDup_cons in Hnd as [Hname Hnd].
    cbn [forEachField_loop] in H. apply bind_Ok in H as (r1 & h1 & Hf & H).
    apply default_callback_inv in Hf
      as [-> [[-> Hnoop]|(i0 & u & Hi0 & _ & _ & Hset)]]; cbn [is_undefined] in H.
    + (* nothing is assigned to [f] *)
      destruct (IH h r h' i Hi Hnd
                  (fun g Hg => Hundef g (list_elem_of_further _ _ _ Hg)) H)
        as (i' & Hi' & Hsame & Hvals).
      exists i'. split; [exact Hi'|]. split.
      * intros g Hg. cbn in Hg. apply not_elem_of_cons in Hg as [_ Hg]. now apply Hsame.
      * intros g Hg Ht Ha. apply elem_of_cons in Hg as [->|Hg]; [|now apply Hvals].
        rewrite (Hsame f Hname), (Hundef f (list_elem_of_here _ _)).
        destruct Hnoop as [->|(i0 & Hi0 & Hv)]; [reflexivity|].
        exfalso. apply Hv. rewrite Hi in Hi0. injection Hi0 as <-.
        apply Hundef, list_elem_of_here.
    + (* the default of [f] is assigned *)
      rewrite Hi in Hi0. injection Hi0 as <-.
      pose proof (setFieldValue_instance _ _ _ _ _ _ _ _ _ _ new_extends Hi Hset) as Hi1.
      destruct (IH h1 r h' _ Hi1 Hnd) as (i' & Hi' & Hsame & Hvals); [|exact H|].
      { intros g Hg. rewrite getFieldValue_after_set_ne.
        - apply Hundef. now apply list_elem_of_further.
        - intros Heq. apply Hname. rewrite <- Heq. now apply list_elem_of_fmap_2. }
      exists i'. split; [exact Hi'|]. split.
      * intros g Hg. cbn in Hg. apply not_elem_of_cons in Hg as [Hne Hg].
        rewrite (Hsame g Hg). now apply getFieldValue_after_set_ne.
      * intros g Hg Ht Ha. apply elem_of_cons in Hg as [->|Hg]; [|now apply Hvals].
        rewrite (Hsame f Hname), (getFieldValue_after_set i f u).
        destruct (setFieldValue_created _ _ _ _ _ _ _ _ _ Hset) as (h0 & h2 & Hc).
        exact (createValue_plain _ _ _ _ _ _ _ _ _ Ht Ha Hc).
Qed.

End Defaults.

Lemma has_saved_values_isChanged h l k :
  has_saved_values h l -> isChanged (S k) l h = Ok true h.
Proof.
  intros (i & Hi & Hs). unfold isChanged, bind. cbn [_isChanged].
  unfold bind, get_instance. rewrite Hi. now destruct (_savedFieldValues i).
Qed.

Lemma construct_without_input registry fuel C h l h' :
  construct registry fuel C VUndefined false h = Ok (VModel l) h' ->
  l = List.length h /\
  exists fuel' r,
    forEachField_loop (default_callback registry (construct registry fuel') l) (cfields C)
      (h ++ [{| constructor := C; _fieldValues := None; _savedFieldValues := None |}])%list
    = Ok r h'.
Proof.
  destruct fuel as [|fuel]; [discriminate|]. cbn [construct]. intros H.
  apply bind_Ok in H as (this & h1 & Halloc & H).
  unfold alloc in Halloc. injection Halloc as <- <-.
  apply bind_Ok in H as (r & h2 & Hdef & H). apply ret_Ok in H as [[= <-] <-].
  split; [reflexivity|]. exists fuel. unfold _applyDefaults in Hdef.
  apply bind_Ok in Hdef as (i0 & h3 & Hget & Hdef).
  apply get_instance_Ok in Hget as [Hi0 <-].
  rewrite list_lookup_middle in Hi0 by reflexivity. injection Hi0 as <-.
  exists r. exact Hdef.
Qed.

(** C3, as the code has it.  A construction without [isDeserializing]
    and without input gives every field of plain type the value its default
    resolves to (the producer called until its result is not a function).
    The defaults go through the assignment every other value goes through,
    so they are recorded as changes: the instance reports [isChanged()] true
    when the default of one of its fields resolves to a defined value, and
    false when none does. *)
Theorem defaults_are_recorded_as_changes registry fuel C h l h' :
  construct registry fuel C VUndefined false h = Ok (VModel l) h' ->
  (NoDup (name <$> cfields C) ->
   forall field, field ∈ cfields C -> type field = TValue -> isArray field = false ->
                 descriptor_get l field h' = Ok (resolve (default field)) h') /\
  ((exists field, field ∈ cfields C /\ resolve (default field) <> VUndefined) ->
   forall k, isChanged (S k) l h' = Ok true h') /\
  ((forall field, field ∈ cfields C -> resolve (default field) = VUndefined) ->
   forall k, isChanged (S k) l h' = Ok false h').
Proof.
  intros H. apply construct_without_input in H as (-> & fuel' & r & H).
  assert (Hnew : (h ++ [{| constructor := C; _fieldValues := None;
                           _savedFieldValues := None |}])%list !! List.length h
                 = Some {| constructor := C; _fieldValues := None;
                           _savedFieldValues := None |})
    by now apply list_lookup_middle.
  split; [|split].
  - intros Hnd f Hf Ht Ha.
    destruct (defaults_values registry (construct registry fuel')
                (construct_extends registry fuel') (List.length h) (cfields C)
                _ r h' _ Hnew Hnd (fun _ _ => eq_refl) H) as (i' & Hi' & _ & Hvals).
    rewrite (descriptor_get_Ok _ f _ _ Hi'). now rewrite (Hvals f Hf Ht Ha).
  - intros Hsome k. apply has_saved_values_isChanged.
    exact (defaults_save registry (construct registry fuel') (construct_extends registry fuel')
             (List.length h) (cfields C) _ r h' _ Hnew eq_refl Hsome H).
  - intros Hnone k.
    apply (defaults_leave_untouched registry (construct registry fuel') (List.length h)) in H;
      [|exact Hnone].
    subst h'. apply isChanged_clean_false. cbn [clean_ranked]. rewrite Hnew. cbn.
    apply forallb_forall. intros s Hs. apply list_elem_of_In in Hs.
    unfold field_submodels in Hs. apply list_elem_of_bind in Hs as (f & Hs & _).
    cbn in Hs. now apply elem_of_nil in Hs.
Qed.

Lemma defaults_are_recorded_as_changes_witness :
  isChanged 1 0 (heap_of (construct movies 1 Movie VUndefined false []))
  = Ok true (heap_of (construct movies 1 Movie VUndefined false [])).
Proof.
  refine (proj1 (proj2 (defaults_are_recorded_as_changes movies 1 Movie [] 0 _ _)) _ 0).
  - vm_compute. reflexivity.
  - exists year. split; [|discriminate]. cbn. apply elem_of_cons. right.
    apply list_elem_of_here.
Defined.

(** C3 fails as stated: a movie constructed from no input has its [year]
    from the default, and reports [isChanged()] true. *)
Lemma default_counts_as_change :
  exists l h,
    construct movies 1 Movie VUndefined false [] = Ok (VModel l) h /\
    descriptor_get l year h = Ok (VNumber 2000) h /\
    isChanged 1 l h = Ok true h.
Proof. exists 0. eexists. vm_compute. repeat split. Qed.





Definition inception_1 : heap := heap_of (deserialize movies 2 Movie inception []).
Definition inception_2 : heap :=
  heap_of (descriptor_set movies 2 0 title (VString "Tenet") inception_1).

Lemma rollback_restores_and_commit_keeps_witness :
  exists old h,
    descriptor_get 0 title inception_1 = Ok old inception_1 /\
    rollback 2 0 inception_2 = Ok tt h /\
    descriptor_get 0 title h = Ok old h /\
    isChanged 2 0 h = Ok false h.
Proof.
  destruct (rollback_restores_and_commit_keeps movies 2 Movie inception title
              (VString "Tenet") [] 0 inception_1 (VString "Tenet") inception_2 2)
    as (old & h & Hold & Hrb & Hget & Hch & _); [vm_compute; reflexivity..|].
  exists old, h. auto.
Defined.

(** *** Construction from what is not an object *)

Lemma construct_non_object registry fuel C v isDeserializing h :
  typeof v <> "object" -> v <> VUndefined ->
  construct registry (S fuel) C v isDeserializing h = Err TypeMismatch.
Proof. destruct v; cbn; intros Ht Hu; try reflexivity; contradiction. Qed.

Lemma construct_incompatible_model registry fuel C l i isDeserializing h :
  h !! l = Some i -> isOfType (constructor i) (getName C) = false ->
  construct registry (S fuel) C (VModel l) isDeserializing h = Err TypeMismatch.
Proof.
  intros Hi Hty. cbn [construct]. unfold bind at 1. cbn [alloc typeof String.eqb negb].
  cbn. unfold bind, get_instance. rewrite (lookup_app_l_Some _ _ _ _ Hi). now rewrite Hty.
Qed.

(** C9: what the constructor does with [null].  A boolean, a number or a
    string is refused with 'Type mismatch', and so is an instance of a model
    that is not of the constructed type ([construct_incompatible_model]);
    but [typeof null] is ['object'], so that [null] passes the test and the
    read of [object._type] raises the TypeError of the runtime. *)
Theorem construct_from_null_is_not_a_type_mismatch registry fuel C isDeserializing h :
  construct registry (S fuel) C VNull isDeserializing h = Err NativeTypeError /\
  (forall b, construct registry (S fuel) C (VBool b) isDeserializing h = Err TypeMismatch) /\
  (forall n, construct registry (S fuel) C (VNumber n) isDeserializing h = Err TypeMismatch) /\
  (forall s, construct registry (S fuel) C (VString s) isDeserializing h = Err TypeMismatch).
Proof. repeat split. Qed.

(** *** Changes of submodels *)

(** A field that holds an instance with saved values is changed. *)
Lemma fieldIsChanged_of_changed_submodel p i (f : Field) s h k :
  h !! p = Some i -> _getFieldValue i f = VModel s -> has_saved_values h s ->
  fieldIsChanged (S k) p f h = Ok true h.
Proof.
  intros Hi Hv Hs. unfold fieldIsChanged, bind at 1, get_instance at 1. rewrite Hi.
  destruct (match _savedFieldValues i with
            | Some saved => bool_decide (is_Some (saved !! name f))
            | None => false end); [reflexivity|].
  rewrite Hv. cbn [is_undefined findFromOneOrMany]. unfold bind at 1. unfold bind at 1.
  unfold bind at 1. now rewrite (has_saved_values_isChanged h s k Hs).
Qed.

Lemma find_loop_result predicate values h r h' :
  (forall v h a h', predicate v h = Ok a h' -> truthy a = true -> isModel v = true) ->
  find_loop predicate values h = Ok r h' -> r = VUndefined \/ isModel r = true.
Proof.
  intros Hp. revert h. induction values as [|v vs IH]; intros h H.
  - apply ret_Ok in H as [<- _]. now left.
  - cbn [find_loop] in H. apply bind_Ok in H as (a & h1 & Hv & H).
    destruct (truthy a) eqn:Ha.
    + apply ret_Ok in H as [<- _]. right. exact (Hp _ _ _ _ Hv Ha).
    + exact (IH _ H).
Qed.

Lemma findFromOneOrMany_result predicate v h r h' :
  (forall v h a h', predicate v h = Ok a h' -> truthy a = true -> isModel v = true) ->
  findFromOneOrMany v predicate h = Ok r h' -> r = VUndefined \/ isModel r = true.
Proof.
  intros Hp H.
  assert (Hone : (accepted <- predicate v ;;
                  if truthy accepted then ret v else ret VUndefined) h = Ok r h' ->
                 r = VUndefined \/ isModel r = true).
  { clear H. intros H. apply bind_Ok in H as (a & h1 & Hv & H).
    destruct (truthy a) eqn:Ha; apply ret_Ok in H as [<- _]; [right | now left].
    exact (Hp _ _ _ _ Hv Ha). }
  destruct v; try exact (Hone H). exact (find_loop_result _ _ _ _ _ Hp H).
Qed.

(** What [forEachSubmodel] returns is a submodel, or [undefined]: never
    the [true] that [isChanged] compares it with. *)
Lemma forEachSubmodel_result this func h r h' :
  forEachSubmodel this func h = Ok r h' -> r = VUndefined \/ isModel r = true.
Proof.
  unfold forEachSubmodel, forEachField. intros H.
  apply bind_Ok in H as (i0 & h0 & _ & H). revert h0 H.
  induction (cfields (constructor i0)) as [|f fields IH]; intros h0 H.
  - apply ret_Ok in H as [<- _]. now left.
  - cbn [forEachField_loop] in H. apply bind_Ok in H as (r1 & h1 & Hf & H).
    destruct (is_undefined r1) eqn:Hr1; [exact (IH _ H)|].
    apply ret_Ok in H as [<- _].
    apply bind_Ok in Hf as (i & h2 & _ & Hf).
    apply findFromOneOrMany_result in Hf; [exact Hf|].
    intros v h3 a h4 Hv Ha. destruct v; try reflexivity;
      apply ret_Ok in Hv as [<- _]; discriminate.
Qed.

(** [isChanged()] is true of an instance only when the instance itself has
    saved values. *)
Lemma isChanged_true_only_with_saved_values fuel p h h' :
  isChanged fuel p h = Ok true h' -> has_saved_values h p.
Proof.
  unfold isChanged. intros H. apply bind_Ok in H as (r & h1 & Hr & H).
  apply ret_Ok in H as [Hb _]. destruct fuel as [|fuel]; [discriminate|].
  cbn [_isChanged] in Hr. apply bind_Ok in Hr as (i & h2 & Hget & Hr).
  apply get_instance_Ok in Hget as [Hi <-]. exists i. split; [exact Hi|].
  destruct (_savedFieldValues i); [discriminate|]. exfalso.
  apply forEachSubmodel_result in Hr as [->|Hm]; [discriminate|].
  destruct r; try discriminate.
Qed.

(** The program of C1: of a deserialized movie, whose technical
    specifications stay as they are, the title of the one sequel is
    assigned; then the movie is asked whether its field [sequels] is
    changed and whether it is changed. *)
Definition sequel_title_assignment : M (bool * bool) :=
  movie <- deserialize movies 2 Movie inception ;;
  match movie with
  | VModel p =>
      the_sequels <- descriptor_get p sequels ;;
      match the_sequels with
      | VArray [VModel s] =>
          descriptor_set movies 1 s title (VString "Inception: the sequel") ;;;
          field_changed <- fieldIsChanged 2 p sequels ;;
          changed <- isChanged 2 p ;;
          ret (field_changed, changed)
      | _ => throw TypeMismatch
      end
  | _ => throw TypeMismatch
  end.

(** C1 at that input: [fieldIsChanged(sequels)] is true and [isChanged()]
    is false.  [_isChanged] gets the changed submodel itself from
    [forEachSubmodel], and [isChanged] compares it with [true]. *)
Theorem change_of_submodel_is_not_seen_by_isChanged :
  exists h, sequel_title_assignment [] = Ok (true, false) h.
Proof. eexists. vm_compute. reflexivity. Qed.

(** *** Round trip through the wire representation *)

Inductive wire_entries (P : Field -> value -> Prop)
    : list Field -> list (string * value) -> Prop :=
| wire_nil : wire_entries P [] []
| wire_skip field fields es :
    wire_entries P fields es -> wire_entries P (field :: fields) es
| wire_keep field fields es w :
    P field w -> wire_entries P fields es ->
    wire_entries P (field :: fields) ((serializedKey field, w) :: es).

Section RoundTrip.

Variable r : list (string * Class).

(** A class the registry has under its name, whose fields have distinct
    names and distinct keys on the wire, none of them the reserved
    [_type]. *)
Definition class_ok (D : Class) : Prop :=
  obj_get r (cname D) = Some D /\
  NoDup (name <$> cfields D) /\
  NoDup (serializedKey <$> cfields D) /\
  "_type" ∉ serializedKey <$> cfields D.

(** What a field of plain type holds, as far as [serializeValue] looks
    into it: an instance there satisfies [P]. *)
Definition plain_ok (P : loc -> Prop) (v : value) : Prop :=
  match v with VModel s => P s | _ => True end.

(** What a field of model type [m] holds: an instance of the model the
    registry has under [m]. *)
Definition model_ok (P : loc -> Prop) (h : heap) (m : string) (v : value) : Prop :=
  exists s i Cm,
    v = VModel s /\ h !! s = Some i /\ obj_get r m = Some Cm /\
    isOfType (constructor i) (cname Cm) = true /\ P s.

(** The value of a field is one that [createValue] makes for the field. *)
Definition conforms (P : loc -> Prop) (h : heap) (field : Field) (v : value) : Prop :=
  match v with
  | VUndefined => True
  | _ =>
      match type field, isArray field with
      | TValue, false =>
          match v with
          | VArray values => Forall (plain_ok P) values
          | _ => plain_ok P v
          end
      | TValue, true => exists values, v = VArray values /\ Forall (plain_ok P) values
      | TModel m, false => model_ok P h m v
      | TModel m, true => exists values, v = VArray values /\ Forall (model_ok P h m) values
      end
  end.

(** The instance at [l] and the instances below it, fewer than [n] links
    away and none on a cycle, are of registered classes and hold values
    that conform to their fields. *)
Fixpoint serializable (h : heap) (n : nat) (l : loc) : Prop :=
  match n with
  | 0 => False
  | S n' =>
      exists i,
        h !! l = Some i /\ class_ok (constructor i) /\
        Forall (fun field => conforms (serializable h n') h field (_getFieldValue i field))
               (cfields (constructor i))
  end.

(** Plain data on the wire: what [serializeValue] leaves as it is. *)
Definition plain (w : value) : Prop :=
  match w with
  | VUndefined | VModel _ => False
  | VArray ws => Forall (fun w => isModel w = false) ws
  | _ => True
  end.

Definition wire_field (wire_model : string -> value -> Prop) (field : Field) (w : value)
    : Prop :=
  match type field, isArray field with
  | TValue, false => plain w
  | TValue, true => exists ws, w = VArray ws /\ Forall (fun w => isModel w = false) ws
  | TModel m, false => wire_model m w
  | TModel m, true => exists ws, w = VArray ws /\ Forall (wire_model m) ws
  end.

(** [w] is the serialization of an instance of class [D], with
    serializations of depth less than [n] inside. *)
Fixpoint wired (n : nat) (D : Class) (w : value) : Prop :=
  match n with
  | 0 => False
  | S n' =>
      class_ok D /\
      exists es,
        w = VObject (("_type", VString (cname D)) :: es) /\
        wire_entries
          (wire_field (fun m w =>
             exists Cm D', obj_get r m = Some Cm /\
                           isOfType D' (cname Cm) = true /\ wired n' D' w))
          (cfields D) es
  end.

Definition wire_model (n : nat) (m : string) (w : value) : Prop :=
  exists Cm D', obj_get r m = Some Cm /\ isOfType D' (cname Cm) = true /\ wired n D' w.

Lemma wired_isModel n D w : wired n D w -> isModel w = false.
Proof. destruct n; [contradiction|]. now intros (_ & es & -> & _). Qed.

Lemma wired_defined n D w : wired n D w -> w <> VUndefined.
Proof. destruct n; [contradiction|]. now intros (_ & es & -> & _). Qed.

Lemma obj_set_fresh {A} (o : list (string * A)) k v :
  k ∉ obj_keys o -> obj_set o k v = (o ++ [(k, v)])%list.
Proof.
  unfold obj_keys. induction o as [|[k' v'] o IH]; cbn; intros Hk; [reflexivity|].
  apply not_elem_of_cons in Hk as [Hne Hk].
  destruct (String.eqb_spec k' k) as [->|_]; [contradiction|]. now rewrite IH.
Qed.

Lemma mapM_Forall {A B} (f : A -> M B) (P : A -> Prop) (Q : B -> Prop) l h :
  (forall a, P a -> exists b, f a h = Ok b h /\ Q b) ->
  Forall P l -> exists bs, mapM f l h = Ok bs h /\ Forall Q bs.
Proof.
  intros Hf. induction 1 as [|a l Ha _ (bs & Hbs & HQ)].
  - exists []. split; [reflexivity | constructor].
  - destruct (Hf a Ha) as (b & Hb & HQb). exists (b :: bs).
    split; [|now constructor]. cbn [mapM]. unfold bind. rewrite Hb, Hbs. reflexivity.
Qed.

(** **** From an instance to the wire *)

Section ToWire.

Variable h : heap.
Variable n : nat.
Hypothesis IH : forall l,
  serializable h n l ->
  exists i w, h !! l = Some i /\ serialize n l no_options h = Ok w h /\
              wired n (constructor i) w.

Lemma serializeScalar_plain v :
  plain_ok (serializable h n) v ->
  exists w, serializeScalar (serialize n) v no_options h = Ok w h /\ isModel w = false.
Proof.
  destruct v; try (intros _; eexists; split; reflexivity).
  cbn [plain_ok serializeScalar]. intros Hs.
  destruct (IH _ Hs) as (i & w & _ & Hw & Hwired).
  exists w. split; [exact Hw|]. exact (wired_isModel _ _ _ Hwired).
Qed.

Lemma serializeScalar_model m v :
  model_ok (serializable h n) h m v ->
  exists w, serializeScalar (serialize n) v no_options h = Ok w h /\ wire_model n m w.
Proof.
  intros (s & i & Cm & -> & Hi & Hm & Hty & Hs). cbn [serializeScalar].
  destruct (IH _ Hs) as (i' & w & Hi' & Hw & Hwired).
  rewrite Hi in Hi'. injection Hi' as <-.
  exists w. split; [exact Hw|]. now exists Cm, (constructor i).
Qed.

Lemma serializeValue_conforms (field : Field) v :
  v <> VUndefined ->
  conforms (serializable h n) h field v ->
  exists w, serializeValue (serialize n) field v no_options h = Ok w h /\
            wire_field (wire_model n) field w /\ w <> VUndefined.
Proof.
  intros Hv Hc. unfold conforms in Hc. unfold wire_field.
  assert (Harr : forall (P : value -> Prop) (Q : value -> Prop) values,
            (forall a, P a -> exists b,
               serializeScalar (serialize n) a no_options h = Ok b h /\ Q b) ->
            Forall P values ->
            exists ws, serializeValue (serialize n) field (VArray values) no_options h
                       = Ok (VArray ws) h /\ Forall Q ws).
  { intros P Q values HPQ HP.
    destruct (mapM_Forall (fun v => serializeScalar (serialize n) v no_options) P Q
                values h HPQ HP) as (ws & Hws & HQ).
    exists ws. split; [|exact HQ]. cbn [serializeValue]. unfold bind. now rewrite Hws. }
  destruct (type field) as [|m], (isArray field).
  - (* an array of plain data *)
    destruct v; try contradiction; destruct Hc as (values & Hv' & Hall); try discriminate.
    injection Hv' as ->.
    destruct (Harr _ _ _ serializeScalar_plain Hall) as (ws & Hws & HQ).
    exists (VArray ws). split; [exact Hws|]. split; [eauto | discriminate].
  - (* plain data *)
    destruct v as [| |b|z|str|es|values|s]; try contradiction;
      try (eexists; split; [reflexivity|]; split; [exact I | discriminate]).
    + destruct (Harr _ _ _ serializeScalar_plain Hc) as (ws & Hws & HQ).
      exists (VArray ws). split; [exact Hws|]. split; [exact HQ | discriminate].
    + destruct (IH _ Hc) as (i & w & _ & Hw & Hwired).
      exists w. split; [exact Hw|].
      split; [|exact (wired_defined _ _ _ Hwired)].
      destruct n; [contradiction|]. now destruct Hwired as (_ & es & -> & _).
  - (* an array of instances *)
    destruct v; try contradiction; destruct Hc as (values & Hv' & Hall); try discriminate.
    injection Hv' as ->.
    destruct (Harr _ _ _ (serializeScalar_model m) Hall) as (ws & Hws & HQ).
    exists (VArray ws). split; [exact Hws|]. split; [eauto | discriminate].
  - (* an instance *)
    destruct v; try contradiction;
      try (destruct Hc as (? & ? & ? & Hv' & _); discriminate).
    destruct (serializeScalar_model m _ Hc) as (w & Hw & Hwm).
    exists w. split; [exact Hw|]. split; [exact Hwm|].
    destruct Hwm as (Cm & D' & _ & _ & Hwired). exact (wired_defined _ _ _ Hwired).
Qed.

Lemma serialize_fields_wire this i :
  h !! this = Some i ->
  forall fields acc,
    Forall (fun field => conforms (serializable h n) h field (_getFieldValue i field)) fields ->
    NoDup (serializedKey <$> fields) ->
    (forall field, field ∈ fields -> serializedKey field ∉ obj_keys acc) ->
    exists es,
      serialize_fields (serialize n) n this no_options fields acc h = Ok (acc ++ es)%list h /\
      wire_entries (wire_field (wire_model n)) fields es.
Proof.
  intros Hi. induction fields as [|f fields IHf]; intros acc Hall Hnd Hfresh.
  - exists []. split; [|constructor]. cbn. now rewrite app_nil_r.
  - apply Forall_cons in Hall as [Hf Hall].
    cbn [fmap list_fmap] in Hnd. apply NoDup_cons in Hnd as [Hk Hnd].
    cbn [serialize_fields]. unfold selected. cbn [includeFields no_options].
    unfold bind at 1. cbn [ret]. unfold bind at 1. unfold get_instance at 1. rewrite Hi.
    destruct (is_undefined (_getFieldValue i f)) eqn:Hu;
      [apply is_undefined_true in Hu
      |assert (Hd : _getFieldValue i f <> VUndefined)
         by (intros Heq; rewrite Heq in Hu; discriminate)].
    + rewrite Hu. cbn [serializeValue includeUndefinedFields no_options].
      unfold bind at 1. cbn [ret is_undefined].
      destruct (IHf acc Hall Hnd) as (es & Hes & Hwire).
      { intros g Hg. apply Hfresh. apply elem_of_cons. now right. }
      exists es. split; [exact Hes | now constructor].
    + destruct (serializeValue_conforms f _ Hd Hf) as (w & Hw & Hwf & Hwd).
      unfold bind at 1. rewrite Hw.
      replace (is_undefined w) with false by (now destruct w).
      rewrite obj_set_fresh by (apply Hfresh, list_elem_of_here).
      destruct (IHf (acc ++ [(serializedKey f, w)])%list Hall Hnd) as (es & Hes & Hwire).
      { intros g Hg. unfold obj_keys. rewrite fmap_app. cbn.
        intros Hin. apply elem_of_app in Hin as [Hin|Hin].
        - revert Hin. apply Hfresh. apply elem_of_cons. now right.
        - apply list_elem_of_singleton in Hin. apply Hk. rewrite <- Hin.
          now apply list_elem_of_fmap_2. }
      exists ((serializedKey f, w) :: es). split; [|now constructor].
      rewrite Hes. now rewrite <- app_assoc.
Qed.

End ToWire.

Lemma serialize_wired h n : forall l,
  serializable h n l ->
  exists i w, h !! l = Some i /\ serialize n l no_options h = Ok w h /\
              wired n (constructor i) w.
Proof.
  induction n as [|n IH]; intros l Hs; [contradiction|].
  destruct Hs as (i & Hi & Hok & Hall). exists i.
  destruct Hok as (Hreg & Hnames & Hkeys & Htype).
  destruct (serialize_fields_wire h n IH l i Hi (cfields (constructor i))
              [("_type", VString (getName (constructor i)))] Hall Hkeys)
    as (es & Hes & Hwire).
  { intros f Hf Hin. cbn in Hin. apply list_elem_of_singleton in Hin.
    apply Htype. rewrite <- Hin. now apply list_elem_of_fmap_2. }
  exists (VObject (("_type", VString (cname (constructor i))) :: es)).
  split; [exact Hi|]. split.
  - cbn [serialize]. unfold bind at 1. unfold get_instance at 1. rewrite Hi.
    unfold bind at 1. rewrite Hes. reflexivity.
  - cbn [wired]. split; [now repeat split|]. exists es. split; [reflexivity | exact Hwire].
Qed.

(** **** From the wire to an instance *)

(** The fuel of the constructor for a serialization of depth [n]: two
    constructor calls for every level, one of the declared class and one of
    the class the tag names. *)
Fixpoint fuel_for (n : nat) : nat :=
  match n with
  | 0 => 0
  | S n' => S (S (fuel_for n'))
  end.

Definition agrees (lo hi : nat) (h h2 : heap) : Prop :=
  forall k, lo <= k < hi -> h2 !! k = h !! k.

(** [l'] is an instance made from [w] by a computation from [h] to [h']:
    it is new, and wherever the new part of the heap is as in [h'], it
    serializes to [w] again and has no saved value down to its leaves. *)
Definition rebuilt (n : nat) (D : Class) (w : value) (h h' : heap) (l' : loc) : Prop :=
  extends h h' /\
  List.length h <= l' < List.length h' /\
  forall h2, agrees (List.length h) (List.length h') h' h2 ->
    (exists i', h2 !! l' = Some i' /\ constructor i' = D) /\
    serialize n l' no_options h2 = Ok w h2 /\
    clean_ranked h2 n l' = true.

Lemma wire_entries_keys P fields es :
  wire_entries P fields es -> forall k, k ∈ es.*1 -> k ∈ serializedKey <$> fields.
Proof.
  induction 1 as [|f fs es _ IH|f fs es w _ _ IH]; intros k Hk.
  - now apply elem_of_nil in Hk.
  - apply elem_of_cons. right. now apply IH.
  - cbn in Hk. apply elem_of_cons in Hk as [->|Hk]; apply elem_of_cons; [now left|].
    right. now apply IH.
Qed.

Lemma obj_get_absent {A} (o : list (string * A)) k : k ∉ o.*1 -> obj_get o k = None.
Proof. intros Hk. now apply obj_get_None. Qed.

Lemma filter_without_type (es : list (string * value)) :
  "_type" ∉ es.*1 -> List.filter (fun e => negb (String.eqb e.1 "_type")) es = es.
Proof.
  induction es as [|[k v] es IH]; cbn; intros Hk; [reflexivity|].
  apply not_elem_of_cons in Hk as [Hne Hk].
  destruct (String.eqb_spec k "_type") as [->|_]; [contradiction|]. cbn. now rewrite IH.
Qed.

Lemma getFieldBySerializedName_key (D : Class) (field : Field) :
  NoDup (serializedKey <$> cfields D) -> field ∈ cfields D ->
  getFieldBySerializedName D (serializedKey field) = Some field.
Proof.
  unfold getFieldBySerializedName. induction (cfields D) as [|g fs IH]; intros Hnd Hin.
  - now apply elem_of_nil in Hin.
  - cbn in Hnd. apply NoDup_cons in Hnd as [Hk Hnd]. cbn [find].
    apply elem_of_cons in Hin as [->|Hin]; [now rewrite String.eqb_refl|].
    destruct (String.eqb_spec (serializedKey g) (serializedKey field)) as [Heq|_].
    + exfalso. apply Hk. rewrite Heq. now apply list_elem_of_fmap_2.
    + now apply IH.
Qed.

Lemma mapM_ret_id {A} (f : A -> M A) (l : list A) h :
  Forall (fun a => f a h = Ok a h) l -> mapM f l h = Ok l h.
Proof.
  induction 1 as [|a l Ha _ IH]; [reflexivity|].
  cbn [mapM]. unfold bind. now rewrite Ha, IH.
Qed.

Lemma serializeValue_plain serialize_ (field : Field) w h :
  plain w -> serializeValue serialize_ field w no_options h = Ok w h.
Proof.
  destruct w; try contradiction; try reflexivity. cbn [plain serializeValue]. intros Hall.
  unfold bind. rewrite mapM_ret_id; [reflexivity|].
  eapply Forall_impl; [exact Hall|]. intros w Hw. now destruct w.
Qed.

Lemma submodels_of_plain w : plain w -> submodels_of w = [].
Proof.
  destruct w; try contradiction; try reflexivity. cbn [plain submodels_of].
  induction 1 as [|w ws Hw _ IH]; [reflexivity|]. cbn. destruct w; try discriminate; exact IH.
Qed.

Lemma submodels_of_models ls : submodels_of (VArray (VModel <$> ls)) = ls.
Proof. cbn. induction ls as [|l ls IH]; [reflexivity|]. cbn. now rewrite IH. Qed.

Lemma agrees_shrink lo lo' hi hi' h h' h2 :
  lo <= lo' -> hi' <= hi -> hi' <= List.length h' ->
  (forall k x, lo' <= k -> h' !! k = Some x -> h !! k = Some x) ->
  agrees lo hi h h2 -> agrees lo' hi' h' h2.
Proof.
  intros Hlo Hhi Hlen Hsame Hag k Hk. rewrite Hag by lia.
  destruct (h' !! k) as [x|] eqn:Hx.
  - now apply Hsame; [lia|].
  - apply lookup_ge_None in Hx. lia.
Qed.

Section FromWire.

Variable n : nat.
Hypothesis IH : forall D w B h,
  wired n D w -> isOfType D (cname B) = true ->
  exists l' h',
    construct (Some r) (fuel_for n) B w true h = Ok (VModel l') h' /\
    rebuilt n D w h h' l'.

(** [cv] is the value [createValue] made from [w] for [field], by a
    computation from [h] to [h']. *)
Definition made (field : Field) (cv w : value) (h h' : heap) : Prop :=
  extends h h' /\
  forall h2, agrees (List.length h) (List.length h') h' h2 ->
    serializeValue (serialize n) field cv no_options h2 = Ok w h2 /\
    Forall (fun s => clean_ranked h2 n s = true) (submodels_of cv).

Lemma extends_length h h' : extends h h' -> List.length h <= List.length h'.
Proof. now intros [? _]. Qed.

Lemma agrees_prefix h h1 h' h2 :
  extends h h1 -> extends h1 h' ->
  agrees (List.length h) (List.length h') h' h2 ->
  agrees (List.length h) (List.length h1) h1 h2.
Proof.
  intros H1 H2. apply agrees_shrink; [lia | now apply extends_length | lia |].
  intros k x _ Hk. exact (extends_lookup _ _ _ _ H2 Hk).
Qed.

Lemma agrees_suffix h h1 h' h2 :
  extends h h1 ->
  agrees (List.length h) (List.length h') h' h2 ->
  agrees (List.length h1) (List.length h') h' h2.
Proof.
  intros H1. apply agrees_shrink; [now apply extends_length | lia | lia | auto].
Qed.

Lemma createScalar_model m w h :
  wire_model n m w ->
  exists l' h',
    createScalar (Some r) (construct (Some r) (fuel_for n)) (TModel m) w true h
      = Ok (VModel l') h' /\
    extends h h' /\
    forall h2, agrees (List.length h) (List.length h') h' h2 ->
      serialize n l' no_options h2 = Ok w h2 /\ clean_ranked h2 n l' = true.
Proof.
  intros (Cm & D' & Hm & Hty & Hw).
  destruct (IH D' w Cm h Hw Hty) as (l' & h' & Hc & Hext & _ & Hre).
  exists l', h'. split; [|split; [exact Hext|]].
  - cbn [createScalar]. unfold bind. cbn. now rewrite Hm.
  - intros h2 Hag. destruct (Hre h2 Hag) as (_ & Hs & Hc'). now split.
Qed.

Lemma mapM_create_models m ws :
  Forall (wire_model n m) ws ->
  forall h, exists ls h',
    mapM (fun v => createScalar (Some r) (construct (Some r) (fuel_for n)) (TModel m) v true)
      ws h = Ok (VModel <$> ls) h' /\
    extends h h' /\
    forall h2, agrees (List.length h) (List.length h') h' h2 ->
      Forall2 (fun l w => serialize n l no_options h2 = Ok w h2 /\
                          clean_ranked h2 n l = true) ls ws.
Proof.
  induction 1 as [|w ws Hw _ IHws]; intros h.
  - exists [], h. split; [reflexivity|]. split; [apply modifies_only_refl | constructor].
  - destruct (createScalar_model m w h Hw) as (l1 & h1 & Hc1 & Hext1 & Hre1).
    destruct (IHws h1) as (ls & h' & Hcs & Hext' & Hre').
    exists (l1 :: ls), h'. split; [|split].
    + cbn [mapM]. unfold bind. rewrite Hc1, Hcs. reflexivity.
    + exact (modifies_only_trans _ _ _ _ Hext1 Hext').
    + intros h2 Hag. constructor.
      * apply Hre1. exact (agrees_prefix _ _ _ _ Hext1 Hext' Hag).
      * apply Hre'. exact (agrees_suffix _ _ _ _ Hext1 Hag).
Qed.

Lemma mapM_serialize_models ls ws h2 :
  Forall2 (fun l w => serialize n l no_options h2 = Ok w h2 /\
                      clean_ranked h2 n l = true) ls ws ->
  mapM (fun v => serializeScalar (serialize n) v no_options) (VModel <$> ls) h2 = Ok ws h2 /\
  Forall (fun s => clean_ranked h2 n s = true) ls.
Proof.
  induction 1 as [|l w ls ws [Hl Hc] _ [IHm IHc]]; [split; [reflexivity | constructor]|].
  split; [|now constructor].
  cbn [fmap list_fmap mapM serializeScalar]. unfold bind. now rewrite Hl, IHm.
Qed.

Lemma createValue_wire (field : Field) w this h :
  wire_field (wire_model n) field w ->
  exists cv h',
    createValue (Some r) (construct (Some r) (fuel_for n)) field w this true h = Ok cv h' /\
    w <> VUndefined /\ made field cv w h h'.
Proof.
  unfold wire_field, made. intros Hw.
  destruct (type field) as [|m] eqn:Ht, (isArray field) eqn:Ha.
  - (* an array of plain data *)
    destruct Hw as (ws & -> & Hall).
    exists (VArray ws), h. split; [|split; [discriminate|split; [apply modifies_only_refl|]]].
    + unfold createValue. rewrite Ha, Ht. unfold bind.
      rewrite mapM_ret_id; [reflexivity|]. now apply Forall_forall.
    + intros h2 _. split; [now apply serializeValue_plain | now rewrite submodels_of_plain].
  - (* plain data *)
    exists w, h. split; [|split; [|split; [apply modifies_only_refl|]]].
    + unfold createValue. rewrite Ha, Ht. now destruct w.
    + now destruct w.
    + intros h2 _. split; [now apply serializeValue_plain | now rewrite submodels_of_plain].
  - (* an array of instances *)
    destruct Hw as (ws & -> & Hall).
    destruct (mapM_create_models m ws Hall h) as (ls & h' & Hcs & Hext & Hre).
    exists (VArray (VModel <$> ls)), h'.
    split; [|split; [discriminate|split; [exact Hext|]]].
    + unfold createValue. rewrite Ha, Ht. unfold bind. now rewrite Hcs.
    + intros h2 Hag. destruct (mapM_serialize_models _ _ _ (Hre h2 Hag)) as [Hm Hc].
      split; [|now rewrite submodels_of_models].
      cbn [serializeValue]. unfold bind. now rewrite Hm.
  - (* an instance *)
    pose proof Hw as (Cm & D' & _ & _ & Hwired).
    destruct (createScalar_model m w h Hw) as (l' & h' & Hc & Hext & Hre).
    exists (VModel l'), h'.
    split; [|split; [exact (wired_defined _ _ _ Hwired)|split; [exact Hext|]]].
    + unfold createValue. rewrite Ha, Ht.
      destruct n; [contradiction|]. now destruct Hwired as (_ & es & -> & _).
    + intros h2 Hag. destruct (Hre h2 Hag) as [Hs Hcl].
      split; [exact Hs | now repeat constructor].
Qed.

Definition same_above (this : loc) (h h2 : heap) : Prop :=
  forall k, this < k < List.length h -> h2 !! k = h !! k.

Definition with_field (i : Instance) (field : Field) (cv : value) : Instance :=
  {| constructor := constructor i;
     _fieldValues :=
       Some (<[name field := cv]>
               (match _fieldValues i with Some fv => fv | None => ∅ end));
     _savedFieldValues := _savedFieldValues i |}.

Lemma getFieldValue_with_field_eq i (field : Field) cv :
  _getFieldValue (with_field i field cv) field = cv.
Proof. unfold _getFieldValue, with_field. cbn. now rewrite lookup_insert_eq. Qed.

Lemma getFieldValue_with_field_ne i (field g : Field) cv :
  name g <> name field ->
  _getFieldValue (with_field i field cv) g = _getFieldValue i g.
Proof.
  intros Hne. unfold _getFieldValue, with_field. cbn.
  rewrite lookup_insert_ne by congruence.
  destruct (_fieldValues i); [reflexivity | now rewrite lookup_empty].
Qed.

Lemma setFieldValue_deserializing new_ this (field : Field) w h cv h1 i :
  createValue (Some r) new_ field w this true h = Ok cv h1 ->
  extends h h1 -> h !! this = Some i ->
  _setFieldValue (Some r) new_ this field w true h
    = Ok cv (<[this := with_field i field cv]> h1).
Proof.
  intros Hc Hext Hi. unfold _setFieldValue. unfold bind at 1. cbn [ret].
  unfold bind at 1. rewrite Hc. unfold bind at 1. unfold get_instance.
  rewrite (extends_lookup _ _ _ _ Hext Hi). reflexivity.
Qed.

Lemma agrees_of_same_above this h h1 h' h2 :
  this < List.length h -> extends h h1 ->
  modifies_only (eq this) h1 h' ->
  same_above this h' h2 ->
  agrees (List.length h) (List.length h1) h1 h2.
Proof.
  intros Hthis Hext [Hlen Hmod] Hsame k Hk.
  rewrite Hsame by lia.
  destruct (h1 !! k) as [x|] eqn:Hx.
  - apply Hmod; [exact Hx | lia].
  - apply lookup_ge_None in Hx. lia.
Qed.

Lemma populate_wire (D : Class) (this : loc) :
  NoDup (serializedKey <$> cfields D) ->
  forall fields es,
    wire_entries (wire_field (wire_model n)) fields es ->
    (forall field, field ∈ fields -> field ∈ cfields D) ->
    NoDup (name <$> fields) -> NoDup (serializedKey <$> fields) ->
    forall h i,
      h !! this = Some i -> constructor i = D -> _savedFieldValues i = None ->
      (forall field, field ∈ fields -> _getFieldValue i field = VUndefined) ->
      exists h' i',
        populate (Some r) (construct (Some r) (fuel_for n)) this D true es h = Ok tt h' /\
        modifies_only (eq this) h h' /\
        h' !! this = Some i' /\ constructor i' = D /\ _savedFieldValues i' = None /\
        (forall g : Field, name g ∉ name <$> fields -> _getFieldValue i' g = _getFieldValue i g) /\
        forall h2, same_above this h' h2 -> h2 !! this = Some i' ->
          (forall acc,
              (forall field, field ∈ fields -> serializedKey field ∉ obj_keys acc) ->
              serialize_fields (serialize n) n this no_options fields acc h2
                = Ok (acc ++ es)%list h2) /\
          Forall (fun field =>
                    Forall (fun s => clean_ranked h2 n s = true)
                           (submodels_of (_getFieldValue i' field))) fields.
Proof.
  intros HkeysD fields es Hwire.
  induction Hwire as [|f fs es Hwire IHw|f fs es w Hw Hwire IHw];
    intros Hin Hnames Hkeys h i Hi HD Hclean Hundef.
  - (* no field left *)
    exists h, i. split; [reflexivity|]. split; [apply modifies_only_refl|].
    repeat split; auto. intros acc _. cbn. now rewrite app_nil_r.
  - (* a field that was left out *)
    cbn [fmap list_fmap] in Hnames, Hkeys.
    apply NoDup_cons in Hnames as [Hname Hnames]. apply NoDup_cons in Hkeys as [Hkey Hkeys].
    destruct (IHw (fun g Hg => Hin g (list_elem_of_further _ _ _ Hg)) Hnames Hkeys
                h i Hi HD Hclean (fun g Hg => Hundef g (list_elem_of_further _ _ _ Hg)))
      as (h' & i' & Hpop & Hmod & Hi' & HD' & Hclean' & Hsame & Hser).
    exists h', i'. repeat (split; [assumption|]). split.
    + intros g Hg. apply Hsame. cbn in Hg. now apply not_elem_of_cons in Hg as [_ Hg].
    + intros h2 Hab Hi2. destruct (Hser h2 Hab Hi2) as [Hfields Hsubs].
      assert (Hf : _getFieldValue i' f = VUndefined).
      { rewrite (Hsame f Hname). apply Hundef, list_elem_of_here. }
      split.
      * intros acc Hfresh. cbn [serialize_fields]. unfold selected.
        cbn [includeFields no_options]. unfold bind at 1. cbn [ret].
        unfold bind at 1. unfold get_instance at 1. rewrite Hi2, Hf.
        cbn [serializeValue includeUndefinedFields no_options]. unfold bind at 1.
        cbn [ret is_undefined]. apply Hfields.
        intros g Hg. apply Hfresh. now apply list_elem_of_further.
      * constructor; [rewrite Hf; constructor | exact Hsubs].
  - (* a field with its entry *)
    cbn [fmap list_fmap] in Hnames, Hkeys.
    apply NoDup_cons in Hnames as [Hname Hnames]. apply NoDup_cons in Hkeys as [Hkey Hkeys].
    destruct (createValue_wire f w this h Hw) as (cv & h1 & Hcreate & Hdef & Hext & Hmade).
    pose proof (lookup_lt_Some _ _ _ Hi) as Hthis.
    pose proof (extends_length _ _ Hext) as Hlen1.
    set (i1 := with_field i f cv).
    set (h1' := <[this := i1]> h1).
    assert (Hi1 : h1' !! this = Some i1) by (apply list_lookup_insert_eq; lia).
    destruct (IHw (fun g Hg => Hin g (list_elem_of_further _ _ _ Hg)) Hnames Hkeys
                h1' i1 Hi1 HD Hclean)
      as (h' & i' & Hpop & Hmod & Hi' & HD' & Hclean' & Hsame & Hser).
    { intros g Hg. unfold i1. rewrite getFieldValue_with_field_ne.
      - apply Hundef. now apply list_elem_of_further.
      - intros Heq. apply Hname. rewrite <- Heq. now apply list_elem_of_fmap_2. }
    assert (Hmod1 : modifies_only (eq this) h1 h').
    { eapply modifies_only_trans; [|exact Hmod]. now apply modifies_only_insert. }
    exists h', i'. split; [|split; [|repeat (split; [assumption|]); split]].
    + cbn [populate].
      rewrite (getFieldBySerializedName_key D f HkeysD (Hin f (list_elem_of_here _ _))).
      unfold bind at 1. unfold bind at 1.
      rewrite (setFieldValue_deserializing _ this f w h cv h1 i Hcreate Hext Hi).
      cbn [ret]. exact Hpop.
    + eapply modifies_only_trans; [apply extends_modifies_only; exact Hext | exact Hmod1].
    + intros g Hg. cbn in Hg. apply not_elem_of_cons in Hg as [Hne Hg].
      rewrite (Hsame g Hg). now apply getFieldValue_with_field_ne.
    + intros h2 Hab Hi2. destruct (Hser h2 Hab Hi2) as [Hfields Hsubs].
      assert (Hf : _getFieldValue i' f = cv).
      { rewrite (Hsame f Hname). apply getFieldValue_with_field_eq. }
      destruct (Hmade h2 (agrees_of_same_above this h h1 h' h2 Hthis Hext Hmod1 Hab))
        as [Hsv Hcl].
      split.
      * intros acc Hfresh. cbn [serialize_fields]. unfold selected.
        cbn [includeFields no_options]. unfold bind at 1. cbn [ret].
        unfold bind at 1. unfold get_instance at 1. rewrite Hi2, Hf.
        unfold bind at 1. rewrite Hsv.
        replace (is_undefined w) with false by (now destruct w).
        rewrite obj_set_fresh by (apply Hfresh, list_elem_of_here).
        rewrite Hfields; [now rewrite <- app_assoc|].
        intros g Hg. unfold obj_keys. rewrite fmap_app. cbn.
        intros Hk. apply elem_of_app in Hk as [Hk|Hk].
        -- revert Hk. apply Hfresh. now apply list_elem_of_further.
        -- apply list_elem_of_singleton in Hk. apply Hkey. rewrite <- Hk.
           now apply list_elem_of_fmap_2.
      * constructor; [rewrite Hf; exact Hcl | exact Hsubs].
Qed.

End FromWire.

Lemma construct_untagged k D es h :
  "_type" ∉ es.*1 ->
  construct (Some r) (S k) D (VObject es) true h =
    (populate (Some r) (construct (Some r) k) (List.length h) D true es ;;;
     ret (VModel (List.length h)))
      (h ++ [{| constructor := D; _fieldValues := None; _savedFieldValues := None |}])%list.
Proof.
  intros Htype. cbn [construct]. unfold bind at 1. cbn [alloc typeof String.eqb negb].
  cbn [Ascii.eqb Bool.eqb get_type]. rewrite (obj_get_absent _ _ Htype). cbn [lift].
  unfold bind at 1. cbn [ret is_undefined]. unfold bind at 1. cbn [ret own_entries].
  apply bind_ext. intros [] h1. reflexivity.
Qed.

Lemma construct_tagged k B D es h :
  obj_get r (cname D) = Some D -> "_type" ∉ es.*1 ->
  construct (Some r) (S k) B (VObject (("_type", VString (cname D)) :: es)) true h =
    (object <- construct (Some r) k D (VObject es) true ;;
     match object with
     | VModel l =>
         i <- get_instance l ;;
         if negb (isOfType (constructor i) (getName B)) then throw TypeMismatch
         else ret object
     | _ =>
         populate (Some r) (construct (Some r) k) (List.length h) B true (own_entries object) ;;;
         ret VUndefined ;;; ret (VModel (List.length h))
     end)
      (h ++ [{| constructor := B; _fieldValues := None; _savedFieldValues := None |}])%list.
Proof.
  intros Hreg Htype. cbn [construct]. unfold bind at 1. cbn [alloc typeof String.eqb negb].
  cbn [Ascii.eqb Bool.eqb get_type obj_get String.eqb lift]. unfold bind at 1.
  cbn [ret is_undefined]. unfold bind at 1. unfold bind at 1.
  unfold _getModel, _getRegistry. rewrite Hreg. cbn [lift ret without_type].
  cbn [List.filter fst String.eqb Ascii.eqb Bool.eqb negb]. rewrite (filter_without_type _ Htype).
  reflexivity.
Qed.

Lemma isOfType_own_name D : isOfType D (getName D) = true.
Proof. unfold isOfType, getName. rewrite String.eqb_refl. now rewrite orb_true_r. Qed.

Lemma construct_wired n : forall D w B h,
  wired n D w -> isOfType D (cname B) = true ->
  exists l' h',
    construct (Some r) (fuel_for n) B w true h = Ok (VModel l') h' /\
    rebuilt n D w h h' l'.
Proof.
  induction n as [|n IH]; intros D w B h Hwired Hty; [contradiction|].
  destruct Hwired as ((Hreg & Hnames & Hkeys & Htype) & es & -> & Hwire).
  assert (Htype' : "_type" ∉ es.*1).
  { intros Hin. apply Htype. exact (wire_entries_keys _ _ _ Hwire _ Hin). }
  set (g := {| constructor := B; _fieldValues := None; _savedFieldValues := None |}).
  set (fresh := {| constructor := D; _fieldValues := None; _savedFieldValues := None |}).
  set (this := List.length (h ++ [g])%list).
  assert (Hthis : this = S (List.length h))
    by (unfold this; rewrite length_app; cbn; lia).
  assert (Hfresh : ((h ++ [g]) ++ [fresh])%list !! this = Some fresh)
    by now apply list_lookup_middle.
  destruct (populate_wire n IH D this Hkeys (cfields D) es Hwire (fun f H => H) Hnames Hkeys
              ((h ++ [g]) ++ [fresh])%list fresh Hfresh eq_refl eq_refl (fun f _ => eq_refl))
    as (h' & i' & Hpop & Hmod & Hi' & HD' & Hclean' & _ & Hser).
  exists this, h'. split.
  - cbn [fuel_for]. rewrite (construct_tagged _ B D es h Hreg Htype').
    unfold bind at 1. rewrite (construct_untagged _ D es _ Htype').
    fold g fresh this. unfold bind at 1. rewrite Hpop. cbn [ret].
    unfold bind at 1. unfold get_instance. rewrite Hi', HD'. unfold getName. now rewrite Hty.
  - destruct Hmod as [Hlen Hmod]. rewrite !length_app in Hlen. cbn in Hlen.
    split; [|split; [lia|]].
    + split; [lia|]. intros l x Hl _. apply Hmod.
      * apply lookup_app_l_Some. now apply lookup_app_l_Some.
      * apply lookup_lt_Some in Hl. lia.
    + intros h2 Hag.
      assert (Hi2 : h2 !! this = Some i').
      { rewrite Hag; [exact Hi'|]. apply lookup_lt_Some in Hi'. lia. }
      destruct (Hser h2) as [Hfields Hsubs]; [|exact Hi2|].
      { intros k Hk. apply Hag. lia. }
      split; [now exists i'|]. split.
      * cbn [serialize]. unfold bind at 1. unfold get_instance at 1. rewrite Hi2, HD'.
        unfold bind at 1. rewrite Hfields; [reflexivity|].
        intros f Hf Hin. cbn in Hin. apply list_elem_of_singleton in Hin.
        apply Htype. rewrite <- Hin. now apply list_elem_of_fmap_2.
      * cbn [clean_ranked]. rewrite Hi2, Hclean'. apply forallb_forall.
        intros s Hs. apply list_elem_of_In in Hs. unfold field_submodels in Hs.
        apply list_elem_of_bind in Hs as (f & Hs & Hf). rewrite HD' in Hf.
        rewrite Forall_forall in Hsubs. specialize (Hsubs f Hf).
        rewrite Forall_forall in Hsubs. exact (Hsubs s Hs).
Qed.

End RoundTrip.

(** C8. An instance of a registered class, whose graph of submodels has no
    cycle and whose field values are values [createValue] makes for the
    fields, values the type test can be applied to, where the names and
    the keys of the fields of the classes are not names every object
    inherits and no key is [isOfType], is
    serialized to some [w]; the class, or any class the instance is of,
    deserializes [w] to an instance of the same class, which is serialized
    to [w] as well and reports [isChanged()] false.  (A field that is
    serialized under the key [isOfType] with a truthy value makes the
    constructor end in a TypeError, at [object.isOfType('Model')].) *)
Theorem serialize_deserialize_round_trip r h n l i B :
  serializable r h n l ->
  testable_heap h = true ->
  wire_keys_ok r = true ->
  h !! l = Some i ->
  isOfType (constructor i) (cname B) = true ->
  exists w l' h' i',
    serialize n l no_options h = Ok w h /\
    deserialize (Some r) (fuel_for n) B w h = Ok (VModel l') h' /\
    h' !! l' = Some i' /\
    constructor i' = constructor i /\
    isOfType (constructor i') (getName (constructor i)) = true /\
    serialize n l' no_options h' = Ok w h' /\
    isChanged n l' h' = Ok false h'.
Proof.
  intros Hs _ _ Hi Hty.
  destruct (serialize_wired r h n l Hs) as (i0 & w & Hi0 & Hw & Hwired).
  rewrite Hi in Hi0. injection Hi0 as <-.
  destruct (construct_wired r n (constructor i) w B h Hwired Hty)
    as (l' & h' & Hc & _ & _ & Hre).
  destruct (Hre h' (fun k _ => eq_refl)) as ((i' & Hi' & HD) & Hser & Hclean).
  exists w, l', h', i'. repeat (split; [assumption|]).
  split; [rewrite HD; apply isOfType_own_name|].
  split; [exact Hser | now apply isChanged_clean_false].
Qed.

Ltac decide_it :=
  match goal with |- ?P => refine (@bool_decide_unpack P _ _); vm_compute; exact I end.

Lemma class_ok_Movie : class_ok movies_registry Movie.
Proof. split; [reflexivity|]. repeat split; decide_it. Qed.

Lemma class_ok_TechnicalSpecs : class_ok movies_registry TechnicalSpecs.
Proof. split; [reflexivity|]. repeat split; decide_it. Qed.

Lemma inception_serializable : serializable movies_registry inception_1 2 0.
Proof.
  cbn [serializable]. eexists. split; [vm_compute; reflexivity|].
  split; [exact class_ok_Movie|]. repeat constructor.
  - cbn. unfold model_ok. do 3 eexists. split; [reflexivity|].
    split; [vm_compute; reflexivity|]. split; [reflexivity|]. split; [reflexivity|].
    eexists. split; [vm_compute; reflexivity|].
    split; [exact class_ok_TechnicalSpecs|]. repeat constructor.
  - cbn. eexists. split; [reflexivity|]. repeat constructor.
    unfold model_ok. do 3 eexists. split; [reflexivity|].
    split; [vm_compute; reflexivity|]. split; [reflexivity|]. split; [reflexivity|].
    eexists. split; [vm_compute; reflexivity|].
    split; [exact class_ok_Movie|]. repeat constructor.
Qed.

Lemma serialize_deserialize_round_trip_witness :
  exists w l' h',
    serialize 2 0 no_options inception_1 = Ok w inception_1 /\
    deserialize movies (fuel_for 2) Movie w inception_1 = Ok (VModel l') h' /\
    serialize 2 l' no_options h' = Ok w h' /\
    isChanged 2 l' h' = Ok false h'.
Proof.
  edestruct (serialize_deserialize_round_trip movies_registry inception_1 2 0)
    with (B := Movie) as (w & l' & h' & i' & Hw & Hd & _ & _ & _ & Hs & Hc).
  - exact inception_serializable.
  - vm_compute. reflexivity.
  - vm_compute. reflexivity.
  - vm_compute. reflexivity.
  - reflexivity.
  - exists w, l', h'. auto.
Defined.

(** *** The constructor: what it returns and what it leaves alone *)

Definition blank (C : Class) : Instance :=
  {| constructor := C; _fieldValues := None; _savedFieldValues := None |}.

Lemma isModel_without_type object : isModel (without_type object) = false.
Proof. now destruct object. Qed.

Lemma construct_result registry fuel : forall C object d h v h',
  construct registry fuel C object d h = Ok v h' ->
  exists l, v = VModel l /\ l < List.length h' /\
            (isModel object = false -> List.length h <= l).
Proof.
  induction fuel as [|fuel IH]; intros C object d h v h' H; [discriminate|].
  cbn [construct] in H. apply bind_Ok in H as (this & h1 & Halloc & H).
  unfold alloc in Halloc. injection Halloc as <- <-.
  pose proof (modifying_construct_body registry (construct registry fuel)
                (construct_extends registry fuel) C object d (List.length h)) as Hbody.
  cbv zeta in Hbody. pose proof (Hbody _ _ _ H) as [Hlen _]. clear Hbody.
  rewrite length_app in Hlen. cbn in Hlen.
  assert (Hfinish : forall hx,
    ((if d then ret VUndefined
      else _applyDefaults registry (construct registry fuel) (List.length h)) ;;;
     ret (VModel (List.length h))) hx = Ok v h' ->
    exists l, v = VModel l /\ l < List.length h' /\
              (isModel object = false -> List.length h <= l)).
  { intros hx Hx. apply bind_Ok in Hx as (? & ? & _ & Hx). apply ret_Ok in Hx as [<- _].
    exists (List.length h). split; [reflexivity|]. split; lia. }
  assert (Hrest : forall object0,
    (if negb (String.eqb (typeof object0) "object") then throw TypeMismatch
     else
       _type <- lift (get_type object0) ;;
       object <-
         (if is_undefined _type then ret object0
          else
            ObjectModel <- lift (_getModel registry _type) ;;
            construct registry fuel ObjectModel (without_type object0) d) ;;
       match object with
       | VModel l =>
           i <- get_instance l ;;
           if negb (isOfType (constructor i) (getName C)) then throw TypeMismatch
           else ret object
       | _ =>
           populate registry (construct registry fuel) (List.length h) C d
             (own_entries object) ;;;
           (if d then ret VUndefined
            else _applyDefaults registry (construct registry fuel) (List.length h)) ;;;
           ret (VModel (List.length h))
       end) (h ++ [{| constructor := C; _fieldValues := None;
                      _savedFieldValues := None |}])%list = Ok v h' ->
    object0 = object ->
    exists l, v = VModel l /\ l < List.length h' /\
              (isModel object = false -> List.length h <= l)).
  { intros object0 Hx <-.
    destruct (negb (String.eqb (typeof object0) "object")); [discriminate|].
    apply bind_Ok in Hx as (_type & h2 & Hty & Hx). apply lift_Ok in Hty as [_ <-].
    apply bind_Ok in Hx as (object' & h3 & Hobj & Hx).
    assert (Hobj' : object' = object0 \/
              exists l', object' = VModel l' /\ S (List.length h) <= l').
    { destruct (is_undefined _type).
      - apply ret_Ok in Hobj as [<- _]. now left.
      - apply bind_Ok in Hobj as (D & h4 & HD & Hobj). apply lift_Ok in HD as [_ <-].
        apply IH in Hobj as (l' & -> & _ & Hfresh). right. exists l'.
        split; [reflexivity|]. specialize (Hfresh (isModel_without_type object0)).
        rewrite length_app in Hfresh. cbn in Hfresh. lia. }
    destruct object' as [| |b|z|str|es|elements|l];
      try (apply bind_Ok in Hx as (? & ? & _ & Hx); exact (Hfinish _ Hx)).
    apply bind_Ok in Hx as (i & h4 & Hget & Hx). apply get_instance_Ok in Hget as [Hi <-].
    destruct (negb (isOfType (constructor i) (getName C))); [discriminate|].
    apply ret_Ok in Hx as [<- <-]. exists l. split; [reflexivity|].
    split; [now apply lookup_lt_Some in Hi|]. intros Hm.
    destruct Hobj' as [<-|(l' & [= ->] & Hl')]; [discriminate | lia]. }
  destruct object; [exact (Hfinish _ H)|..];
    match goal with |- context [isModel ?o] => exact (Hrest o H eq_refl) end.
Qed.

(** X12. What [new C(object)] returns is a reference to an instance of the
    heap, a new one unless [object] is itself an instance; and every
    instance that was there before is as it was. *)
Theorem construct_returns_an_instance_and_keeps_the_others
    registry fuel C object d h v h' :
  construct registry fuel C object d h = Ok v h' ->
  (forall l i, h !! l = Some i -> h' !! l = Some i) /\
  exists l, v = VModel l /\ is_Some (h' !! l) /\
            (isModel object = false -> h !! l = None).
Proof.
  intros H. split.
  - intros l i Hl. exact (extends_lookup _ _ _ _ (construct_extends _ _ _ _ _ _ _ _ H) Hl).
  - apply construct_result in H as (l & -> & Hl & Hfresh). exists l.
    split; [reflexivity|]. split; [now apply lookup_lt_is_Some|].
    intros Hm. apply lookup_ge_None. auto.
Qed.

Lemma construct_returns_an_instance_and_keeps_the_others_witness :
  exists l, VModel 0 = VModel l /\ is_Some (inception_1 !! l) /\
            (isModel inception = false -> ([] : heap) !! l = None).
Proof.
  refine (proj2 (construct_returns_an_instance_and_keeps_the_others
                   movies 2 Movie inception true [] (VModel 0) inception_1 _)).
  vm_compute. reflexivity.
Defined.



(** X14. An object with a [_type] is handed to the model registered under that
    name before anything else is read from it: without a registry the
    constructor throws 'Registry not found', and with a registry that has
    no model under the tag, a tag that is not a name every object inherits
    ([registry['constructor']] is a function), 'Model not found'. *)
Theorem construct_with_unregistered_type_tag registry fuel C es tag d h :
  obj_get es "_type" = Some (VString tag) ->
  match registry with
  | None => construct registry (S fuel) C (VObject es) d h = Err RegistryNotFound
  | Some r =>
      obj_get r tag = None -> own_name tag = true ->
      construct registry (S fuel) C (VObject es) d h = Err ModelNotFound
  end.
Proof.
  intros Ht.
  assert (H : forall e, _getModel registry (VString tag) = Throws e ->
                        construct registry (S fuel) C (VObject es) d h = Err e).
  { intros e He. cbn [construct]. unfold bind, alloc.
    cbn [typeof String.eqb Ascii.eqb Bool.eqb negb get_type]. rewrite Ht.
    cbn [lift ret is_undefined]. rewrite He. reflexivity. }
  destruct registry as [r|]; [|now apply H].
  intros Hr _. apply H. unfold _getModel, _getRegistry. now rewrite Hr.
Qed.

Lemma construct_with_unregistered_type_tag_witness :
  construct movies 1 Movie (VObject [("_type", VString "Actor")]) true []
  = Err ModelNotFound.
Proof.
  exact (construct_with_unregistered_type_tag movies 0 Movie
           [("_type", VString "Actor")] "Actor" true [] eq_refl eq_refl eq_refl).
Defined.

(** *** The constructor: the entries of the object *)

Lemma construct_untagged_object registry k C es d h :
  obj_get es "_type" = None ->
  construct registry (S k) C (VObject es) d h =
    (populate registry (construct registry k) (List.length h) C d es ;;;
     (if d then ret VUndefined
      else _applyDefaults registry (construct registry k) (List.length h)) ;;;
     ret (VModel (List.length h)))
      (h ++ [blank C])%list.
Proof.
  intros Htype. cbn [construct]. unfold bind at 1. cbn [alloc typeof String.eqb negb].
  cbn [Ascii.eqb Bool.eqb get_type]. rewrite Htype. cbn [lift].
  unfold bind at 1. cbn [ret is_undefined]. unfold bind at 1. cbn [ret own_entries].
  reflexivity.
Qed.

(** whether the class has a field for the key [n] of the object *)
Definition known (C : Class) (isDeserializing : bool) (n : string) : bool :=
  match (if isDeserializing then getFieldBySerializedName C n else getField C n) with
  | Some _ => true
  | None => false
  end.

Lemma obj_get_filter_None {A} (p : string * A -> bool) (o : list (string * A)) k :
  obj_get o k = None -> obj_get (List.filter p o) k = None.
Proof.
  induction o as [|[k' v'] o IH]; cbn; [reflexivity|].
  destruct (String.eqb_spec k' k) as [->|Hne]; [discriminate|].
  intros H. destruct (p (k', v')); cbn; [|now apply IH].
  destruct (String.eqb_spec k' k); [contradiction | now apply IH].
Qed.

Lemma populate_known registry new_ this C d es : forall h,
  populate registry new_ this C d es h =
  populate registry new_ this C d (List.filter (fun e => known C d e.1) es) h.
Proof.
  induction es as [|[n v] es IH]; intros h; [reflexivity|].
  cbn [populate List.filter fst]. unfold known at 1.
  destruct (if d then getFieldBySerializedName C n else getField C n) as [g|] eqn:Eg.
  - cbn [populate]. rewrite Eg. apply bind_ext. intros _ h1. apply IH.
  - unfold bind at 1. cbn [ret]. apply IH.
Qed.

(** X15. The keys of the object for which the class has no field are ignored:
    the constructor does with the object what it does with the object
    without them.  The object is one the type test can be applied to, and
    its keys are not names every object inherits (for which
    [this._fields?.[name]] is not a field, and not [undefined]). *)
Theorem construct_ignores_unknown_keys registry fuel C es d h :
  obj_get es "_type" = None ->
  testable (VObject es) = true ->
  forallb (fun e => own_name e.1) es = true ->
  construct registry fuel C (VObject es) d h =
  construct registry fuel C (VObject (List.filter (fun e => known C d e.1) es)) d h.
Proof.
  intros Htype _ _. destruct fuel as [|k]; [reflexivity|].
  rewrite !construct_untagged_object by (try apply obj_get_filter_None; exact Htype).
  apply bind_ext_l. apply populate_known.
Qed.

Lemma construct_ignores_unknown_keys_witness :
  construct movies 1 Movie
    (VObject [("title", VString "Inception"); ("rating", VNumber 9)]) false [] =
  construct movies 1 Movie
    (VObject (List.filter (fun e => known Movie false e.1)
                [("title", VString "Inception"); ("rating", VNumber 9)])) false [].
Proof.
  exact (construct_ignores_unknown_keys movies 1 Movie
           [("title", VString "Inception"); ("rating", VNumber 9)] false []
           eq_refl eq_refl eq_refl).
Defined.

(** How a construction proceeds. *)
Lemma construct_inv registry fuel C object d h v h' :
  construct registry (S fuel) C object d h = Ok v h' ->
  let this := List.length h in
  let h1 := (h ++ [blank C])%list in
  let finish : M value :=
    (if d then ret VUndefined
     else _applyDefaults registry (construct registry fuel) this) ;;;
    ret (VModel this) in
  (object = VUndefined /\ finish h1 = Ok v h') \/
  (exists t D l i,
      get_type object = Returns t /\ is_undefined t = false /\
      _getModel registry t = Returns D /\
      construct registry fuel D (without_type object) d h1 = Ok (VModel l) h' /\
      v = VModel l /\ h' !! l = Some i /\
      isOfType (constructor i) (getName C) = true) \/
  (exists l i,
      object = VModel l /\ v = VModel l /\ h' = h1 /\ h1 !! l = Some i /\
      isOfType (constructor i) (getName C) = true) \/
  (isModel object = false /\ object <> VUndefined /\
   get_type object = Returns VUndefined /\
   (populate registry (construct registry fuel) this C d (own_entries object) ;;;
    finish) h1 = Ok v h').
Proof.
  intros H this h1 finish. cbn [construct] in H.
  apply bind_Ok in H as (this' & h1' & Halloc & H).
  unfold alloc in Halloc. injection Halloc as <- <-. fold this (blank C) h1 in H.
  change ((if d then ret VUndefined
           else _applyDefaults registry (construct registry fuel) this) ;;;
          ret (VModel this)) with finish in H.
  destruct (is_undefined object) eqn:Hu.
  { apply is_undefined_true in Hu as ->. now left. }
  right.
  assert (Hx :
    (if negb (String.eqb (typeof object) "object") then throw TypeMismatch
     else
       _type <- lift (get_type object) ;;
       object' <-
         (if is_undefined _type then ret object
          else
            ObjectModel <- lift (_getModel registry _type) ;;
            construct registry fuel ObjectModel (without_type object) d) ;;
       match object' with
       | VModel l =>
           i <- get_instance l ;;
           if negb (isOfType (constructor i) (getName C)) then throw TypeMismatch
           else ret object'
       | _ => populate registry (construct registry fuel) this C d (own_entries object') ;;;
              finish
       end) h1 = Ok v h').
  { destruct object; first [discriminate Hu | exact H]. }
  clear H. destruct (negb (String.eqb (typeof object) "object")); [discriminate|].
  apply bind_Ok in Hx as (t & h2 & Hty & Hx). apply lift_Ok in Hty as [Hty <-].
  apply bind_Ok in Hx as (object' & h3 & Hobj & Hx).
  destruct (is_undefined t) eqn:Ht.
  - apply ret_Ok in Hobj as [<- <-]. right. apply is_undefined_true in Ht as ->.
    destruct object as [| |b|z|str|es|elements|l]; [discriminate Hu|..];
      try (right; split; [reflexivity|]; split; [discriminate|];
           split; [exact Hty | exact Hx]).
    left. apply bind_Ok in Hx as (i & h4 & Hget & Hx).
    apply get_instance_Ok in Hget as [Hi <-].
    destruct (isOfType (constructor i) (getName C)) eqn:Hof; [|discriminate].
    apply ret_Ok in Hx as [<- <-]. exists l, i. auto.
  - left. apply bind_Ok in Hobj as (D & h4 & HD & Hobj). apply lift_Ok in HD as [HD <-].
    destruct (construct_result _ _ _ _ _ _ _ _ Hobj) as (l & -> & _ & _).
    apply bind_Ok in Hx as (i & h5 & Hget & Hx).
    apply get_instance_Ok in Hget as [Hi <-].
    destruct (isOfType (constructor i) (getName C)) eqn:Hof; [|discriminate].
    apply ret_Ok in Hx as [<- <-]. exists t, D, l, i. auto 10.
Qed.

Lemma getField_Some C n g : getField C n = Some g -> g ∈ cfields C /\ name g = n.
Proof.
  unfold getField. intros H. apply find_some in H as [Hin Hn].
  split; [now apply list_elem_of_In | now apply String.eqb_eq].
Qed.

Lemma getField_None C n f : getField C n = None -> f ∈ cfields C -> name f <> n.
Proof.
  unfold getField. intros H Hin Heq. apply list_elem_of_In in Hin.
  pose proof (find_none _ _ H f Hin) as Hf. cbn in Hf.
  apply String.eqb_neq in Hf. contradiction.
Qed.

Lemma same_name_same_field (fields : list Field) f g :
  NoDup (name <$> fields) -> f ∈ fields -> g ∈ fields -> name f = name g -> f = g.
Proof.
  induction fields as [|x fields IH]; intros Hnd Hf Hg Heq.
  - now apply elem_of_nil in Hf.
  - cbn in Hnd. apply NoDup_cons in Hnd as [Hx Hnd].
    apply elem_of_cons in Hf as [->|Hf], Hg as [->|Hg]; [reflexivity| | |now apply IH].
    + exfalso. apply Hx. rewrite Heq. now apply list_elem_of_fmap_2.
    + exfalso. apply Hx. rewrite <- Heq. now apply list_elem_of_fmap_2.
Qed.

Section Populate.

Variable registry : option (list (string * Class)).
Variable new_ : Class -> value -> bool -> M value.
Hypothesis new_extends : forall C object d, extending (new_ C object d).
Variable this : loc.
Variable C : Class.

(** Under [isDeserializing] the entries are assigned without being saved. *)
Lemma populate_deserializing es : forall h i h' u,
  h !! this = Some i ->
  populate registry new_ this C true es h = Ok u h' ->
  exists i', h' !! this = Some i' /\ constructor i' = constructor i /\
             _savedFieldValues i' = _savedFieldValues i.
Proof.
  induction es as [|[n v] es IH]; intros h i h' u Hi H.
  - apply ret_Ok in H as [_ <-]. eauto.
  - cbn [populate] in H. apply bind_Ok in H as (u1 & h1 & Hstep & H).
    destruct (getFieldBySerializedName C n) as [g|].
    + apply bind_Ok in Hstep as (r & h2 & Hset & Hstep). apply ret_Ok in Hstep as [_ <-].
      pose proof (setFieldValue_instance _ _ _ _ _ _ _ _ _ _ new_extends Hi Hset) as Hi1.
      destruct (IH _ _ _ _ Hi1 H) as (i' & Hi' & Hc & Hs). eauto.
    + apply ret_Ok in Hstep as [_ <-]. eauto.
Qed.

(** Outside deserialization: what the fields of plain type hold after the
    entries of the object have been assigned. *)
Lemma populate_values es : forall h i h' u,
  h !! this = Some i ->
  NoDup (obj_keys es) -> NoDup (name <$> cfields C) ->
  populate registry new_ this C false es h = Ok u h' ->
  exists i', h' !! this = Some i' /\ constructor i' = constructor i /\
    forall f, f ∈ cfields C -> type f = TValue -> isArray f = false ->
      _getFieldValue i' f =
        match obj_get es (name f) with
        | Some v => v
        | None => _getFieldValue i f
        end.
Proof.
  induction es as [|[n v] es IH]; intros h i h' u Hi Hkeys Hnames H.
  - apply ret_Ok in H as [_ <-]. eauto.
  - unfold obj_keys in Hkeys. cbn in Hkeys. apply NoDup_cons in Hkeys as [Hn Hkeys].
    assert (Hrest : obj_get es n = None) by now apply obj_get_None.
    cbn [populate] in H. apply bind_Ok in H as (u1 & h1 & Hstep & H).
    destruct (getField C n) as [g|] eqn:Eg.
    + apply getField_Some in Eg as [Hg Hgn].
      apply bind_Ok in Hstep as (r & h2 & Hset & Hstep). apply ret_Ok in Hstep as [_ <-].
      pose proof (setFieldValue_instance _ _ _ _ _ _ _ _ _ _ new_extends Hi Hset) as Hi1.
      destruct (IH _ _ _ _ Hi1 Hkeys Hnames H) as (i' & Hi' & Hc & Hvals).
      exists i'. split; [exact Hi'|]. split; [exact Hc|].
      intros f Hf Ht Ha. rewrite (Hvals f Hf Ht Ha). cbn [obj_get].
      destruct (String.eqb_spec n (name f)) as [Heq|Hne].
      * assert (f = g) as -> by (apply (same_name_same_field (cfields C)); congruence).
        rewrite <- Hgn in Hrest. rewrite Hrest, (getFieldValue_after_set i g r).
        destruct (setFieldValue_created _ _ _ _ _ _ _ _ _ Hset) as (h0 & h3 & Hcv).
        exact (createValue_plain _ _ _ _ _ _ _ _ _ Ht Ha Hcv).
      * destruct (obj_get es (name f)); [reflexivity|].
        apply getFieldValue_after_set_ne. congruence.
    + apply ret_Ok in Hstep as [_ <-].
      destruct (IH _ _ _ _ Hi Hkeys Hnames H) as (i' & Hi' & Hc & Hvals).
      exists i'. split; [exact Hi'|]. split; [exact Hc|].
      intros f Hf Ht Ha. rewrite (Hvals f Hf Ht Ha). cbn [obj_get].
      destruct (String.eqb_spec n (name f)) as [Heq|Hne]; [|reflexivity].
      exfalso. exact (getField_None _ _ _ Eg Hf (eq_sym Heq)).
Qed.

(** What the fields of plain type hold after the defaults have been
    applied. *)
Lemma defaults_fill fields : forall h r h' i,
  h !! this = Some i ->
  NoDup (name <$> fields) ->
  forEachField_loop (default_callback registry new_ this) fields h = Ok r h' ->
  exists i',
    h' !! this = Some i' /\
    (forall g : Field, name g ∉ name <$> fields -> _getFieldValue i' g = _getFieldValue i g) /\
    forall f, f ∈ fields -> type f = TValue -> isArray f = false ->
      _getFieldValue i' f =
        if is_undefined (_getFieldValue i f) then resolve (default f)
        else _getFieldValue i f.
Proof.
  induction fields as [|f fields IH]; intros h r h' i Hi Hnd H.
  - apply ret_Ok in H as [_ <-]. exists i. split; [exact Hi|]. split; [auto|].
    intros f Hf. now apply elem_of_nil in Hf.
  - cbn [fmap list_fmap] in Hnd. apply NoDup_cons in Hnd as [Hname Hnd].
    cbn [forEachField_loop] in H. apply bind_Ok in H as (r1 & h1 & Hf & H).
    apply default_callback_inv in Hf
      as [-> [[-> Hnoop]|(i0 & u & Hi0 & Hundef & _ & Hset)]]; cbn [is_undefined] in H.
    + destruct (IH h r h' i Hi Hnd H) as (i' & Hi' & Hsame & Hvals).
      exists i'. split; [exact Hi'|]. split.
      * intros g Hg. cbn in Hg. apply not_elem_of_cons in Hg as [_ Hg]. now apply Hsame.
      * intros g Hg Ht Ha. apply elem_of_cons in Hg as [->|Hg]; [|now apply Hvals].
        rewrite (Hsame f Hname).
        destruct (is_undefined (_getFieldValue i f)) eqn:Hu; [|reflexivity].
        apply is_undefined_true in Hu.
        destruct Hnoop as [->|(i0 & Hi0 & Hv)]; [exact Hu|].
        rewrite Hi in Hi0. injection Hi0 as <-. contradiction.
    + rewrite Hi in Hi0. injection Hi0 as <-.
      pose proof (setFieldValue_instance _ _ _ _ _ _ _ _ _ _ new_extends Hi Hset) as Hi1.
      destruct (IH h1 r h' _ Hi1 Hnd H) as (i' & Hi' & Hsame & Hvals).
      exists i'. split; [exact Hi'|]. split.
      * intros g Hg. cbn in Hg. apply not_elem_of_cons in Hg as [Hne Hg].
        rewrite (Hsame g Hg). now apply getFieldValue_after_set_ne.
      * intros g Hg Ht Ha. apply elem_of_cons in Hg as [->|Hg].
        -- rewrite (Hsame f Hname), (getFieldValue_after_set i f u), Hundef.
           cbn [is_undefined].
           destruct (setFieldValue_created _ _ _ _ _ _ _ _ _ Hset) as (h0 & h2 & Hc).
           exact (createValue_plain _ _ _ _ _ _ _ _ _ Ht Ha Hc).
        -- rewrite (Hvals g Hg Ht Ha). rewrite getFieldValue_after_set_ne; [reflexivity|].
           intros Heq. apply Hname. rewrite <- Heq. now apply list_elem_of_fmap_2.
Qed.

End Populate.

(** X16. A construction without [isDeserializing] from an object without
    [_type] gives a field of plain type the value the object has under the
    name of the field, and where the object has none, or [undefined], the
    value the default of the field resolves to. *)
Theorem construct_gives_values_then_defaults registry fuel C es h l h' :
  construct registry fuel C (VObject es) false h = Ok (VModel l) h' ->
  obj_get es "_type" = None ->
  NoDup (obj_keys es) -> NoDup (name <$> cfields C) ->
  forall f, f ∈ cfields C -> type f = TValue -> isArray f = false ->
    descriptor_get l f h' =
      Ok (match obj_get es (name f) with
          | Some v => if is_undefined v then resolve (default f) else v
          | None => resolve (default f)
          end) h'.
Proof.
  intros H Htype Hkeys Hnames f Hf Ht Ha.
  destruct fuel as [|k]; [discriminate|].
  rewrite (construct_untagged_object _ _ _ _ _ _ Htype) in H.
  apply bind_Ok in H as (u & h2 & Hpop & H).
  apply bind_Ok in H as (r & h3 & Hdef & H). apply ret_Ok in H as [[= <-] <-].
  assert (Hnew : (h ++ [blank C])%list !! List.length h = Some (blank C))
    by now apply list_lookup_middle.
  destruct (populate_values registry (construct registry k) (construct_extends registry k)
              (List.length h) C es _ _ _ _ Hnew Hkeys Hnames Hpop)
    as (i2 & Hi2 & Hc2 & Hvals).
  unfold _applyDefaults in Hdef. apply bind_Ok in Hdef as (i0 & h4 & Hget & Hdef).
  apply get_instance_Ok in Hget as [Hi0 <-]. rewrite Hi2 in Hi0. injection Hi0 as <-.
  rewrite Hc2 in Hdef. cbn [blank constructor] in Hdef.
  destruct (defaults_fill registry (construct registry k) (construct_extends registry k)
              (List.length h) (cfields C) _ _ _ _ Hi2 Hnames Hdef)
    as (i3 & Hi3 & _ & Hfill).
  rewrite (descriptor_get_Ok _ f _ _ Hi3). f_equal.
  rewrite (Hfill f Hf Ht Ha), (Hvals f Hf Ht Ha).
  destruct (obj_get es (name f)) as [v|]; reflexivity.
Qed.

Lemma construct_gives_values_then_defaults_witness :
  descriptor_get 0 year
    (heap_of (construct movies 1 Movie (VObject [("title", VString "Inception")]) false []))
  = Ok (VNumber 2000)
      (heap_of (construct movies 1 Movie (VObject [("title", VString "Inception")]) false [])).
Proof.
  refine (construct_gives_values_then_defaults movies 1 Movie
            [("title", VString "Inception")] [] 0 _ _ eq_refl _ _ year _ eq_refl eq_refl).
  - vm_compute. reflexivity.
  - unfold obj_keys. cbn. apply NoDup_singleton.
  - refine (@bool_decide_unpack _ _ _). vm_compute. exact I.
  - cbn. apply elem_of_cons. right. apply list_elem_of_here.
Defined.

Lemma deserialized_has_no_saved_values registry fuel : forall C object h l h',
  construct registry fuel C object true h = Ok (VModel l) h' ->
  isModel object = false ->
  exists i, h' !! l = Some i /\ _savedFieldValues i = None.
Proof.
  induction fuel as [|fuel IH]; intros C object h l h' H Hm; [discriminate|].
  apply construct_inv in H. cbv zeta in H.
  assert (Hnew : (h ++ [blank C])%list !! List.length h = Some (blank C))
    by now apply list_lookup_middle.
  destruct H as [[-> H]|[(t & D & l0 & i & _ & _ & _ & H & [= <-] & _)|
                 [(l0 & i & -> & _)|(_ & _ & _ & H)]]].
  - apply bind_Ok in H as (? & ? & Hr & H). apply ret_Ok in Hr as [_ <-].
    apply ret_Ok in H as [[= <-] <-]. eauto.
  - exact (IH _ _ _ _ _ H (isModel_without_type object)).
  - discriminate.
  - apply bind_Ok in H as (u & h2 & Hpop & H).
    apply bind_Ok in H as (? & ? & Hr & H). apply ret_Ok in Hr as [_ <-].
    apply ret_Ok in H as [[= <-] <-].
    destruct (populate_deserializing registry (construct registry fuel)
                (construct_extends registry fuel) (List.length h) C _ _ _ _ _ Hnew Hpop)
      as (i' & Hi' & _ & Hs). eauto.
Qed.

(** X17. A deserialization of what is not itself an instance returns a new
    instance that has no saved value, so that [isChanged()] does not
    return true of it. *)
Theorem deserialize_records_no_change registry fuel C object h l h' :
  deserialize registry fuel C object h = Ok (VModel l) h' ->
  isModel object = false ->
  h !! l = None /\
  (exists i, h' !! l = Some i /\ _savedFieldValues i = None) /\
  forall k h'', isChanged k l h' <> Ok true h''.
Proof.
  unfold deserialize. intros H Hm.
  pose proof (deserialized_has_no_saved_values _ _ _ _ _ _ _ H Hm) as (i & Hi & Hs).
  split; [|split; [eauto|]].
  - apply construct_result in H as (l0 & [= <-] & _ & Hfresh).
    apply lookup_ge_None. auto.
  - intros k h'' Hc. apply isChanged_true_only_with_saved_values in Hc as (i0 & Hi0 & Hs0).
    rewrite Hi in Hi0. injection Hi0 as <-. contradiction.
Qed.

Lemma deserialize_records_no_change_witness :
  ([] : heap) !! 0 = None /\
  (exists i, inception_1 !! 0 = Some i /\ _savedFieldValues i = None) /\
  forall k h'', isChanged k 0 inception_1 <> Ok true h''.
Proof.
  refine (deserialize_records_no_change movies 2 Movie inception [] 0 inception_1 _ eq_refl).
  vm_compute. reflexivity.
Defined.

(** X18. An assignment to a field is read back, leaves the other fields as
    they are, and is recorded as a change of the field and of the instance,
    whatever is assigned: the value is not compared with the one the field
    holds. *)
Theorem assignment_is_read_back_and_recorded registry fuel l (x : Field) v h r h' :
  descriptor_set registry fuel l x v h = Ok r h' ->
  descriptor_get l x h' = Ok r h' /\
  (type x = TValue -> isArray x = false -> r = v) /\
  (forall g old, name g <> name x ->
     descriptor_get l g h = Ok old h -> descriptor_get l g h' = Ok old h') /\
  (forall k, fieldIsChanged k l x h' = Ok true h') /\
  (forall k, isChanged (S k) l h' = Ok true h').
Proof.
  intros Hset. destruct (descriptor_set_instance _ _ _ _ _ _ _ _ Hset) as (i & Hi & Hi').
  split; [|split; [|split; [|split]]].
  - rewrite (descriptor_get_Ok _ x _ _ Hi'). f_equal. apply (getFieldValue_after_set i).
  - intros Ht Ha. destruct (setFieldValue_created _ _ _ _ _ _ _ _ _ Hset) as (h0 & h1 & Hc).
    exact (createValue_plain _ _ _ _ _ _ _ _ _ Ht Ha Hc).
  - intros g old Hne Hold. rewrite (descriptor_get_Ok _ g _ _ Hi) in Hold.
    injection Hold as <-. rewrite (descriptor_get_Ok _ g _ _ Hi'). f_equal.
    now apply getFieldValue_after_set_ne.
  - intros k. unfold fieldIsChanged, bind, get_instance. rewrite Hi'.
    cbn [_savedFieldValues]. rewrite lookup_insert_eq.
    rewrite bool_decide_true by eauto. reflexivity.
  - intros k. apply has_saved_values_isChanged. eexists. split; [exact Hi'|]. discriminate.
Qed.

Lemma assignment_is_read_back_and_recorded_witness :
  descriptor_get 0 title inception_2 = Ok (VString "Tenet") inception_2.
Proof.
  refine (proj1 (assignment_is_read_back_and_recorded movies 2 0 title (VString "Tenet")
                   inception_1 (VString "Tenet") inception_2 _)).
  vm_compute. reflexivity.
Defined.

(** *** [commit] and [rollback] in general *)

Lemma clean_ranked_S h n : forall l,
  clean_ranked h n l = true -> clean_ranked h (S n) l = true.
Proof.
  induction n as [|n IH]; intros l H; [discriminate|].
  cbn [clean_ranked] in H |- *. destruct (h !! l) as [i|]; [|discriminate].
  destruct (_savedFieldValues i); [discriminate|].
  rewrite forallb_forall in H |- *. intros s Hs. apply IH. now apply H.
Qed.

Section WalkClean.

Variable step : Instance -> outcome Instance.
Hypothesis step_id : forall i, _savedFieldValues i = None -> step i = Returns i.

(** A walk through a graph without saved values changes nothing. *)
Lemma walk_clean n : forall l h,
  clean_ranked h n l = true -> walk step n l h = Ok tt h.
Proof.
  induction n as [|n IH]; intros l h Hc; [discriminate|].
  cbn [clean_ranked] in Hc. destruct (h !! l) as [i|] eqn:Hi; [|discriminate].
  destruct (_savedFieldValues i) eqn:Hs; [discriminate|].
  rewrite forallb_forall in Hc.
  destruct (forEachSubmodel_visits eq (fun _ _ => True)
              (fun submodel => walk step n submodel ;;; ret VUndefined)
              (fun h => eq_refl) (fun a b c Hab Hbc => eq_trans Hab Hbc)
              (fun _ _ _ _ _ => I) l i h Hi)
    as (h' & Hrun & <- & _).
  - now intros h' <-.
  - intros s Hin h' <-. exists h. split; [|now split].
    unfold bind. rewrite IH; [reflexivity|]. apply Hc. now apply list_elem_of_In.
  - cbn [walk]. unfold bind at 1. unfold get_instance at 1. rewrite Hi.
    unfold bind at 1. rewrite (step_id i Hs). cbn [lift ret].
    unfold bind at 1. cbn [set_instance]. rewrite (list_insert_id _ _ _ Hi).
    unfold bind at 1. now rewrite Hrun.
Qed.

End WalkClean.

(** the candidates of [findFromOneOrMany] *)
Definition candidates (v : value) : list value :=
  match v with
  | VArray values => values
  | _ => [v]
  end.

Lemma candidates_submodels v s : VModel s ∈ candidates v -> s ∈ submodels_of v.
Proof.
  destruct v as [| |b|z|str|es|elements|l]; cbn [candidates submodels_of]; intros H;
    try (apply list_elem_of_singleton in H; discriminate H).
  - apply list_elem_of_omap. now exists (VModel s).
  - apply list_elem_of_singleton in H. injection H as ->. apply list_elem_of_here.
Qed.

Lemma find_loop_none p values h :
  (forall c, c ∈ values -> exists a, p c h = Ok a h /\ truthy a = false) ->
  find_loop p values h = Ok VUndefined h.
Proof.
  induction values as [|c values IH]; intros Hp; [reflexivity|].
  destruct (Hp c (list_elem_of_here _ _)) as (a & Ha & Hf).
  cbn [find_loop]. unfold bind. rewrite Ha, Hf. apply IH.
  intros c' Hc'. apply Hp. now apply list_elem_of_further.
Qed.

Lemma findFromOneOrMany_none p v h :
  (forall c, c ∈ candidates v -> exists a, p c h = Ok a h /\ truthy a = false) ->
  findFromOneOrMany v p h = Ok VUndefined h.
Proof.
  intros Hp.
  assert (Hone : candidates v = [v] ->
            (accepted <- p v ;; if truthy accepted then ret v else ret VUndefined) h
            = Ok VUndefined h).
  { intros Hc. destruct (Hp v) as (a & Ha & Hf); [rewrite Hc; apply list_elem_of_here|].
    unfold bind. now rewrite Ha, Hf. }
  destruct v; try exact (Hone eq_refl). now apply find_loop_none.
Qed.

(** On a graph without saved values no field is changed. *)
Lemma clean_fieldIsChanged h n l i (f : Field) :
  clean_ranked h (S n) l = true -> h !! l = Some i -> f ∈ cfields (constructor i) ->
  fieldIsChanged n l f h = Ok false h.
Proof.
  intros Hc Hi Hf. cbn [clean_ranked] in Hc. rewrite Hi in Hc.
  destruct (_savedFieldValues i) eqn:Hs; [discriminate|]. rewrite forallb_forall in Hc.
  unfold fieldIsChanged, bind at 1, get_instance at 1. rewrite Hi, Hs.
  destruct (is_undefined (_getFieldValue i f)); [reflexivity|].
  unfold bind at 1. rewrite findFromOneOrMany_none; [reflexivity|].
  intros c Hcand. destruct c as [| |b|z|str|es|elements|s];
    try (exists VUndefined; split; reflexivity).
  exists (VBool false). split; [|reflexivity]. unfold bind.
  rewrite isChanged_clean_false; [reflexivity|]. apply Hc. apply list_elem_of_In.
  unfold field_submodels. apply list_elem_of_bind. exists f.
  split; [now apply candidates_submodels | exact Hf].
Qed.

(** X19. On a graph of submodels without cycle, with values the type test
    can be applied to, [commit()] returns.  Every
    instance is then as it was or as it was without its saved values, so
    that every field of every instance has the value it had; [isChanged()]
    is false, no field is changed, and a further [commit()] or [rollback()]
    changes nothing. *)
Theorem commit_clears_every_change h n l :
  committable h n l = true ->
  testable_heap h = true ->
  exists h' i,
    h !! l = Some i /\
    commit n l h = Ok tt h' /\
    h' !! l = Some (clear_saved i) /\
    (forall k x, h !! k = Some x -> h' !! k = Some x \/ h' !! k = Some (clear_saved x)) /\
    isChanged n l h' = Ok false h' /\
    (forall f, f ∈ cfields (constructor i) -> fieldIsChanged n l f h' = Ok false h') /\
    commit n l h' = Ok tt h' /\
    rollback n l h' = Ok tt h'.
Proof.
  intros Hr _.
  destruct (walk_returns clear clear_clean clear_id n l h Hr)
    as (h' & i & i' & Hi & [= <-] & Hw & [_ Hst] & Hi' & Hc).
  exists h', i. split; [exact Hi|]. split; [now rewrite commit_walk|].
  split; [exact Hi'|]. split.
  { intros k x Hk. destruct (Hst k x Hk) as [?|(x' & [= <-] & ?)]; auto. }
  split; [now apply isChanged_clean_false|].
  split; [intros f Hf; exact (clean_fieldIsChanged _ _ _ _ f (clean_ranked_S _ _ _ Hc) Hi' Hf)|].
  split.
  - rewrite commit_walk. now apply (walk_clean clear clear_id).
  - rewrite rollback_walk. now apply (walk_clean restore restore_id).
Qed.

Lemma commit_clears_every_change_witness :
  exists h',
    commit 2 0 inception_2 = Ok tt h' /\
    isChanged 2 0 h' = Ok false h' /\
    descriptor_get 0 title h' = Ok (VString "Tenet") h'.
Proof.
  destruct (commit_clears_every_change inception_2 2 0)
    as (h' & i & Hi & Hcm & Hi' & _ & Hch & _); [vm_compute; reflexivity..|].
  exists h'. split; [exact Hcm|]. split; [exact Hch|].
  rewrite (descriptor_get_Ok _ title _ _ Hi'). f_equal.
  assert (Hv : inception_2 !! 0 = Some i -> _getFieldValue (clear_saved i) title = VString "Tenet").
  { vm_compute. now intros [= <-]. }
  exact (Hv Hi).
Defined.




(** *** Queries: [isChanged], [fieldIsChanged] and [serialize] *)

(** A computation that returns in the heap it started from. *)
Definition readonly {A} (m : M A) : Prop :=
  forall h a h', m h = Ok a h' -> h' = h.

Lemma readonly_ret {A} (a : A) : readonly (ret a).
Proof. intros h b h' H. now apply ret_Ok in H as [_ <-]. Qed.

Lemma readonly_bind {A B} (m : M A) (k : A -> M B) :
  readonly m -> (forall a, readonly (k a)) -> readonly (bind m k).
Proof.
  intros Hm Hk h b h' H. apply bind_Ok in H as (a & h1 & H1 & H2).
  apply Hm in H1 as ->. exact (Hk _ _ _ _ H2).
Qed.

Lemma readonly_throw {A} e : readonly (@throw A e).
Proof. intros h a h' H. discriminate. Qed.

Lemma readonly_diverge {A} : readonly (@diverge A).
Proof. intros h a h' H. discriminate. Qed.

Lemma readonly_get_instance l : readonly (get_instance l).
Proof. intros h a h' H. now apply get_instance_Ok in H as [_ <-]. Qed.

Lemma readonly_mapM {A B} (f : A -> M B) l :
  (forall a, readonly (f a)) -> readonly (mapM f l).
Proof.
  intros Hf. induction l as [|a l IH]; cbn [mapM]; [apply readonly_ret|].
  apply readonly_bind; [apply Hf|]. intros b.
  apply readonly_bind; [apply IH|]. intros bs. apply readonly_ret.
Qed.

Lemma readonly_find_loop p values :
  (forall v, readonly (p v)) -> readonly (find_loop p values).
Proof.
  intros Hp. induction values as [|v values IH]; cbn [find_loop]; [apply readonly_ret|].
  apply readonly_bind; [apply Hp|]. intros a.
  destruct (truthy a); [apply readonly_ret | apply IH].
Qed.

Lemma readonly_findFromOneOrMany p v :
  (forall v, readonly (p v)) -> readonly (findFromOneOrMany v p).
Proof.
  intros Hp.
  assert (Hone : readonly (accepted <- p v ;;
                           if truthy accepted then ret v else ret VUndefined)).
  { apply readonly_bind; [apply Hp|]. intros a. destruct (truthy a); apply readonly_ret. }
  destruct v; try exact Hone. now apply readonly_find_loop.
Qed.

Lemma readonly_forEachField_loop func fields :
  (forall field, readonly (func field)) -> readonly (forEachField_loop func fields).
Proof.
  intros Hf. induction fields as [|f fields IH]; cbn [forEachField_loop];
    [apply readonly_ret|].
  apply readonly_bind; [apply Hf|]. intros r.
  destruct (is_undefined r); [apply IH | apply readonly_ret].
Qed.

Lemma readonly_forEachSubmodel this func :
  (forall s, readonly (func s)) -> readonly (forEachSubmodel this func).
Proof.
  intros Hf. unfold forEachSubmodel, forEachField.
  apply readonly_bind; [apply readonly_get_instance|]. intros i0.
  apply readonly_forEachField_loop. intros field.
  apply readonly_bind; [apply readonly_get_instance|]. intros i.
  apply readonly_findFromOneOrMany. intros v.
  destruct v; try apply readonly_ret.
  apply readonly_bind; [apply Hf|]. intros r. apply readonly_ret.
Qed.

Lemma readonly__isChanged fuel : forall this, readonly (_isChanged fuel this).
Proof.
  induction fuel as [|fuel IH]; intros this; [apply readonly_diverge|].
  cbn [_isChanged]. apply readonly_bind; [apply readonly_get_instance|]. intros i.
  destruct (_savedFieldValues i); [apply readonly_ret|].
  now apply readonly_forEachSubmodel.
Qed.

Lemma readonly_isChanged fuel this : readonly (isChanged fuel this).
Proof.
  unfold isChanged. apply readonly_bind; [apply readonly__isChanged|].
  intros r. apply readonly_ret.
Qed.

Lemma readonly_fieldIsChanged fuel this field : readonly (fieldIsChanged fuel this field).
Proof.
  unfold fieldIsChanged. apply readonly_bind; [apply readonly_get_instance|]. intros i.
  destruct (match _savedFieldValues i with
            | Some saved => bool_decide (is_Some (saved !! name field))
            | None => false
            end); [apply readonly_ret|].
  destruct (is_undefined (_getFieldValue i field)); [apply readonly_ret|].
  apply readonly_bind; [|intros; apply readonly_ret].
  apply readonly_findFromOneOrMany. intros v. destruct v; try apply readonly_ret.
  apply readonly_bind; [apply readonly_isChanged|]. intros b. apply readonly_ret.
Qed.

Lemma readonly_selected fuel this field opts : readonly (selected fuel this field opts).
Proof.
  unfold selected.
  assert (Hothers : readonly
            (changed <- (if includeChangedFields opts then fieldIsChanged fuel this field
                         else ret false) ;;
             ret (changed || (includeOwnedFields opts && isOwned field)))).
  { apply readonly_bind; [|intros; apply readonly_ret].
    destruct (includeChangedFields opts); [apply readonly_fieldIsChanged | apply readonly_ret]. }
  destruct (includeFields opts) as [|names|]; [apply readonly_ret| |exact Hothers].
  destruct (existsb (String.eqb (name field)) names); [apply readonly_ret | exact Hothers].
Qed.

Lemma readonly_serializeValue serialize_ field v opts :
  (forall l o, readonly (serialize_ l o)) ->
  readonly (serializeValue serialize_ field v opts).
Proof.
  intros Hs.
  assert (Hscalar : forall v, readonly (serializeScalar serialize_ v opts)).
  { intros v'. destruct v'; cbn [serializeScalar]; first [apply readonly_ret | apply Hs]. }
  destruct v; cbn [serializeValue]; try apply Hscalar; [apply readonly_ret|].
  apply readonly_bind; [now apply readonly_mapM|]. intros; apply readonly_ret.
Qed.

Lemma readonly_serialize_fields serialize_ fuel this opts fields :
  (forall l o, readonly (serialize_ l o)) ->
  forall result, readonly (serialize_fields serialize_ fuel this opts fields result).
Proof.
  intros Hs. induction fields as [|f fields IH]; intros result; cbn [serialize_fields];
    [apply readonly_ret|].
  apply readonly_bind; [apply readonly_selected|]. intros included.
  destruct included; [|apply IH].
  apply readonly_bind; [apply readonly_get_instance|]. intros i.
  apply readonly_bind; [now apply readonly_serializeValue|]. intros v.
  destruct (is_undefined v); apply IH.
Qed.

Lemma readonly_serialize fuel : forall this opts, readonly (serialize fuel this opts).
Proof.
  induction fuel as [|fuel IH]; intros this opts; [apply readonly_diverge|].
  cbn [serialize]. apply readonly_bind; [apply readonly_get_instance|]. intros i.
  apply readonly_bind; [now apply readonly_serialize_fields|]. intros; apply readonly_ret.
Qed.

(** X21. [isChanged], [fieldIsChanged] and [serialize] write nothing: when they
    return, every instance is as it was. *)
Theorem queries_leave_the_heap_as_it_is :
  (forall fuel l h b h', isChanged fuel l h = Ok b h' -> h' = h) /\
  (forall fuel l field h b h', fieldIsChanged fuel l field h = Ok b h' -> h' = h) /\
  (forall fuel l opts h w h', serialize fuel l opts h = Ok w h' -> h' = h).
Proof.
  split; [|split].
  - intros fuel l h b h'. apply readonly_isChanged.
  - intros fuel l field h b h'. apply readonly_fieldIsChanged.
  - intros fuel l opts h w h'. apply readonly_serialize.
Qed.

(** **** What the two change queries report *)

(** the predicate of [fieldIsChanged] *)
Definition changed_submodel (fuel : nat) (v : value) : M value :=
  match v with
  | VModel l => b <- isChanged fuel l ;; ret (VBool b)
  | _ => ret VUndefined
  end.

Lemma isChanged_iff_saved_values fuel p h b h' :
  isChanged fuel p h = Ok b h' -> (b = true <-> has_saved_values h p).
Proof.
  intros H. split.
  - intros ->. exact (isChanged_true_only_with_saved_values _ _ _ _ H).
  - intros Hs. destruct fuel as [|k]; [discriminate|].
    pose proof (readonly_isChanged _ _ _ _ _ H) as ->.
    rewrite (has_saved_values_isChanged h p k Hs) in H. now injection H as <-.
Qed.

Lemma changed_submodel_accepts fuel v h a h' :
  changed_submodel fuel v h = Ok a h' ->
  h' = h /\ (truthy a = true <-> exists s, v = VModel s /\ has_saved_values h s).
Proof.
  intros H. destruct v as [| |b|z|str|es|elements|l];
    try (apply ret_Ok in H as [<- <-]; split; [reflexivity|];
         split; [discriminate | now intros (s & [=] & _)]).
  cbn [changed_submodel] in H. apply bind_Ok in H as (b & h1 & Hc & H).
  apply ret_Ok in H as [<- <-]. pose proof (readonly_isChanged _ _ _ _ _ Hc) as ->.
  split; [reflexivity|]. cbn [truthy]. rewrite (isChanged_iff_saved_values _ _ _ _ _ Hc).
  split; [eauto|]. now intros (s & [= <-] & Hs).
Qed.

Lemma find_loop_changed fuel values h r h' :
  find_loop (changed_submodel fuel) values h = Ok r h' ->
  h' = h /\
  (r <> VUndefined <-> exists s, VModel s ∈ values /\ has_saved_values h s).
Proof.
  revert h. induction values as [|v values IH]; intros h H.
  - apply ret_Ok in H as [<- <-]. split; [reflexivity|]. split; [congruence|].
    intros (s & Hs & _). now apply elem_of_nil in Hs.
  - cbn [find_loop] in H. apply bind_Ok in H as (a & h1 & Hv & H).
    apply changed_submodel_accepts in Hv as [-> Ha]. destruct (truthy a) eqn:Hta.
    + apply ret_Ok in H as [<- <-]. split; [reflexivity|].
      destruct (proj1 Ha eq_refl) as (s & -> & Hs). split; [|discriminate].
      intros _. exists s. split; [apply list_elem_of_here | exact Hs].
    + destruct (IH _ H) as [-> Hr]. split; [reflexivity|]. rewrite Hr. split.
      * intros (s & Hin & Hs). exists s. split; [now apply list_elem_of_further | exact Hs].
      * intros (s & Hin & Hs). apply elem_of_cons in Hin as [<-|Hin]; [|eauto].
        assert (false = true) by (apply Ha; eauto). discriminate.
Qed.

Lemma submodels_candidates v s : s ∈ submodels_of v <-> VModel s ∈ candidates v.
Proof.
  split; [|apply candidates_submodels].
  destruct v as [| |b|z|str|es|elements|l]; cbn [candidates submodels_of]; intros H;
    try (now apply elem_of_nil in H).
  - apply list_elem_of_omap in H as (v & Hv & Hs). destruct v; try discriminate.
    now injection Hs as ->.
  - apply list_elem_of_singleton in H as ->. apply list_elem_of_here.
Qed.

Lemma findFromOneOrMany_changed fuel v h r h' :
  findFromOneOrMany v (changed_submodel fuel) h = Ok r h' ->
  h' = h /\
  (r <> VUndefined <-> exists s, s ∈ submodels_of v /\ has_saved_values h s).
Proof.
  intros H.
  assert (Hiff : (exists s, s ∈ submodels_of v /\ has_saved_values h s) <->
                 (exists s, VModel s ∈ candidates v /\ has_saved_values h s)).
  { split; intros (s & Hs & Hsv); exists s; split; auto; now apply submodels_candidates. }
  rewrite Hiff. clear Hiff.
  assert (Hone : candidates v = [v] ->
    (accepted <- changed_submodel fuel v ;;
     if truthy accepted then ret v else ret VUndefined) h = Ok r h' ->
    h' = h /\ (r <> VUndefined <-> exists s, VModel s ∈ candidates v /\ has_saved_values h s)).
  { clear H. intros Hc H. rewrite Hc. apply bind_Ok in H as (a & h1 & Hv & H).
    apply changed_submodel_accepts in Hv as [-> Ha]. destruct (truthy a) eqn:Hta.
    - apply ret_Ok in H as [<- <-]. split; [reflexivity|].
      destruct (proj1 Ha eq_refl) as (s & -> & Hs). split; [|discriminate].
      intros _. exists s. split; [apply list_elem_of_here | exact Hs].
    - apply ret_Ok in H as [<- <-]. split; [reflexivity|]. split; [congruence|].
      intros (s & Hin & Hs). apply list_elem_of_singleton in Hin as <-.
      assert (false = true) by (apply Ha; eauto). discriminate. }
  destruct v; try exact (Hone eq_refl H). exact (find_loop_changed _ _ _ _ _ H).
Qed.

(** X22. What the two queries report, when they return.  [isChanged()] is true
    exactly when the instance itself has saved values: a change of a
    submodel alone does not make it true.  [fieldIsChanged(field)] is true
    exactly when the instance has a saved value for the field or the field
    holds (alone or in an array) an instance that itself has saved
    values. *)
Theorem change_queries_look_at_saved_values :
  (forall fuel p h b h',
      isChanged fuel p h = Ok b h' -> (b = true <-> has_saved_values h p)) /\
  (forall fuel p (field : Field) h b h' i,
      h !! p = Some i ->
      fieldIsChanged fuel p field h = Ok b h' ->
      (b = true <->
       (exists saved, _savedFieldValues i = Some saved /\ is_Some (saved !! name field)) \/
       (exists s, s ∈ submodels_of (_getFieldValue i field) /\ has_saved_values h s))).
Proof.
  split; [exact isChanged_iff_saved_values|].
  intros fuel p field h b h' i Hi H. unfold fieldIsChanged in H.
  apply bind_Ok in H as (i0 & h1 & Hget & H). apply get_instance_Ok in Hget as [Hi0 <-].
  rewrite Hi in Hi0. injection Hi0 as <-.
  destruct (match _savedFieldValues i with
            | Some saved => bool_decide (is_Some (saved !! name field))
            | None => false
            end) eqn:Hsaved.
  - apply ret_Ok in H as [<- _]. split; [|reflexivity]. intros _. left.
    destruct (_savedFieldValues i) as [saved|]; [|discriminate].
    exists saved. split; [reflexivity|]. now apply bool_decide_eq_true in Hsaved.
  - assert (Hno : ~ exists saved, _savedFieldValues i = Some saved /\
                                  is_Some (saved !! name field)).
    { intros (saved & Hs & Hin). rewrite Hs in Hsaved.
      apply bool_decide_eq_false in Hsaved. contradiction. }
    destruct (is_undefined (_getFieldValue i field)) eqn:Hu.
    + apply ret_Ok in H as [<- _]. split; [discriminate|].
      apply is_undefined_true in Hu. rewrite Hu.
      intros [?|(s & Hs & _)]; [contradiction | now apply elem_of_nil in Hs].
    + apply bind_Ok in H as (changedValue & h1 & Hfind & H). apply ret_Ok in H as [<- _].
      apply (findFromOneOrMany_changed fuel) in Hfind as [_ Hr].
      rewrite <- Hr. split.
      * intros Hb. right. intros ->. discriminate.
      * intros [?|Hc]; [contradiction|]. destruct changedValue; try reflexivity.
        now contradiction Hc.
Qed.

(** *** [serialize] with a list of field names *)

Section Listed.

Variable opts : options.
Variable names : list string.
Hypothesis listed : includeFields opts = TheseFields names.
Hypothesis not_changed : includeChangedFields opts = false.
Hypothesis not_owned : includeOwnedFields opts = false.

Lemma selected_listed fuel this (field : Field) h :
  selected fuel this field opts h = Ok (existsb (String.eqb (name field)) names) h.
Proof.
  unfold selected. rewrite listed, not_changed, not_owned.
  now destruct (existsb (String.eqb (name field)) names).
Qed.

Lemma existsb_eqb_elem_of (n : string) : existsb (String.eqb n) names = true <-> n ∈ names.
Proof.
  rewrite existsb_exists. split.
  - intros (x & Hin & Heq). apply String.eqb_eq in Heq as ->. now apply list_elem_of_In.
  - intros Hin. exists n. split; [now apply list_elem_of_In | apply String.eqb_refl].
Qed.

Lemma serialize_fields_listed serialize_ fuel this fields : forall result h r h',
  serialize_fields serialize_ fuel this opts fields result h = Ok r h' ->
  (forall k, k ∈ obj_keys result -> k ∈ obj_keys r) /\
  (forall k, k ∈ obj_keys r ->
     k ∈ obj_keys result \/
     exists f, f ∈ fields /\ serializedKey f = k /\ name f ∈ names).
Proof.
  induction fields as [|f fields IH]; intros result h r h' H.
  - apply ret_Ok in H as [<- _]. auto.
  - cbn [serialize_fields] in H. apply bind_Ok in H as (included & h1 & Hsel & H).
    rewrite selected_listed in Hsel. injection Hsel as <- <-.
    assert (Hskip : serialize_fields serialize_ fuel this opts fields result h = Ok r h' ->
              (forall k, k ∈ obj_keys result -> k ∈ obj_keys r) /\
              (forall k, k ∈ obj_keys r ->
                 k ∈ obj_keys result \/
                 exists f', f' ∈ f :: fields /\ serializedKey f' = k /\ name f' ∈ names)).
    { intros Hrest. destruct (IH _ _ _ _ Hrest) as [Hsub Hkeys]. split; [exact Hsub|].
      intros k Hk. destruct (Hkeys k Hk) as [?|(f' & Hf' & ?)]; [now left|].
      right. exists f'. split; [now apply list_elem_of_further | assumption]. }
    destruct (existsb (String.eqb (name f)) names) eqn:Hlisted; [|exact (Hskip H)].
    apply existsb_eqb_elem_of in Hlisted.
    apply bind_Ok in H as (i & h2 & _ & H). apply bind_Ok in H as (v & h3 & _ & H).
    destruct (is_undefined v).
    + destruct (IH _ _ _ _ H) as [Hsub Hkeys]. split; [exact Hsub|].
      intros k Hk. destruct (Hkeys k Hk) as [?|(f' & Hf' & ?)]; [now left|].
      right. exists f'. split; [now apply list_elem_of_further | assumption].
    + destruct (IH _ _ _ _ H) as [Hsub Hkeys]. split.
      * intros k Hk. apply Hsub. apply obj_keys_set_elem_of. now right.
      * intros k Hk. destruct (Hkeys k Hk) as [Hset|(f' & Hf' & ?)].
        -- apply obj_keys_set_elem_of in Hset as [->|?]; [|now left].
           right. exists f. split; [apply list_elem_of_here | auto].
        -- right. exists f'. split; [now apply list_elem_of_further | assumption].
Qed.

Lemma serialize_fields_unlisted serialize_ fuel this fields : forall result h,
  (forall f, f ∈ fields -> name f ∉ names) ->
  serialize_fields serialize_ fuel this opts fields result h = Ok result h.
Proof.
  induction fields as [|f fields IH]; intros result h Hno; [reflexivity|].
  cbn [serialize_fields]. unfold bind at 1. rewrite selected_listed.
  destruct (existsb (String.eqb (name f)) names) eqn:Hlisted.
  - apply existsb_eqb_elem_of in Hlisted. now destruct (Hno f (list_elem_of_here _ _)).
  - apply IH. intros f' Hf'. apply Hno. now apply list_elem_of_further.
Qed.

End Listed.

(** X23. [serialize({includeFields: names})], with neither the changed nor the
    owned fields asked for: the keys of the object returned are [_type]
    and keys of fields whose name is in [names]; when no field of the
    class is named in [names] (an empty list, for one) the object is
    [{_type}] alone and no submodel is read. *)
Theorem serialize_lists_only_the_fields_named opts names l h i :
  includeFields opts = TheseFields names ->
  includeChangedFields opts = false ->
  includeOwnedFields opts = false ->
  h !! l = Some i ->
  (forall fuel w h',
      serialize fuel l opts h = Ok w h' ->
      exists es,
        w = VObject es /\ "_type" ∈ obj_keys es /\
        forall k, k ∈ obj_keys es ->
          k = "_type" \/
          exists f, f ∈ cfields (constructor i) /\ serializedKey f = k /\ name f ∈ names) /\
  ((forall f, f ∈ cfields (constructor i) -> name f ∉ names) ->
   forall fuel,
     serialize (S fuel) l opts h
     = Ok (VObject [("_type", VString (getName (constructor i)))]) h).
Proof.
  intros Hl Hc Ho Hi. split.
  - intros fuel w h' H. destruct fuel as [|fuel]; [discriminate|].
    cbn [serialize] in H. apply bind_Ok in H as (i0 & h1 & Hget & H).
    apply get_instance_Ok in Hget as [Hi0 <-]. rewrite Hi in Hi0. injection Hi0 as <-.
    apply bind_Ok in H as (es & h2 & Hfields & H). apply ret_Ok in H as [<- _].
    destruct (serialize_fields_listed opts names Hl Hc Ho _ _ _ _ _ _ _ _ Hfields)
      as [Hsub Hkeys].
    exists es. split; [reflexivity|]. split.
    + apply Hsub. cbn. apply list_elem_of_here.
    + intros k Hk. destruct (Hkeys k Hk) as [Hin|?]; [|now right].
      left. cbn in Hin. now apply list_elem_of_singleton in Hin.
  - intros Hno fuel. cbn [serialize]. unfold bind at 1, get_instance at 1. rewrite Hi.
    unfold bind at 1.
    now rewrite (serialize_fields_unlisted opts names Hl Hc Ho _ _ _ _ _ _ Hno).
Qed.

Lemma serialize_lists_only_the_fields_named_witness :
  serialize 1 0
    {| includeFields := TheseFields []; includeChangedFields := false;
       includeUndefinedFields := false; includeOwnedFields := false |} inception_1
  = Ok (VObject [("_type", VString "Movie")]) inception_1.
Proof.
  assert (Hi : exists i, inception_1 !! 0 = Some i /\ getName (constructor i) = "Movie").
  { eexists. split; vm_compute; reflexivity. }
  destruct Hi as (i & Hi & Hname). rewrite <- Hname.
  refine (proj2 (serialize_lists_only_the_fields_named
                   {| includeFields := TheseFields []; includeChangedFields := false;
                      includeUndefinedFields := false; includeOwnedFields := false |}
                   [] 0 inception_1 i eq_refl eq_refl eq_refl Hi) _ 0).
  intros f _ Hf. now apply elem_of_nil in Hf.
Defined.

(** *** [clone] *)

Lemma serialize_fields_mono s1 s2 k1 k2 this fields :
  (forall l h w h', s1 l no_options h = Ok w h' -> s2 l no_options h = Ok w h') ->
  forall result h r h',
    serialize_fields s1 k1 this no_options fields result h = Ok r h' ->
    serialize_fields s2 k2 this no_options fields result h = Ok r h'.
Proof.
  intros Hs.
  assert (Hscalar : forall v h w h',
            serializeScalar s1 v no_options h = Ok w h' ->
            serializeScalar s2 v no_options h = Ok w h').
  { intros v. destruct v; cbn [serializeScalar]; auto. }
  assert (HmapM : forall vs h ws h',
            mapM (fun v => serializeScalar s1 v no_options) vs h = Ok ws h' ->
            mapM (fun v => serializeScalar s2 v no_options) vs h = Ok ws h').
  { induction vs as [|v vs IHvs]; intros h ws h' H; [exact H|].
    cbn [mapM] in H |- *. apply bind_Ok in H as (w & h1 & Hv & H).
    apply bind_Ok in H as (ws' & h2 & Hvs & H).
    unfold bind. rewrite (Hscalar _ _ _ _ Hv), (IHvs _ _ _ Hvs). exact H. }
  assert (Hvalue : forall f v h w h',
            serializeValue s1 f v no_options h = Ok w h' ->
            serializeValue s2 f v no_options h = Ok w h').
  { intros f v. destruct v; cbn [serializeValue]; auto.
    intros h w h' H. apply bind_Ok in H as (ws & h1 & Hvs & H).
    unfold bind. now rewrite (HmapM _ _ _ _ Hvs). }
  induction fields as [|f fields IH]; intros result h r h' H; [exact H|].
  cbn [serialize_fields] in H |- *. unfold bind at 1 in H. unfold bind at 1.
  cbn [selected no_options includeFields ret] in H |- *.
  apply bind_Ok in H as (i & h1 & Hget & H). apply bind_Ok in H as (v & h2 & Hv & H).
  unfold bind at 1. rewrite Hget. unfold bind at 1. rewrite (Hvalue _ _ _ _ _ Hv).
  destruct (is_undefined v); now apply IH.
Qed.

Lemma serialize_mono n : forall l h w h',
  serialize n l no_options h = Ok w h' -> serialize (S n) l no_options h = Ok w h'.
Proof.
  induction n as [|n IH]; intros l h w h' H; [discriminate|].
  cbn [serialize] in H. apply bind_Ok in H as (i & h1 & Hget & H).
  apply bind_Ok in H as (es & h2 & Hfields & H).
  change (serialize (S (S n)) l no_options h) with
    ((i <- get_instance l ;;
      result <- serialize_fields (serialize (S n)) (S n) l no_options
                  (cfields (constructor i))
                  [("_type", VString (getName (constructor i)))] ;;
      ret (VObject result)) h).
  unfold bind at 1. rewrite Hget. unfold bind at 1.
  now rewrite (serialize_fields_mono (serialize n) (serialize (S n)) n (S n) _ _ IH
                 _ _ _ _ Hfields).
Qed.

Lemma serialize_mono_le n m l h w h' :
  n <= m -> serialize n l no_options h = Ok w h' -> serialize m l no_options h = Ok w h'.
Proof. induction 1 as [|m _ IH]; [auto|]. intros H. now apply serialize_mono, IH. Qed.

Lemma fuel_for_ge n : n <= fuel_for n.
Proof. induction n as [|n IH]; cbn [fuel_for]; lia. Qed.

(** X24. The clone of an instance that can be serialized (registered classes
    whose field names and keys are not names every object inherits, with
    no key [isOfType]; field values that conform to the fields and that
    the type test can be applied to; no cycle) is a new instance of
    the same class, which is serialized to what the instance is serialized
    to and reports no change; the instances that were there are as they
    were. *)
Theorem clone_is_a_new_instance_with_the_same_serialization r h n l i :
  serializable r h n l ->
  testable_heap h = true ->
  wire_keys_ok r = true ->
  h !! l = Some i ->
  exists w l' h' i',
    serialize n l no_options h = Ok w h /\
    clone (Some r) (fuel_for n) l h = Ok (VModel l') h' /\
    h !! l' = None /\
    (forall k x, h !! k = Some x -> h' !! k = Some x) /\
    h' !! l' = Some i' /\ constructor i' = constructor i /\
    serialize n l' no_options h' = Ok w h' /\
    isChanged n l' h' = Ok false h'.
Proof.
  intros Hs _ _ Hi.
  destruct (serialize_wired r h n l Hs) as (i0 & w & Hi0 & Hw & Hwired).
  rewrite Hi in Hi0. injection Hi0 as <-.
  destruct (construct_wired r n (constructor i) w (constructor i) h Hwired
              (isOfType_own_name _))
    as (l' & h' & Hc & Hext & Hfresh & Hre).
  destruct (Hre h' (fun k _ => eq_refl)) as ((i' & Hi' & HD) & Hser & Hclean).
  exists w, l', h', i'. split; [exact Hw|]. split.
  - unfold clone, bind at 1, get_instance at 1. rewrite Hi. unfold bind at 1.
    rewrite (serialize_mono_le n (fuel_for n) _ _ _ _ (fuel_for_ge n) Hw). exact Hc.
  - split; [apply lookup_ge_None; lia|].
    split; [intros k x Hk; exact (extends_lookup _ _ _ _ Hext Hk)|].
    split; [exact Hi'|]. split; [exact HD|]. split; [exact Hser|].
    now apply isChanged_clean_false.
Qed.

Lemma clone_is_a_new_instance_with_the_same_serialization_witness :
  exists w l' h' i',
    serialize 2 0 no_options inception_1 = Ok w inception_1 /\
    clone movies (fuel_for 2) 0 inception_1 = Ok (VModel l') h' /\
    inception_1 !! l' = None /\
    (forall k x, inception_1 !! k = Some x -> h' !! k = Some x) /\
    h' !! l' = Some i' /\ constructor i' = Movie /\
    serialize 2 l' no_options h' = Ok w h' /\
    isChanged 2 l' h' = Ok false h'.
Proof.
  assert (Hi : exists i, inception_1 !! 0 = Some i /\ constructor i = Movie).
  { eexists. split; vm_compute; reflexivity. }
  destruct Hi as (i & Hi & HC). rewrite <- HC.
  assert (Ht : testable_heap inception_1 = true) by (vm_compute; reflexivity).
  assert (Hk : wire_keys_ok movies_registry = true) by (vm_compute; reflexivity).
  exact (clone_is_a_new_instance_with_the_same_serialization
           movies_registry inception_1 2 0 i inception_serializable Ht Hk Hi).
Defined.

(** *** Fields by name and by key *)

Lemma getFieldBySerializedName_None C k :
  getFieldBySerializedName C k = None <-> k ∉ serializedKey <$> cfields C.
Proof.
  unfold getFieldBySerializedName. induction (cfields C) as [|g fs IH]; cbn [find fmap list_fmap].
  - split; [intros _; apply not_elem_of_nil | reflexivity].
  - rewrite not_elem_of_cons. destruct (String.eqb_spec (serializedKey g) k) as [Heq|Hne].
    + split; [discriminate | intros [Hk _]; congruence].
    + rewrite IH. split; [intros Hk; split; [congruence | exact Hk] | now intros [_ Hk]].
Qed.

(** X25. The key under which [serialize] writes a field is one under which a
    deserialization finds the field, when the keys of the class are
    distinct; and a field that has a [serializedName] of its own is not
    found under its name, unless the name is the key of some field. *)
Theorem deserialization_finds_a_field_by_its_key C (f : Field) :
  NoDup (serializedKey <$> cfields C) ->
  f ∈ cfields C ->
  getFieldBySerializedName C (serializedKey f) = Some f /\
  (name f ∉ serializedKey <$> cfields C -> getFieldBySerializedName C (name f) = None).
Proof.
  intros Hnd Hf. split; [now apply getFieldBySerializedName_key|].
  apply getFieldBySerializedName_None.
Qed.

Lemma deserialization_finds_a_field_by_its_key_witness :
  getFieldBySerializedName Movie (serializedKey year) = Some year.
Proof.
  refine (proj1 (deserialization_finds_a_field_by_its_key Movie year _ _)).
  - refine (@bool_decide_unpack _ _ _). vm_compute. exact I.
  - cbn. apply elem_of_cons. right. apply list_elem_of_here.
Defined.

(** [setField(name, type, options)] adds a field to the fields of the
    class, of which the class gets a copy of its own first; here it returns
    the class as it is after the call, and the field.  [None] is the
    exception 'Field already exists'.  The arguments are given as the
    [Field] that [new Field(name, type, options)] makes of them, [field]
    (a record of [Field], modelled above), whose name is the [name]
    given. *)
Definition setField (C : Class) (field : Field) : option (Class * Field) :=
  match getField C (name field) with
  | Some _ => None
  | None =>
      Some ({| cname := cname C; csupers := csupers C;
               cfields := (cfields C ++ [field])%list |}, field)
  end.

Lemma getField_None_iff C n : getField C n = None <-> n ∉ name <$> cfields C.
Proof.
  unfold getField. induction (cfields C) as [|g fs IH]; cbn [find fmap list_fmap].
  - split; [intros _; apply not_elem_of_nil | reflexivity].
  - rewrite not_elem_of_cons. destruct (String.eqb_spec (name g) n) as [Heq|Hne].
    + split; [discriminate | intros [Hk _]; congruence].
    + rewrite IH. split; [intros Hk; split; [congruence | exact Hk] | now intros [_ Hk]].
Qed.

Lemma find_app_l {A} (p : A -> bool) (l1 l2 : list A) a :
  List.find p l1 = Some a -> List.find p (l1 ++ l2) = Some a.
Proof.
  induction l1 as [|x l1 IH]; cbn; [discriminate|]. destruct (p x); [auto | exact IH].
Qed.

Lemma find_app_r {A} (p : A -> bool) (l1 l2 : list A) :
  List.find p l1 = None -> List.find p (l1 ++ l2) = List.find p l2.
Proof.
  induction l1 as [|x l1 IH]; cbn; [reflexivity|]. destruct (p x); [discriminate | exact IH].
Qed.

(** X26. For a name that is not a name every object inherits (under which
    [this._fields[name]] is a function, and [setField] throws):
    [setField] throws 'Field already exists' exactly when the class has a
    field of the name, its own or inherited from its superclass.
    Otherwise the field is found under its name afterwards, the fields of
    other names are the ones found before, and the names of the fields are
    still pairwise distinct. *)
Theorem setField_keeps_the_names_distinct C (field : Field) :
  NoDup (name <$> cfields C) ->
  own_name (name field) = true ->
  match setField C field with
  | None => (name field ∈ name <$> cfields C)
  | Some (C', field') =>
      field' = field /\
      (name field ∉ name <$> cfields C) /\
      NoDup (name <$> cfields C') /\
      getField C' (name field) = Some field /\
      forall n, n <> name field -> getField C' n = getField C n
  end.
Proof.
  intros Hnd _. unfold setField. destruct (getField C (name field)) as [g|] eqn:Eg.
  - apply getField_Some in Eg as [Hg Hn]. rewrite <- Hn. now apply list_elem_of_fmap_2.
  - pose proof (proj1 (getField_None_iff _ _) Eg) as Hfresh.
    split; [reflexivity|]. split; [exact Hfresh|]. cbn [cfields]. split; [|split].
    + rewrite fmap_app. apply NoDup_app. split; [exact Hnd|]. split.
      * intros n Hn Hin. cbn in Hin. apply list_elem_of_singleton in Hin as ->. contradiction.
      * cbn. apply NoDup_singleton.
    + unfold getField in *. cbn [cfields]. rewrite (find_app_r _ _ _ Eg). cbn.
      now rewrite String.eqb_refl.
    + intros n Hne. unfold getField. cbn [cfields].
      destruct (find (fun f => String.eqb (name f) n) (cfields C)) as [g|] eqn:En.
      * now apply find_app_l.
      * rewrite (find_app_r _ _ _ En). cbn.
        destruct (String.eqb_spec (name field) n); [congruence | reflexivity].
Qed.

Lemma setField_keeps_the_names_distinct_witness :
  match setField TechnicalSpecs year with
  | None => (name year ∈ name <$> cfields TechnicalSpecs)
  | Some (C', field') =>
      field' = year /\
      (name year ∉ name <$> cfields TechnicalSpecs) /\
      NoDup (name <$> cfields C') /\
      getField C' (name year) = Some year /\
      forall n, n <> name year -> getField C' n = getField TechnicalSpecs n
  end.
Proof.
  apply (setField_keeps_the_names_distinct TechnicalSpecs year); [|reflexivity].
  cbn. apply NoDup_singleton.
Defined.

End Model.

(** ** field-mask.js, with the objects in a store

    The masks above are values.  In the program a mask holds a reference
    to the object [_fields], whose nested objects are references again, and
    [$set] writes to it.  Here the objects live in a store, so that it can
    be said which objects an operation writes to and which objects two
    masks share. *)

Module FieldMaskStore.

(** what an object of a mask holds under a name: [true] or a reference to
    a nested object *)
Inductive jsvalue : Type :=
| JTrue
| JObject (l : nat).

Abbreviation object := (list (string * jsvalue)).
Abbreviation store := (list (list (string * jsvalue))).

Inductive result (A : Type) : Type :=
| Ok (a : A) (s : store)
| Err (e : error)
| Diverges.
Arguments Ok {A} a s.
Arguments Err {A} e.
Arguments Diverges {A}.

Definition M (A : Type) : Type := store -> result A.

Definition ret {A} (a : A) : M A := fun s => Ok a s.

Definition bind {A B} (m : M A) (k : A -> M B) : M B :=
  fun s =>
    match m s with
    | Ok a s' => k a s'
    | Err e => Err e
    | Diverges => Diverges
    end.

Definition throw {A} (e : error) : M A := fun _ => Err e.

Definition diverge {A} : M A := fun _ => Diverges.

Declare Scope store_scope.
Delimit Scope store_scope with store.
Notation "x <- c1 ;; c2" := (bind c1 (fun x => c2))
  (at level 100, c1 at next level, right associativity) : store_scope.
Notation "c1 ;;; c2" := (bind c1 (fun _ => c2))
  (at level 100, right associativity) : store_scope.
Open Scope store_scope.

(** the object at a reference *)
Definition read (l : nat) : M object :=
  fun s =>
    match s !! l with
    | Some o => Ok o s
    | None => Err Unallocated
    end.

(** [o[name] = v] for the object [o] at [l] *)
Definition write (l : nat) (name : string) (v : jsvalue) : M unit :=
  fun s =>
    match s !! l with
    | Some o => Ok tt (<[l := obj_set o name v]> s)
    | None => Err Unallocated
    end.

(** a new object with the given properties *)
Definition alloc (o : object) : M nat :=
  fun s => Ok (List.length s) (s ++ [o])%list.

(** one iteration of the loop of [_merge] *)
Definition merge_name (rec : nat -> nat -> M nat) (rootFields mergedFields : nat)
    (name : string) (otherFields : jsvalue) : M unit :=
  rf <- read rootFields ;;
  match otherFields, obj_get rf name with
  | JTrue, Some (JObject _) => throw IncompatibleMask
  | JTrue, None => write mergedFields name JTrue
  | JTrue, Some JTrue => ret tt
  | JObject _, Some JTrue => throw IncompatibleMask
  | JObject lo, None =>
      fields <- alloc [] ;;
      m <- rec fields lo ;;
      write mergedFields name (JObject m)
  | JObject lo, Some (JObject lf) =>
      m <- rec lf lo ;;
      write mergedFields name (JObject m)
  end.

Fixpoint merge_loop (rec : nat -> nat -> M nat) (rootFields mergedFields : nat)
    (es : object) : M unit :=
  match es with
  | [] => ret tt
  | (name, otherFields) :: rest =>
      merge_name rec rootFields mergedFields name otherFields ;;;
      merge_loop rec rootFields mergedFields rest
  end.

(** [_merge(rootFields, rootOtherFields)]: [mergedFields] is a new object
    with the properties of [rootFields] (the references among them, not
    copies of what they refer to). *)
Fixpoint _merge (fuel : nat) (rootFields rootOtherFields : nat) : M nat :=
  match fuel with
  | 0 => diverge
  | S fuel' =>
      rf <- read rootFields ;;
      mergedFields <- alloc rf ;;
      ro <- read rootOtherFields ;;
      merge_loop (_merge fuel') rootFields mergedFields ro ;;;
      ret mergedFields
  end.

(** [$add(fields, otherFields)]; a mask is the reference to its [_fields] *)
Definition add (fuel : nat) (fields otherFields : nat) : M nat :=
  _merge fuel fields otherFields.

(** what [$get] returns: [false], [true], or a mask whose [_fields] is the
    nested object itself *)
Inductive selection : Type :=
| NotSelected
| WhollySelected
| PartlySelected (mask : nat).

Definition get (this : nat) (name : string) : M selection :=
  if String.eqb name "" then throw InvalidArgument
  else
    o <- read this ;;
    match obj_get o name with
    | None => ret NotSelected
    | Some JTrue => ret WhollySelected
    | Some (JObject subfields) => ret (PartlySelected subfields)
    end.

Definition has (this : nat) (name : string) : M bool :=
  if String.eqb name "" then throw InvalidArgument
  else
    o <- read this ;;
    ret (match obj_get o name with Some _ => true | None => false end).

(** lodash's [cloneDeep] of an object of a mask, which [$serialize]
    returns of [_fields] *)
Fixpoint clone_entries (rec : nat -> M nat) (es : object) : M object :=
  match es with
  | [] => ret []
  | (name, JTrue) :: rest =>
      rest' <- clone_entries rec rest ;;
      ret ((name, JTrue) :: rest')
  | (name, JObject l) :: rest =>
      c <- rec l ;;
      rest' <- clone_entries rec rest ;;
      ret ((name, JObject c) :: rest')
  end.

Fixpoint cloneDeep (fuel : nat) (l : nat) : M nat :=
  match fuel with
  | 0 => diverge
  | S fuel' =>
      o <- read l ;;
      copy <- clone_entries (cloneDeep fuel') o ;;
      alloc copy
  end.

(** the second argument of [$set]: [true], a mask, or anything else *)
Inductive subfields_argument : Type :=
| ArgTrue
| ArgMask (mask : nat)
| ArgOther.

Definition set (fuel : nat) (this : nat) (name : string) (subfields : subfields_argument)
    : M unit :=
  if String.eqb name "" then throw InvalidArgument
  else
    match subfields with
    | ArgTrue => write this name JTrue
    | ArgMask m =>
        copy <- cloneDeep fuel m ;;
        write this name (JObject copy)
    | ArgOther => throw InvalidArgument
    end.

(** *** What [$add] writes to *)

Lemma store_bind_Ok {A B} (m : M A) (k : A -> M B) s b s' :
  bind m k s = Ok b s' <-> exists a s1, m s = Ok a s1 /\ k a s1 = Ok b s'.
Proof.
  unfold bind. destruct (m s) as [a s1| |]; split.
  - eauto.
  - now intros (a' & s1' & [= -> ->] & Hk).
  - discriminate.
  - now intros (? & ? & ? & _).
  - discriminate.
  - now intros (? & ? & ? & _).
Qed.

Lemma store_ret_Ok {A} (a b : A) s s' : ret a s = Ok b s' <-> a = b /\ s = s'.
Proof. unfold ret. split; [now intros [= -> ->] | now intros [-> ->]]. Qed.

Lemma read_Ok l s o s' : read l s = Ok o s' <-> s !! l = Some o /\ s = s'.
Proof.
  unfold read. destruct (s !! l); split; try discriminate; try (now intros [? _]).
  - now intros [= -> ->].
  - now intros [[= ->] ->].
Qed.

Lemma write_Ok l name v s u s' :
  write l name v s = Ok u s' <->
  exists o, s !! l = Some o /\ s' = <[l := obj_set o name v]> s.
Proof.
  unfold write. destruct (s !! l) as [o|]; split.
  - intros [= _ <-]. eauto.
  - intros (o' & [= <-] & ->). now destruct u.
  - discriminate.
  - now intros (? & ? & _).
Qed.

(** From [s] to [s'] no object is lost and the objects below [n] are as
    they were. *)
Definition keeps (n : nat) (s s' : store) : Prop :=
  List.length s <= List.length s' /\ forall k, k < n -> s' !! k = s !! k.

Lemma keeps_refl n s : keeps n s s.
Proof. split; [lia | auto]. Qed.

Lemma keeps_trans n s1 s2 s3 : keeps n s1 s2 -> keeps n s2 s3 -> keeps n s1 s3.
Proof. intros [L1 H1] [L2 H2]. split; [lia|]. intros k Hk. now rewrite H2, H1. Qed.

Lemma keeps_weaken n m s s' : m <= n -> keeps n s s' -> keeps m s s'.
Proof. intros Hmn [L H]. split; [exact L|]. intros k Hk. apply H. lia. Qed.

Lemma keeps_alloc n s o : n <= List.length s -> keeps n s (s ++ [o])%list.
Proof.
  intros Hn. split; [rewrite length_app; lia|].
  intros k Hk. apply lookup_app_l. lia.
Qed.

Lemma keeps_write n s l o : n <= l -> keeps n s (<[l := o]> s).
Proof.
  intros Hn. split; [now rewrite length_insert|].
  intros k Hk. apply list_lookup_insert_ne. lia.
Qed.

(** what a call of [_merge] is assumed to do, in the proofs about the
    loop: it returns a new object and keeps the store it was called with *)
Definition merge_frame (rec : nat -> nat -> M nat) : Prop :=
  forall a b s m s',
    rec a b s = Ok m s' ->
    keeps (List.length s) s s' /\ List.length s <= m < List.length s'.

Lemma merge_name_keeps rec rootFields mergedFields name otherFields n s u s' :
  merge_frame rec -> n <= mergedFields -> n <= List.length s ->
  merge_name rec rootFields mergedFields name otherFields s = Ok u s' ->
  keeps n s s'.
Proof.
  intros Hrec Hm Hn H. unfold merge_name in H.
  apply store_bind_Ok in H as (rf & s1 & Hread & H). apply read_Ok in Hread as [_ <-].
  assert (Hwrite : forall v sx u' sy,
            write mergedFields name v sx = Ok u' sy -> keeps n sx sy).
  { intros v sx u' sy Hw. apply write_Ok in Hw as (o & _ & ->). now apply keeps_write. }
  destruct otherFields as [|lo], (obj_get rf name) as [[|lf]|]; try discriminate.
  - apply store_ret_Ok in H as [_ <-]. apply keeps_refl.
  - exact (Hwrite _ _ _ _ H).
  - apply store_bind_Ok in H as (m & s2 & Hc & H). destruct (Hrec _ _ _ _ _ Hc) as [Hk _].
    eapply keeps_trans; [exact (keeps_weaken _ _ _ _ Hn Hk) | exact (Hwrite _ _ _ _ H)].
  - apply store_bind_Ok in H as (e & s2 & Ha & H). unfold alloc in Ha. injection Ha as <- <-.
    apply store_bind_Ok in H as (m & s3 & Hc & H). destruct (Hrec _ _ _ _ _ Hc) as [Hk _].
    eapply keeps_trans; [now apply keeps_alloc|].
    eapply keeps_trans; [|exact (Hwrite _ _ _ _ H)].
    apply (keeps_weaken (List.length (s ++ [[]])%list)); [|exact Hk].
    rewrite length_app. lia.
Qed.

Lemma merge_loop_keeps rec rootFields mergedFields es n : forall s u s',
  merge_frame rec -> n <= mergedFields -> n <= List.length s ->
  merge_loop rec rootFields mergedFields es s = Ok u s' ->
  keeps n s s'.
Proof.
  induction es as [|[name v] es IH]; intros s u s' Hrec Hm Hn H.
  - apply store_ret_Ok in H as [_ <-]. apply keeps_refl.
  - cbn [merge_loop] in H. apply store_bind_Ok in H as (u1 & s1 & H1 & H).
    pose proof (merge_name_keeps _ _ _ _ _ _ _ _ _ Hrec Hm Hn H1) as Hk1.
    eapply keeps_trans; [exact Hk1|]. apply (IH s1 u s' Hrec Hm); [|exact H].
    destruct Hk1 as [L _]. lia.
Qed.

Lemma merge_is_framed fuel : merge_frame (_merge fuel).
Proof.
  induction fuel as [|fuel IH]; intros a b s m s' H; [discriminate|].
  cbn [_merge] in H. apply store_bind_Ok in H as (rf & s1 & Hread & H).
  apply read_Ok in Hread as [_ <-].
  apply store_bind_Ok in H as (mf & s2 & Ha & H). unfold alloc in Ha. injection Ha as <- <-.
  apply store_bind_Ok in H as (ro & s3 & Hread & H). apply read_Ok in Hread as [_ <-].
  apply store_bind_Ok in H as (u & s4 & Hloop & H). apply store_ret_Ok in H as [<- <-].
  assert (Hk : keeps (List.length s) (s ++ [rf])%list s4).
  { apply (merge_loop_keeps _ _ _ _ (List.length s) _ _ _ IH (le_n _)) in Hloop;
      [exact Hloop|]. rewrite length_app. lia. }
  split.
  - eapply keeps_trans; [apply keeps_alloc, le_n | exact Hk].
  - destruct Hk as [L _]. rewrite length_app in L. cbn in L. lia.
Qed.

(** X10. [$add] writes to no object that was there before the call: the
    objects of the two masks, and every other object of the store, are
    afterwards what they were, and the mask returned is a new object. *)
Theorem add_writes_to_no_object_of_its_arguments fuel fields otherFields s m s' :
  add fuel fields otherFields s = Ok m s' ->
  (forall l o, s !! l = Some o -> s' !! l = Some o) /\
  s !! m = None /\ is_Some (s' !! m).
Proof.
  intros H. destruct (merge_is_framed _ _ _ _ _ _ H) as [[_ Hk] Hm]. split; [|split].
  - intros l o Hl. rewrite Hk; [exact Hl|]. now apply lookup_lt_Some in Hl.
  - apply lookup_ge_None. lia.
  - apply lookup_lt_is_Some. lia.
Qed.

Lemma add_writes_to_no_object_of_its_arguments_witness :
  (forall l o,
      [[("a", JTrue); ("b", JObject 1)]; [("c", JTrue)];
       [("b", JObject 3)]; [("d", JTrue)]] !! l = Some o ->
      [[("a", JTrue); ("b", JObject 1)]; [("c", JTrue)];
       [("b", JObject 3)]; [("d", JTrue)];
       [("a", JTrue); ("b", JObject 5)]; [("c", JTrue); ("d", JTrue)]] !! l = Some o) /\
  [[("a", JTrue); ("b", JObject 1)]; [("c", JTrue)];
   [("b", JObject 3)]; [("d", JTrue)]] !! 4 = None /\
  is_Some
    ([[("a", JTrue); ("b", JObject 1)]; [("c", JTrue)];
      [("b", JObject 3)]; [("d", JTrue)];
      [("a", JTrue); ("b", JObject 5)]; [("c", JTrue); ("d", JTrue)]] !! 4).
Proof.
  exact (add_writes_to_no_object_of_its_arguments 2 0 2
           [[("a", JTrue); ("b", JObject 1)]; [("c", JTrue)];
            [("b", JObject 3)]; [("d", JTrue)]]
           4
           [[("a", JTrue); ("b", JObject 1)]; [("c", JTrue)];
            [("b", JObject 3)]; [("d", JTrue)];
            [("a", JTrue); ("b", JObject 5)]; [("c", JTrue); ("d", JTrue)]]
           eq_refl).
Defined.

(** *** What the sum shares with the first mask *)

Lemma merge_name_shares rec rootFields mergedFields name' otherFields name s u s' om :
  merge_frame rec -> name' <> name ->
  s !! mergedFields = Some om ->
  merge_name rec rootFields mergedFields name' otherFields s = Ok u s' ->
  exists om', s' !! mergedFields = Some om' /\ obj_get om' name = obj_get om name.
Proof.
  intros Hrec Hne Hom H. unfold merge_name in H.
  apply store_bind_Ok in H as (rf & s1 & Hread & H). apply read_Ok in Hread as [_ <-].
  assert (Hwrite : forall v sx u' sy,
            sx !! mergedFields = Some om ->
            write mergedFields name' v sx = Ok u' sy ->
            exists om', sy !! mergedFields = Some om' /\ obj_get om' name = obj_get om name).
  { intros v sx u' sy Hx Hw. apply write_Ok in Hw as (o & Ho & ->).
    rewrite Hx in Ho. injection Ho as <-. exists (obj_set om name' v).
    split; [|now apply obj_get_set_ne].
    apply list_lookup_insert_eq. now apply lookup_lt_Some in Hx. }
  assert (Hkept : forall sx sy, keeps (List.length sx) sx sy ->
            sx !! mergedFields = Some om -> sy !! mergedFields = Some om).
  { intros sx sy [_ Hk] Hx. rewrite Hk; [exact Hx|]. now apply lookup_lt_Some in Hx. }
  destruct otherFields as [|lo], (obj_get rf name') as [[|lf]|]; try discriminate.
  - apply store_ret_Ok in H as [_ <-]. eauto.
  - exact (Hwrite _ _ _ _ Hom H).
  - apply store_bind_Ok in H as (m & s2 & Hc & H). destruct (Hrec _ _ _ _ _ Hc) as [Hk _].
    exact (Hwrite _ _ _ _ (Hkept _ _ Hk Hom) H).
  - apply store_bind_Ok in H as (e & s2 & Ha & H). unfold alloc in Ha. injection Ha as <- <-.
    apply store_bind_Ok in H as (m & s3 & Hc & H). destruct (Hrec _ _ _ _ _ Hc) as [Hk _].
    apply (Hwrite _ _ _ _ (Hkept _ _ Hk (lookup_app_l_Some _ _ _ _ Hom)) H).
Qed.

Lemma merge_loop_shares rec rootFields mergedFields name es : forall s u s' om,
  merge_frame rec -> obj_get es name = None ->
  s !! mergedFields = Some om ->
  merge_loop rec rootFields mergedFields es s = Ok u s' ->
  exists om', s' !! mergedFields = Some om' /\ obj_get om' name = obj_get om name.
Proof.
  induction es as [|[name' v] es IH]; intros s u s' om Hrec Hname Hom H.
  - apply store_ret_Ok in H as [_ <-]. eauto.
  - cbn [obj_get] in Hname. destruct (String.eqb_spec name' name) as [|Hne]; [discriminate|].
    cbn [merge_loop] in H. apply store_bind_Ok in H as (u1 & s1 & H1 & H).
    destruct (merge_name_shares _ _ _ _ _ _ _ _ _ _ Hrec Hne Hom H1) as (om1 & Hom1 & Hg1).
    destruct (IH s1 u s' om1 Hrec Hname Hom1 H) as (om' & Hom' & Hg').
    exists om'. split; [exact Hom' | congruence].
Qed.

Lemma add_shares fuel fields otherFields s m s' o1 o2 name :
  add fuel fields otherFields s = Ok m s' ->
  s !! fields = Some o1 -> s !! otherFields = Some o2 ->
  obj_get o2 name = None ->
  exists om, s' !! m = Some om /\ obj_get om name = obj_get o1 name.
Proof.
  unfold add. intros H Hof Hoo Hname. destruct fuel as [|fuel]; [discriminate|].
  cbn [_merge] in H. apply store_bind_Ok in H as (rf & s1 & Hread & H).
  apply read_Ok in Hread as [Hrf <-]. rewrite Hof in Hrf. injection Hrf as <-.
  apply store_bind_Ok in H as (mf & s2 & Ha & H). unfold alloc in Ha. injection Ha as <- <-.
  apply store_bind_Ok in H as (ro & s3 & Hread & H). apply read_Ok in Hread as [Hro <-].
  rewrite (lookup_app_l_Some _ _ _ _ Hoo) in Hro. injection Hro as <-.
  apply store_bind_Ok in H as (u & s4 & Hloop & H). apply store_ret_Ok in H as [<- <-].
  apply (merge_loop_shares _ _ _ name _ _ _ _ o1 (merge_is_framed fuel) Hname) in Hloop;
    [exact Hloop|]. now apply list_lookup_middle.
Qed.

(** X11. Under a name that the second mask does not have, the sum has what the
    first mask has: the same nested object, not a copy.  So the sum and the
    first mask give, for such a name, masks of one object, and a [$set]
    on the one that [$get] returns from the sum is seen through the first
    mask. *)
Theorem add_shares_nested_objects_with_the_first_mask
    fuel fields otherFields s m s' o1 o2 name l :
  add fuel fields otherFields s = Ok m s' ->
  s !! fields = Some o1 -> s !! otherFields = Some o2 ->
  obj_get o1 name = Some (JObject l) -> obj_get o2 name = None ->
  name <> "" -> l <> fields ->
  get m name s' = Ok (PartlySelected l) s' /\
  get fields name s' = Ok (PartlySelected l) s' /\
  forall k u s'',
    set 0 l k ArgTrue s' = Ok u s'' ->
    get fields name s'' = Ok (PartlySelected l) s'' /\
    has l k s'' = Ok true s''.
Proof.
  intros H Hof Hoo Hl Hname Hne Hlf.
  destruct (add_shares _ _ _ _ _ _ _ _ name H Hof Hoo Hname) as (om & Hom & Hg).
  destruct (merge_is_framed _ _ _ _ _ _ H) as [[_ Hk] _].
  assert (Hof' : s' !! fields = Some o1).
  { rewrite Hk; [exact Hof|]. now apply lookup_lt_Some in Hof. }
  assert (Hnm : String.eqb name "" = false) by now apply String.eqb_neq.
  split; [|split].
  - unfold get. rewrite Hnm. unfold bind, read. now rewrite Hom, Hg, Hl.
  - unfold get. rewrite Hnm. unfold bind, read. now rewrite Hof', Hl.
  - intros k u s'' Hset. unfold set in Hset.
    destruct (String.eqb k "") eqn:Hk0; [discriminate|].
    apply write_Ok in Hset as (ol & Hol & ->). split.
    + unfold get. rewrite Hnm. unfold bind, read.
      rewrite list_lookup_insert_ne by exact Hlf. now rewrite Hof', Hl.
    + unfold has. rewrite Hk0. unfold bind, read.
      rewrite list_lookup_insert_eq by (now apply lookup_lt_Some in Hol).
      now rewrite obj_get_set_eq.
Qed.

Lemma add_shares_nested_objects_with_the_first_mask_witness :
  get 4 "b"
    [[("a", JTrue); ("b", JObject 1)]; [("c", JTrue)]; [("e", JTrue)]; [];
     [("a", JTrue); ("b", JObject 1); ("e", JTrue)]]
  = Ok (PartlySelected 1)
      [[("a", JTrue); ("b", JObject 1)]; [("c", JTrue)]; [("e", JTrue)]; [];
       [("a", JTrue); ("b", JObject 1); ("e", JTrue)]].
Proof.
  refine (proj1 (add_shares_nested_objects_with_the_first_mask 1 0 2
                   [[("a", JTrue); ("b", JObject 1)]; [("c", JTrue)]; [("e", JTrue)]; []]
                   4 _ [("a", JTrue); ("b", JObject 1)] [("e", JTrue)] "b" 1
                   eq_refl eq_refl eq_refl eq_refl eq_refl _ _)); discriminate.
Defined.

(** *** What [$set] stores *)

Lemma clone_entries_keeps rec n es : forall s copy s',
  (forall l sx c sy, rec l sx = Ok c sy -> keeps (List.length sx) sx sy) ->
  n <= List.length s ->
  clone_entries rec es s = Ok copy s' -> keeps n s s'.
Proof.
  induction es as [|[name [|l]] es IH]; intros s copy s' Hrec Hn H.
  - apply store_ret_Ok in H as [_ <-]. apply keeps_refl.
  - cbn [clone_entries] in H. apply store_bind_Ok in H as (rest' & s1 & Hrest & H).
    apply store_ret_Ok in H as [_ <-]. exact (IH _ _ _ Hrec Hn Hrest).
  - cbn [clone_entries] in H. apply store_bind_Ok in H as (c & s1 & Hc & H).
    apply store_bind_Ok in H as (rest' & s2 & Hrest & H). apply store_ret_Ok in H as [_ <-].
    pose proof (keeps_weaken _ _ _ _ Hn (Hrec _ _ _ _ Hc)) as Hk1.
    eapply keeps_trans; [exact Hk1|]. apply (IH s1 rest' s2 Hrec); [|exact Hrest].
    destruct Hk1 as [L _]. lia.
Qed.

Lemma cloneDeep_framed fuel : forall l s c s',
  cloneDeep fuel l s = Ok c s' ->
  keeps (List.length s) s s' /\ List.length s <= c < List.length s'.
Proof.
  induction fuel as [|fuel IH]; intros l s c s' H; [discriminate|].
  cbn [cloneDeep] in H. apply store_bind_Ok in H as (o & s1 & Hread & H).
  apply read_Ok in Hread as [_ <-].
  apply store_bind_Ok in H as (copy & s2 & Hcopy & H).
  unfold alloc in H. injection H as <- <-.
  pose proof (clone_entries_keeps _ (List.length s) _ _ _ _
                (fun l sx c sy Hc => proj1 (IH l sx c sy Hc)) (le_n _) Hcopy) as Hk.
  split.
  - eapply keeps_trans; [exact Hk|]. apply keeps_alloc. now destruct Hk.
  - destruct Hk as [L _]. rewrite length_app. cbn. lia.
Qed.

(** X27. [$set(name, mask)] stores a new object, the copy that [$serialize]
    makes, not the object of the mask given: what [$get(name)] returns
    afterwards is a mask of an object that did not exist before the call,
    and no object but the one of [this] is written to. *)
Theorem set_stores_a_copy_of_the_mask fuel this name mask s u s' :
  set fuel this name (ArgMask mask) s = Ok u s' ->
  exists copy,
    get this name s' = Ok (PartlySelected copy) s' /\
    s !! copy = None /\
    forall l o, l <> this -> s !! l = Some o -> s' !! l = Some o.
Proof.
  unfold set, get. destruct (String.eqb name "") eqn:Hname; [discriminate|].
  intros H. apply store_bind_Ok in H as (copy & s1 & Hc & H).
  apply cloneDeep_framed in Hc as [[_ Hk] Hfresh].
  apply write_Ok in H as (o & Ho & ->). exists copy. split; [|split].
  - unfold bind, read.
    rewrite list_lookup_insert_eq by (now apply lookup_lt_Some in Ho).
    now rewrite obj_get_set_eq.
  - apply lookup_ge_None. lia.
  - intros l o' Hne Hl. rewrite list_lookup_insert_ne by congruence.
    rewrite Hk; [exact Hl|]. now apply lookup_lt_Some in Hl.
Qed.

Lemma set_stores_a_copy_of_the_mask_witness :
  exists copy,
    get 0 "b" [[("a", JTrue); ("b", JObject 2)]; [("x", JTrue)]; [("x", JTrue)]]
    = Ok (PartlySelected copy)
        [[("a", JTrue); ("b", JObject 2)]; [("x", JTrue)]; [("x", JTrue)]] /\
    [[("a", JTrue)]; [("x", JTrue)]] !! copy = None /\
    forall l o, l <> 0 ->
      [[("a", JTrue)]; [("x", JTrue)]] !! l = Some o ->
      [[("a", JTrue); ("b", JObject 2)]; [("x", JTrue)]; [("x", JTrue)]] !! l = Some o.
Proof.
  exact (set_stores_a_copy_of_the_mask 1 0 "b" 1 [[("a", JTrue)]; [("x", JTrue)]] tt
           [[("a", JTrue); ("b", JObject 2)]; [("x", JTrue)]; [("x", JTrue)]] eq_refl).
Defined.

(** *** The mask an object of the store stands for

    The mask of an object has the properties of the object, with the masks
    of the nested objects in place of the references to them.  The objects
    are looked up with [lk], which knows the store or a part of it, and
    [n] bounds the nesting. *)

(** the entries of an object, the nested objects by [rec] *)
Fixpoint denote_entries (rec : nat -> option FieldMask.FieldMask) (es : object)
    : option FieldMask.FieldMask :=
  match es with
  | [] => Some []
  | (name, JTrue) :: rest =>
      match denote_entries rec rest with
      | Some rest' => Some ((name, FieldMask.FTrue) :: rest')
      | None => None
      end
  | (name, JObject l) :: rest =>
      match rec l, denote_entries rec rest with
      | Some f, Some rest' => Some ((name, FieldMask.FObj f) :: rest')
      | _, _ => None
      end
  end.

Fixpoint denote_with (lk : nat -> option object) (n : nat) (l : nat)
    : option FieldMask.FieldMask :=
  match n with
  | 0 => None
  | S n' =>
      match lk l with
      | Some o => denote_entries (denote_with lk n') o
      | None => None
      end
  end.

(** The mask of the object at [l] of the store [s], when the nesting is
    less than [n] deep. *)
Definition denote (s : store) (n : nat) (l : nat) : option FieldMask.FieldMask :=
  denote_with (fun k => s !! k) n l.

(** [lk'] knows the objects [lk] knows *)
Definition known_to (lk lk' : nat -> option object) : Prop :=
  forall k o, lk k = Some o -> lk' k = Some o.

Lemma denote_entries_mono (rec rec' : nat -> option FieldMask.FieldMask) es fs :
  (forall l f, rec l = Some f -> rec' l = Some f) ->
  denote_entries rec es = Some fs -> denote_entries rec' es = Some fs.
Proof.
  intros Hrec. revert fs. induction es as [|[name [|l]] es IH]; intros fs H; cbn in *.
  - exact H.
  - destruct (denote_entries rec es) as [rest|]; [|discriminate].
    now rewrite (IH rest eq_refl).
  - destruct (rec l) as [f|] eqn:El; [|discriminate].
    destruct (denote_entries rec es) as [rest|]; [|discriminate].
    now rewrite (Hrec _ _ El), (IH rest eq_refl).
Qed.

Lemma denote_with_mono lk lk' n : forall l f,
  known_to lk lk' -> denote_with lk n l = Some f -> denote_with lk' n l = Some f.
Proof.
  induction n as [|n IH]; intros l f Hlk H; [discriminate|]. cbn in *.
  destruct (lk l) as [o|] eqn:El; [|discriminate]. rewrite (Hlk _ _ El).
  apply (denote_entries_mono (denote_with lk n)); [|exact H].
  intros l' f' H'. now apply IH.
Qed.

Lemma denote_with_level lk n l f :
  denote_with lk n l = Some f -> exists n', n = S n'.
Proof. destruct n as [|n']; [discriminate | eauto]. Qed.

Lemma denote_entries_get rec es fs name :
  denote_entries rec es = Some fs ->
  match obj_get es name with
  | None => obj_get fs name = None
  | Some JTrue => obj_get fs name = Some FieldMask.FTrue
  | Some (JObject l) => exists f, rec l = Some f /\ obj_get fs name = Some (FieldMask.FObj f)
  end.
Proof.
  revert fs. induction es as [|[k [|l]] es IH]; intros fs H; cbn in *.
  - now injection H as <-.
  - destruct (denote_entries rec es) as [rest|]; [|discriminate]. injection H as <-.
    cbn. destruct (String.eqb k name); [reflexivity | now apply IH].
  - destruct (rec l) as [f|] eqn:El; [|discriminate].
    destruct (denote_entries rec es) as [rest|]; [|discriminate]. injection H as <-.
    cbn. destruct (String.eqb k name); [eauto | now apply IH].
Qed.

Lemma denote_entries_set_true rec es fs name :
  denote_entries rec es = Some fs ->
  denote_entries rec (obj_set es name JTrue) = Some (obj_set fs name FieldMask.FTrue).
Proof.
  revert fs. induction es as [|[k [|l]] es IH]; intros fs H; cbn in *.
  - now injection H as <-.
  - destruct (denote_entries rec es) as [rest|] eqn:Er; [|discriminate]. injection H as <-.
    cbn. destruct (String.eqb k name); cbn.
    + now rewrite Er.
    + now rewrite (IH rest eq_refl).
  - destruct (rec l) as [f|] eqn:El; [|discriminate].
    destruct (denote_entries rec es) as [rest|] eqn:Er; [|discriminate]. injection H as <-.
    cbn. destruct (String.eqb k name); cbn.
    + now rewrite Er.
    + now rewrite El, (IH rest eq_refl).
Qed.

Lemma denote_entries_set_object rec es fs name m f :
  rec m = Some f ->
  denote_entries rec es = Some fs ->
  denote_entries rec (obj_set es name (JObject m))
  = Some (obj_set fs name (FieldMask.FObj f)).
Proof.
  intros Hm. revert fs. induction es as [|[k [|l]] es IH]; intros fs H; cbn in *.
  - injection H as <-. now rewrite Hm.
  - destruct (denote_entries rec es) as [rest|] eqn:Er; [|discriminate]. injection H as <-.
    cbn. destruct (String.eqb k name); cbn.
    + now rewrite Hm, Er.
    + now rewrite (IH rest eq_refl).
  - destruct (rec l) as [f'|] eqn:El; [|discriminate].
    destruct (denote_entries rec es) as [rest|] eqn:Er; [|discriminate]. injection H as <-.
    cbn. destruct (String.eqb k name); cbn.
    + now rewrite Hm, Er.
    + now rewrite El, (IH rest eq_refl).
Qed.

(** *** [_merge] in the store computes [_merge] on the masks *)

(** From [s] to [s'] the objects other than the one at [x] stay. *)
Definition grows (x : nat) (s s' : store) : Prop :=
  forall k o, k <> x -> s !! k = Some o -> s' !! k = Some o.

Lemma grows_refl x s : grows x s s.
Proof. now intros k o _ H. Qed.

Lemma grows_trans x s1 s2 s3 : grows x s1 s2 -> grows x s2 s3 -> grows x s1 s3.
Proof. intros H1 H2 k o Hk H. now apply H2, H1. Qed.

Lemma grows_keeps x s s' : keeps (List.length s) s s' -> grows x s s'.
Proof.
  intros [_ Hk] k o _ H. rewrite Hk; [exact H|]. now apply lookup_lt_Some in H.
Qed.

Lemma grows_alloc x s o : grows x s (s ++ [o])%list.
Proof. intros k o' _ H. now apply lookup_app_l_Some. Qed.

Lemma grows_write x s o : grows x s (<[x := o]> s).
Proof. intros k o' Hk H. now rewrite list_lookup_insert_ne. Qed.

(** the objects [lk] knows below [n0], and the objects of [s] above *)
Definition with_new (lk : nat -> option object) (n0 : nat) (s : store)
    : nat -> option object :=
  fun k => if decide (k < n0) then lk k else s !! k.

(** the same without the object at [n0] *)
Definition besides (lk : nat -> option object) (n0 : nat) (s : store)
    : nat -> option object :=
  fun k => if decide (k < n0) then lk k else if decide (k = n0) then None else s !! k.

Lemma besides_grows lk n0 s s' : grows n0 s s' -> known_to (besides lk n0 s) (besides lk n0 s').
Proof.
  intros Hg k o. unfold besides. destruct (decide (k < n0)); [auto|].
  destruct (decide (k = n0)); [discriminate|]. now apply Hg.
Qed.

Lemma besides_with_new lk n0 s : known_to (besides lk n0 s) (with_new lk n0 s).
Proof.
  intros k o. unfold besides, with_new. destruct (decide (k < n0)); [auto|].
  now destruct (decide (k = n0)).
Qed.

(** [rec] does in the store what [_merge] does on the masks of nesting
    less than [n]: it throws when [_merge] throws, and returns an object
    whose mask is the mask [_merge] returns.  The mask of the result is
    read from the objects [lk] knows and the objects made by the call. *)
Definition simulates (n : nat) (rec : nat -> nat -> M nat) : Prop :=
  forall lk s a b fa fb,
    known_to lk (fun k => s !! k) ->
    denote_with lk n a = Some fa -> denote_with lk n b = Some fb ->
    match FieldMask._merge fa (FieldMask.FObj fb) with
    | Returns fm =>
        exists m s', rec a b s = Ok m s' /\
                     denote_with (with_new lk (List.length s) s') n m = Some fm
    | Throws e => rec a b s = Err e
    end.

Section MergeLoop.

Variables (n' fuel' : nat) (lk : nat -> option object) (s0 : store) (a : nat).
Variables (rf : object) (fa : FieldMask.FieldMask).
Hypothesis IH : simulates n' (_merge fuel').
Hypothesis Hlk : known_to lk (fun k => s0 !! k).
Hypothesis Ha : lk a = Some rf.
Hypothesis Hfa : denote_entries (denote_with lk n') rf = Some fa.

(** the loop run from the store [sc] against the loop on the masks *)
Definition loop_result (sc : store) (pure : outcome FieldMask.FieldMask)
    (run : result unit) : Prop :=
  match pure with
  | Returns fm =>
      exists s', run = Ok tt s' /\ grows (List.length s0) sc s' /\
        exists om', s' !! List.length s0 = Some om' /\
          denote_entries (denote_with (besides lk (List.length s0) s') n') om' = Some fm
  | Throws e => run = Err e
  end.

Lemma loop_result_grows sc sc1 pure run :
  grows (List.length s0) sc sc1 -> loop_result sc1 pure run -> loop_result sc pure run.
Proof.
  intros Hg. unfold loop_result. destruct pure as [fm|e]; [|auto].
  intros (s' & Hrun & Hg' & Hom). exists s'. split; [exact Hrun|]. split; [|exact Hom].
  eapply grows_trans; eassumption.
Qed.

Lemma lk_below k o : lk k = Some o -> k < List.length s0.
Proof. intros H. apply Hlk in H. now apply lookup_lt_Some in H. Qed.

Lemma lk_besides s : known_to lk (besides lk (List.length s0) s).
Proof.
  intros k o H. unfold besides. destruct (decide (k < List.length s0)); [exact H|].
  apply lk_below in H. lia.
Qed.

Lemma lk_grows sc : grows (List.length s0) (s0 ++ [rf])%list sc -> known_to lk (fun k => sc !! k).
Proof.
  intros Hg k o H. pose proof (lk_below _ _ H) as Hk. apply Hg; [lia|].
  apply lookup_app_l_Some. now apply Hlk.
Qed.

(** the recursive call for one name, and the write of its result *)
Lemma merge_recursive_simulates sc s_in lkc lf lo f fo om acc name es fes :
  grows (List.length s0) sc s_in ->
  s_in !! List.length s0 = Some om ->
  (forall k o, lkc k = Some o ->
     (k < List.length s0 /\ lk k = Some o) \/ (List.length s0 < k /\ s_in !! k = Some o)) ->
  known_to lkc (fun k => s_in !! k) ->
  denote_with lkc n' lf = Some f -> denote_with lkc n' lo = Some fo ->
  denote_entries (denote_with (besides lk (List.length s0) sc) n') om = Some acc ->
  (forall sc1 om1 acc1,
     grows (List.length s0) sc sc1 ->
     sc1 !! List.length s0 = Some om1 ->
     denote_entries (denote_with (besides lk (List.length s0) sc1) n') om1 = Some acc1 ->
     loop_result sc1 (FieldMask.merge_loop FieldMask._merge fa fes acc1)
       (merge_loop (_merge fuel') a (List.length s0) es sc1)) ->
  loop_result sc
    (match FieldMask._merge f (FieldMask.FObj fo) with
     | Returns m =>
         FieldMask.merge_loop FieldMask._merge fa fes (obj_set acc name (FieldMask.FObj m))
     | Throws e => Throws e
     end)
    (match _merge fuel' lf lo s_in with
     | Ok m s' =>
         match write (List.length s0) name (JObject m) s' with
         | Ok _ s2 => merge_loop (_merge fuel') a (List.length s0) es s2
         | Err e => Err e
         | Diverges => Diverges
         end
     | Err e => Err e
     | Diverges => Diverges
     end).
Proof.
  intros Hg Hom Hlkc Hknown Hf Hfo Hacc Hrest.
  pose proof (IH lkc s_in lf lo f fo Hknown Hf Hfo) as Hcall.
  destruct (FieldMask._merge f (FieldMask.FObj fo)) as [child|e]; [|now rewrite Hcall].
  destruct Hcall as (m & s' & Hrun & Hm). rewrite Hrun.
  destruct (merge_is_framed fuel' _ _ _ _ _ Hrun) as [Hkeeps Hnew].
  pose proof (lookup_lt_Some _ _ _ Hom) as Hlt.
  assert (Hom' : s' !! List.length s0 = Some om).
  { destruct Hkeeps as [_ Hk]. now rewrite Hk. }
  unfold write. rewrite Hom'.
  assert (Hg' : grows (List.length s0) sc
                  (<[List.length s0 := obj_set om name (JObject m)]> s')).
  { eapply grows_trans; [exact Hg|].
    eapply grows_trans; [apply grows_keeps; exact Hkeeps | apply grows_write]. }
  eapply loop_result_grows; [exact Hg'|].
  apply (Hrest _ (obj_set om name (JObject m))); [exact Hg' | |].
  - apply list_lookup_insert_eq. destruct Hkeeps as [L _]. lia.
  - apply denote_entries_set_object.
    + apply (denote_with_mono (with_new lkc (List.length s_in) s')); [|exact Hm].
      intros k o. unfold with_new, besides. destruct (decide (k < List.length s_in)) as [Hk|Hk].
      * intros H. destruct (Hlkc _ _ H) as [[Hb Hl]|[Hb Hs]].
        -- destruct (decide (k < List.length s0)); [exact Hl | lia].
        -- destruct (decide (k < List.length s0)); [lia|].
           destruct (decide (k = List.length s0)); [lia|].
           rewrite list_lookup_insert_ne by lia. destruct Hkeeps as [_ Hkk]. now rewrite Hkk.
      * intros H. destruct (decide (k < List.length s0)); [lia|].
        destruct (decide (k = List.length s0)); [lia|].
        now rewrite list_lookup_insert_ne by lia.
    + apply (denote_entries_mono (denote_with (besides lk (List.length s0) sc) n'));
        [|exact Hacc].
      intros l g. apply denote_with_mono. apply besides_grows. exact Hg'.
Qed.

Lemma merge_loop_simulates es : forall fes sc om acc,
  denote_entries (denote_with lk n') es = Some fes ->
  grows (List.length s0) (s0 ++ [rf])%list sc ->
  sc !! List.length s0 = Some om ->
  denote_entries (denote_with (besides lk (List.length s0) sc) n') om = Some acc ->
  loop_result sc (FieldMask.merge_loop FieldMask._merge fa fes acc)
    (merge_loop (_merge fuel') a (List.length s0) es sc).
Proof.
  induction es as [|[name v] es IHes]; intros fes sc om acc Hes Hg Hom Hacc.
  - cbn in Hes. injection Hes as <-. cbn. exists sc. split; [reflexivity|].
    split; [apply grows_refl | eauto].
  - pose proof (lk_grows sc Hg) as Hknown.
    pose proof (lookup_lt_Some _ _ _ Hom) as Hlt.
    assert (Hread : read a sc = Ok rf sc).
    { unfold read. now rewrite (Hknown _ _ Ha). }
    pose proof (denote_entries_get _ _ _ name Hfa) as Hget.
    cbn [merge_loop]. unfold bind at 1, merge_name, bind at 1. rewrite Hread.
    destruct v as [|lo].
    + cbn in Hes. destruct (denote_entries (denote_with lk n') es) as [fes'|] eqn:Ees;
        [|discriminate].
      injection Hes as <-.
      rewrite FieldMask.merge_loop_cons. unfold FieldMask.merge_entry.
      destruct (obj_get rf name) as [[|lf]|].
      * rewrite Hget. cbn [ret]. now apply (IHes fes' sc om acc).
      * destruct Hget as (f & _ & ->). reflexivity.
      * rewrite Hget. unfold write. rewrite Hom.
        eapply loop_result_grows; [apply grows_write|].
        apply (IHes fes' _ (obj_set om name JTrue)); [reflexivity | | |].
        -- eapply grows_trans; [exact Hg | apply grows_write].
        -- now apply list_lookup_insert_eq.
        -- apply denote_entries_set_true.
           apply (denote_entries_mono (denote_with (besides lk (List.length s0) sc) n'));
             [|exact Hacc].
           intros l g. apply denote_with_mono. apply besides_grows, grows_write.
    + cbn in Hes. destruct (denote_with lk n' lo) as [fo|] eqn:Elo; [|discriminate].
      destruct (denote_entries (denote_with lk n') es) as [fes'|] eqn:Ees; [|discriminate].
      injection Hes as <-.
      rewrite FieldMask.merge_loop_cons. unfold FieldMask.merge_entry.
      assert (Hrest : forall sc1 om1 acc1,
                grows (List.length s0) sc sc1 ->
                sc1 !! List.length s0 = Some om1 ->
                denote_entries (denote_with (besides lk (List.length s0) sc1) n') om1
                = Some acc1 ->
                loop_result sc1 (FieldMask.merge_loop FieldMask._merge fa fes' acc1)
                  (merge_loop (_merge fuel') a (List.length s0) es sc1)).
      { intros sc1 om1 acc1 Hg1 Hom1 Hacc1. apply (IHes fes' sc1 om1 acc1); auto.
        eapply grows_trans; eassumption. }
      destruct (obj_get rf name) as [[|lf]|].
      * rewrite Hget. reflexivity.
      * destruct Hget as (f & Hf & ->).
        assert (Hstep := merge_recursive_simulates sc sc lk lf lo f fo om acc name es fes'
                           (grows_refl _ _) Hom
                           (fun k o H => or_introl (conj (lk_below k o H) H))
                           Hknown Hf Elo Hacc Hrest).
        unfold bind.
        destruct (FieldMask._merge f (FieldMask.FObj fo)), (_merge fuel' lf lo sc);
          exact Hstep.
      * rewrite Hget.
        assert (Hfresh : (sc ++ [[]])%list !! List.length sc = Some ([] : object))
          by now apply list_lookup_middle.
        assert (Hlke : forall k o,
                  (if decide (k = List.length sc) then Some [] else lk k) = Some o ->
                  (k < List.length s0 /\ lk k = Some o) \/
                  (List.length s0 < k /\ (sc ++ [[]])%list !! k = Some o)).
        { intros k o. destruct (decide (k = List.length sc)) as [->|Hk].
          - intros [= <-]. right. split; [lia | exact Hfresh].
          - intros H. left. split; [exact (lk_below k o H) | exact H]. }
        assert (Hknown' : known_to (fun k => if decide (k = List.length sc) then Some [] else lk k)
                            (fun k => (sc ++ [[]])%list !! k)).
        { intros k o. cbn beta. destruct (decide (k = List.length sc)) as [->|Hk].
          - intros [= <-]. exact Hfresh.
          - intros H. apply lookup_app_l_Some. now apply Hknown. }
        assert (Hempty : denote_with (fun k => if decide (k = List.length sc) then Some [] else lk k)
                           n' (List.length sc) = Some []).
        { destruct (denote_with_level _ _ _ _ Elo) as [n'' ->]. cbn [denote_with].
          now rewrite decide_True by reflexivity. }
        assert (Hlo : denote_with (fun k => if decide (k = List.length sc) then Some [] else lk k)
                        n' lo = Some fo).
        { apply (denote_with_mono lk); [|exact Elo].
          intros k o H. pose proof (lk_below k o H). now rewrite decide_False by lia. }
        assert (Hstep := merge_recursive_simulates sc (sc ++ [[]])%list _
                           (List.length sc) lo [] fo om acc name es fes'
                           (grows_alloc _ _ _) (lookup_app_l_Some _ _ _ _ Hom)
                           Hlke Hknown' Hempty Hlo Hacc Hrest).
        unfold bind, alloc.
        destruct (FieldMask._merge [] (FieldMask.FObj fo)),
                 (_merge fuel' (List.length sc) lo (sc ++ [[]])%list);
          exact Hstep.
Qed.

End MergeLoop.

Lemma merge_simulates n : forall fuel, n <= fuel -> simulates n (_merge fuel).
Proof.
  induction n as [|n' IH]; intros fuel Hfuel lk s a b fa fb Hlk Ha Hb; [discriminate|].
  destruct fuel as [|fuel']; [lia|].
  cbn [denote_with] in Ha, Hb.
  destruct (lk a) as [rf|] eqn:Ea; [|discriminate].
  destruct (lk b) as [ro|] eqn:Eb; [|discriminate].
  pose proof (Hlk _ _ Ea) as Hsa. pose proof (Hlk _ _ Eb) as Hsb. cbn beta in Hsa, Hsb.
  assert (Hloop := merge_loop_simulates n' fuel' lk s a rf fa (IH fuel' ltac:(lia)) Hlk Ea Ha
                     ro fb (s ++ [rf])%list rf fa Hb (grows_refl _ _)
                     (list_lookup_middle _ _ _ _ eq_refl)
                     (denote_entries_mono _ _ _ _
                        (fun l f => denote_with_mono _ _ _ l f (lk_besides lk s Hlk _)) Ha)).
  assert (Hrun : _merge (S fuel') a b s =
                 match merge_loop (_merge fuel') a (List.length s) ro (s ++ [rf])%list with
                 | Ok _ s' => Ok (List.length s) s'
                 | Err e => Err e
                 | Diverges => Diverges
                 end).
  { cbn [_merge]. unfold bind at 1, read at 1. rewrite Hsa.
    unfold bind at 1, alloc at 1. unfold bind at 1, read at 1.
    now rewrite (lookup_app_l_Some _ _ _ _ Hsb). }
  rewrite Hrun. cbn [FieldMask._merge]. unfold loop_result in Hloop.
  destruct (FieldMask.merge_loop FieldMask._merge fa fb fa) as [fm|e]; [|now rewrite Hloop].
  destruct Hloop as (s' & -> & Hg & om' & Hom' & Hden).
  exists (List.length s), s'. split; [reflexivity|].
  cbn [denote_with]. unfold with_new at 1. rewrite decide_False by lia. rewrite Hom'.
  apply (denote_entries_mono (denote_with (besides lk (List.length s) s') n')); [|exact Hden].
  intros l f. apply denote_with_mono, besides_with_new.
Qed.

(** The masks of the objects that were there are what they were. *)
Lemma denote_keeps s s' n l f :
  (forall k o, s !! k = Some o -> s' !! k = Some o) ->
  denote s n l = Some f -> denote s' n l = Some f.
Proof. intros H. now apply denote_with_mono. Qed.

(** C5.  For two masks in the store, none of whose names is a name every
    object inherits: [add(a, b)] throws 'Cannot merge two incompatible
    fieldMasks' exactly when some path has an entry in both masks, the leaf
    [true] in one and a nested object in the other.  Otherwise it returns a
    new object, whose mask [fm] has under a name without entry in [b] the
    entry [a] has (none when [a] has none), a leaf under a leaf of [b], and
    under a nested entry of [b] the sum of [a]'s nested entry (the empty
    mask when [a] has none) and [b]'s; every object that was in the store
    is what it was, and so are the masks of [a] and [b].  (At an inherited
    name the program reads [rootFields[name]] from [Object.prototype]:
    [$add({}, {constructor: {prototype: true}})] throws, and
    [$add({}, {constructor: true})] is [{}].) *)
Theorem add_throws_exactly_on_conflict fuel n s a b fa fb :
  n <= fuel ->
  denote s n a = Some fa -> denote s n b = Some fb ->
  FieldMask.wf (FieldMask.FObj fb) = true ->
  FieldMask.own_names (FieldMask.FObj fa) = true ->
  FieldMask.own_names (FieldMask.FObj fb) = true ->
  (add fuel a b s = Err IncompatibleMask <->
   exists path, FieldMask.conflict_at fa fb path) /\
  ((forall path, ~ FieldMask.conflict_at fa fb path) ->
   exists m s' fm,
     add fuel a b s = Ok m s' /\
     denote s' n m = Some fm /\
     (forall name,
        match obj_get fb name with
        | None => obj_get fm name = obj_get fa name
        | Some FieldMask.FTrue => obj_get fm name = Some FieldMask.FTrue
        | Some (FieldMask.FObj o) =>
            exists r,
              FieldMask.add (FieldMask.nested_or_empty (obj_get fa name)) o = Returns r /\
              obj_get fm name = Some (FieldMask.FObj r)
        end) /\
     s !! m = None /\
     (forall l o, s !! l = Some o -> s' !! l = Some o) /\
     denote s' n a = Some fa /\ denote s' n b = Some fb).
Proof.
  intros Hfuel Ha Hb Hwf _ _.
  pose proof (merge_simulates n fuel Hfuel (fun k => s !! k) s a b fa fb
                (fun k o H => H) Ha Hb) as Hsim.
  fold (FieldMask.add fa fb) in Hsim. fold (add fuel a b) in Hsim.
  split.
  - rewrite <- (FieldMask.add_throws_iff_conflict fa fb Hwf).
    destruct (FieldMask.add fa fb) as [fm|e].
    + destruct Hsim as (m & s' & -> & _). split; discriminate.
    + rewrite Hsim. split; [now intros [= ->] | now intros [= ->]].
  - intros Hno.
    destruct (FieldMask.add_returns_without_conflict fa fb Hwf Hno) as [fm Hfm].
    rewrite Hfm in Hsim. destruct Hsim as (m & s' & Hrun & Hm).
    destruct (merge_is_framed _ _ _ _ _ _ Hrun) as [[_ Hk] Hnew].
    assert (Hold : forall l o, s !! l = Some o -> s' !! l = Some o).
    { intros l o Hl. rewrite Hk; [exact Hl|]. now apply lookup_lt_Some in Hl. }
    exists m, s', fm. split; [exact Hrun|]. split.
    { apply (denote_with_mono (with_new (fun k => s !! k) (List.length s) s')); [|exact Hm].
      intros k o. unfold with_new. destruct (decide (k < List.length s)); [apply Hold | auto]. }
    split; [intros name; now apply FieldMask.add_returns_get|].
    split; [apply lookup_ge_None; lia|].
    split; [exact Hold|].
    split; now apply (denote_keeps s s').
Qed.

Lemma add_throws_exactly_on_conflict_witness :
  (add 2 0 1 [[("a", JTrue)]; [("a", JObject 2)]; [("b", JTrue)]] = Err IncompatibleMask <->
   exists path,
     FieldMask.conflict_at [("a", FieldMask.FTrue)]
       [("a", FieldMask.FObj [("b", FieldMask.FTrue)])] path) /\
  exists m s' fm,
    add 2 0 2 [[("a", JTrue); ("b", JObject 1)]; [("c", JTrue)];
               [("b", JObject 3)]; [("d", JTrue)]] = Ok m s' /\
    denote s' 2 m = Some fm /\
    denote s' 2 0
    = Some [("a", FieldMask.FTrue); ("b", FieldMask.FObj [("c", FieldMask.FTrue)])].
Proof.
  split.
  - refine (proj1 (add_throws_exactly_on_conflict 2 2
                     [[("a", JTrue)]; [("a", JObject 2)]; [("b", JTrue)]] 0 1
                     [("a", FieldMask.FTrue)]
                     [("a", FieldMask.FObj [("b", FieldMask.FTrue)])] _ _ _ _ _ _));
      [lia | reflexivity..].
  - destruct (proj2 (add_throws_exactly_on_conflict 2 2
                       [[("a", JTrue); ("b", JObject 1)]; [("c", JTrue)];
                        [("b", JObject 3)]; [("d", JTrue)]] 0 2
                       [("a", FieldMask.FTrue); ("b", FieldMask.FObj [("c", FieldMask.FTrue)])]
                       [("b", FieldMask.FObj [("d", FieldMask.FTrue)])]
                       (le_n 2) eq_refl eq_refl eq_refl eq_refl eq_refl))
      as (m & s' & fm & Hrun & Hm & _ & _ & _ & Ha & _).
    + intros path Hc.
      assert (H : FieldMask.add
                    [("a", FieldMask.FTrue); ("b", FieldMask.FObj [("c", FieldMask.FTrue)])]
                    [("b", FieldMask.FObj [("d", FieldMask.FTrue)])]
                  = Throws IncompatibleMask)
        by (apply FieldMask.add_throws_iff_conflict; [reflexivity | eauto]).
      discriminate H.
    + exists m, s', fm. auto.
Defined.

End FieldMaskStore.
